(** * ZKPAuth: Schnorr identification and Richens attestation

    A shallow embedding of [zkpauth/crypto.py], [zkpauth/store.py],
    [zkpauth/auth.py] and [zkpauth/richens.py], and the properties the
    specification states about them; then of the endpoints of
    [zkpauth/server.py] and the commands of [zkp_auth.py], and what the
    code shows of them.

    Conventions.
    - A Python [int] is a [Z]; [bytes] is a [list byte]; a [str] is a Rocq
      [string] holding the text's UTF-8 encoding, so that [s.encode("utf-8")]
      is [list_byte_of_string s] (strings that cannot be encoded, such as
      lone surrogates, are outside the model).
    - A function that can raise returns a [result]; a function that draws
      from [secrets] is a state transformer over an entropy tape ([Rng]).
    - The values of [zkpauth/constants.py] are left open: [P], [Q], [G],
      [CHALLENGE_BITS] and [ROUNDS] are the fields of the class [Constants],
      and a theorem states what it needs of them.
    - [hashlib]'s digests are the fields of the class [Hashlib]. *)

From Stdlib Require Import ZArith List String Ascii Bool Lia.
From Stdlib.Strings Require Import Byte.
From Stdlib Require Import HexString Zcong Zpow_facts.
From Stdlib Require DecimalString.
Import ListNotations.

Local Open Scope string_scope.
Local Open Scope list_scope.
Local Open Scope Z_scope.

(* ================================================================== *)
(** * The Python built-ins the code relies on *)
(* ================================================================== *)

Module Py.

(** Exceptions, by class; a [ValueError] carries its message. *)
Inductive exn : Type :=
| ValueError (msg : string)
| TypeError
| IndexError
| KeyError
| OverflowError
| ZeroDivisionError.

Inductive result (A : Type) : Type :=
| Ok (a : A)
| Raise (e : exn).
Arguments Ok {A} a.
Arguments Raise {A} e.

Definition bind {A B} (r : result A) (k : A -> result B) : result B :=
  match r with
  | Ok a => k a
  | Raise e => Raise e
  end.

Definition raises {A} (r : result A) : Prop := exists e, r = Raise e.

Definition bytes := list byte.

(** ** Integers *)

(** [a % m]. *)
Definition mod_ (a m : Z) : result Z :=
  if m =? 0 then Raise ZeroDivisionError else Ok (a mod m).

(** [pow(b, e, m)]: a zero modulus is refused; a negative exponent asks for
    the inverse of the base, which must exist. *)
Definition pow (b e m : Z) : result Z :=
  if m =? 0 then Raise (ValueError "pow() 3rd argument cannot be 0")
  else if e <? 0 then
    if Z.gcd b m =? 1 then Ok (Z.invmod b m ^ (- e) mod m)
    else Raise (ValueError "base is not invertible for the given modulus")
  else Ok (b ^ e mod m).

(** [z.bit_length()]. *)
Definition bit_length (z : Z) : Z :=
  if z =? 0 then 0 else Z.log2 (Z.abs z) + 1.

Definition byte_of_Z (z : Z) : byte :=
  match Byte.of_N (Z.to_N (z mod 256)) with
  | Some b => b
  | None => x00
  end.

Definition Z_of_byte (b : byte) : Z := Z.of_N (Byte.to_N b).

(** The [len] low-order base-256 digits of [v], most significant first. *)
Fixpoint be_bytes (len : nat) (v : Z) : bytes :=
  match len with
  | O => []
  | S n => be_bytes n (v / 256) ++ [byte_of_Z v]
  end.

(** [v.to_bytes(length, "big")] (unsigned). *)
Definition to_bytes (v length : Z) : result bytes :=
  if length <? 0 then Raise (ValueError "length argument must be non-negative")
  else if v <? 0 then Raise OverflowError
  else if 256 ^ length <=? v then Raise OverflowError
  else Ok (be_bytes (Z.to_nat length) v).

(** [int.from_bytes(bs, "big")]. *)
Definition from_bytes (bs : bytes) : Z :=
  fold_left (fun acc b => acc * 256 + Z_of_byte b) bs 0.

(** [bs[lo:hi]] for constant non-negative bounds. *)
Definition slice (bs : bytes) (lo hi : nat) : bytes :=
  firstn (hi - lo) (skipn lo bs).

(** [v[i]] on a tuple or list. *)
Definition index {A} (v : list A) (i : nat) : result A :=
  match nth_error v i with
  | Some a => Ok a
  | None => Raise IndexError
  end.

(** ** Text *)

Definition encode_utf8 (s : string) : bytes := list_byte_of_string s.

(** [hex(z)]: lower-case digits behind [0x], a leading [-] when negative. *)
Definition hex (z : Z) : string := HexString.of_Z z.

Definition is_space (c : ascii) : bool :=
  match N_of_ascii c with
  | 9%N | 10%N | 11%N | 12%N | 13%N | 32%N => true
  | _ => false
  end.

Definition is_underscore (c : ascii) : bool := Ascii.eqb c "_".

Definition digit16 (c : ascii) : option N := HexString.ascii_to_digit c.

(** A list of characters that are all hexadecimal digits. *)
Definition all_hex (l : list ascii) : Prop :=
  Forall (fun c => digit16 c <> None) l.

Fixpoint lstrip (l : list ascii) : list ascii :=
  match l with
  | c :: l' => if is_space c then lstrip l' else l
  | [] => []
  end.

(** The digit scan of [int(s, 16)]: digits, with single underscores between
    them, are consumed from the left.  The result is the value so far, the
    number of digits, whether the last character consumed was an underscore,
    and what is left; two underscores in a row are refused at once. *)
Fixpoint scan16 (l : list ascii) (prev_us : bool) (n : nat) (acc : N)
  : option (N * nat * bool * list ascii) :=
  match l with
  | [] => Some (acc, n, prev_us, [])
  | c :: l' =>
      if is_underscore c then
        if prev_us then None else scan16 l' true n acc
      else
        match digit16 c with
        | Some d => scan16 l' false (S n) (d + 16 * acc)%N
        | None => Some (acc, n, prev_us, l)
        end
  end.

Definition invalid_literal : exn := ValueError "invalid literal for int() with base 16".

(** [int(s, 16)] on text: surrounding white space, an optional sign, an
    optional [0x] or [0X] (after which one underscore may stand), then at
    least one digit.  (Python first maps the white space and the decimal
    digits beyond ASCII to their ASCII counterparts; here any character
    beyond ASCII is refused.) *)
Definition int16 (s : string) : result Z :=
  let l := lstrip (list_ascii_of_string s) in
  let '(neg, l) :=
    match l with
    | c :: l' =>
        if Ascii.eqb c "-" then (true, l')
        else if Ascii.eqb c "+" then (false, l')
        else (false, l)
    | [] => (false, l)
    end in
  let l :=
    match l with
    | z :: x :: l' =>
        if Ascii.eqb z "0" && (Ascii.eqb x "x" || Ascii.eqb x "X") then
          match l' with
          | u :: l'' => if is_underscore u then l'' else l'
          | [] => l'
          end
        else l
    | _ => l
    end in
  match l with
  | [] => Raise invalid_literal
  | c :: _ =>
      if is_underscore c then Raise invalid_literal
      else
        match scan16 l false O 0%N with
        | None => Raise invalid_literal
        | Some (v, n, last_us, rest) =>
            if last_us then Raise invalid_literal
            else match n with
                 | O => Raise invalid_literal
                 | S _ =>
                     match lstrip rest with
                     | [] => Ok (if neg then - Z.of_N v else Z.of_N v)
                     | _ :: _ => Raise invalid_literal
                     end
                 end
        end
  end.

(** Two lower-case hexadecimal digits per byte: [bytes.hex()], and what
    [hexdigest()] applies to a digest. *)
Definition hex_digit (n : N) : ascii :=
  match n with
  | 0%N => "0" | 1%N => "1" | 2%N => "2" | 3%N => "3"
  | 4%N => "4" | 5%N => "5" | 6%N => "6" | 7%N => "7"
  | 8%N => "8" | 9%N => "9" | 10%N => "a" | 11%N => "b"
  | 12%N => "c" | 13%N => "d" | 14%N => "e" | _ => "f"
  end%char.

Fixpoint hexlify (bs : bytes) : string :=
  match bs with
  | [] => EmptyString
  | b :: bs' =>
      String (hex_digit (Byte.to_N b / 16))
        (String (hex_digit (Byte.to_N b mod 16)) (hexlify bs'))
  end.

Definition is_ascii (s : string) : bool :=
  forallb (fun c => (N_of_ascii c <? 128)%N) (list_ascii_of_string s).

(** [s[:n]]: the first [n] characters, each of them one byte of the
    encoding that starts a character and the continuation bytes (of the
    form 10xxxxxx) behind it. *)
Definition is_continuation (c : ascii) : bool :=
  (128 <=? N_of_ascii c)%N && (N_of_ascii c <? 192)%N.

Fixpoint take_chars (n : nat) (l : list ascii) : list ascii :=
  match l with
  | [] => []
  | c :: rest =>
      if is_continuation c then c :: take_chars n rest
      else
        match n with
        | O => []
        | S n' => c :: take_chars n' rest
        end
  end.

Definition prefix (n : nat) (s : string) : string :=
  string_of_list_ascii (take_chars n (list_ascii_of_string s)).

(** [bytes.fromhex(s)]: pairs of hexadecimal digits, with ASCII white
    space allowed between the pairs.  The error names the position of the
    offending character: the first character beyond ASCII if there is one,
    else the first that is not a digit where one is due (the end of the
    text, for a digit left alone). *)
Definition fromhex_error (position : nat) : exn :=
  ValueError
    ("non-hexadecimal number found in fromhex() arg at position "
     ++ DecimalString.NilEmpty.string_of_uint (Nat.to_uint position)).

Fixpoint first_non_ascii (l : list ascii) : nat :=
  match l with
  | [] => O
  | c :: rest =>
      if (N_of_ascii c <? 128)%N then S (first_non_ascii rest) else O
  end.

Fixpoint fromhex_scan (l : list ascii) (position : nat) : result bytes :=
  match l with
  | [] => Ok []
  | c :: rest =>
      if is_space c then fromhex_scan rest (S position)
      else
        match digit16 c with
        | None => Raise (fromhex_error position)
        | Some top =>
            match rest with
            | [] => Raise (fromhex_error (S position))
            | d :: rest' =>
                match digit16 d with
                | None => Raise (fromhex_error (S position))
                | Some bot =>
                    bind (fromhex_scan rest' (S (S position)))
                      (fun bs => Ok (byte_of_Z (Z.of_N (top * 16 + bot)) :: bs))
                end
            end
        end
  end.

Definition fromhex (s : string) : result bytes :=
  if is_ascii s then fromhex_scan (list_ascii_of_string s) 0
  else Raise (fromhex_error (first_non_ascii (list_ascii_of_string s))).

(** ** [secrets] *)

(** The operating system's entropy, as a tape of integers read in order. *)
Record Rng : Type := { tape : nat -> Z; cursor : nat }.

Definition peek (r : Rng) (k : nat) : Z := tape r (cursor r + k).

Definition advance (r : Rng) (k : nat) : Rng :=
  {| tape := tape r; cursor := cursor r + k |}.

Definition M (A : Type) : Type := Rng -> result (A * Rng).

Definition ret {A} (a : A) : M A := fun r => Ok (a, r).

Definition bindM {A B} (m : M A) (k : A -> M B) : M B :=
  fun r =>
    match m r with
    | Ok (a, r') => k a r'
    | Raise e => Raise e
    end.

Definition lift {A} (x : result A) : M A :=
  fun r =>
    match x with
    | Ok a => Ok (a, r)
    | Raise e => Raise e
    end.

(** [secrets.randbits(k)]: the next tape cell, reduced to [k] bits (zero
    bits give 0, as from Python 3.9 on). *)
Definition randbits (k : Z) : M Z :=
  fun r =>
    if k <? 0 then Raise (ValueError "number of bits must be non-negative")
    else Ok (peek r 0 mod 2 ^ k, advance r 1).

(** [secrets.randbelow(n)]: the next tape cell, reduced below [n]. *)
Definition randbelow (n : Z) : M Z :=
  fun r =>
    if n <=? 0 then Raise (ValueError "Upper bound must be positive.")
    else Ok (peek r 0 mod n, advance r 1).

(** [secrets.compare_digest(a, b)] on two [str]: both must be ASCII. *)
Definition compare_digest (a b : string) : result bool :=
  if is_ascii a && is_ascii b then Ok (String.eqb a b)
  else Raise TypeError.

(** [base64.urlsafe_b64encode(bs).rstrip(b"=").decode("ascii")]. *)
Definition b64_alphabet : list ascii :=
  list_ascii_of_string
    "ABCDEFGHIJKLMNOPQRSTUVWXYZabcdefghijklmnopqrstuvwxyz0123456789-_".

Definition b64_char (n : Z) : ascii :=
  nth (Z.to_nat (n mod 64)) b64_alphabet "A"%char.

Fixpoint b64_urlsafe (bs : bytes) : string :=
  match bs with
  | [] => EmptyString
  | [a] =>
      let n := Z_of_byte a * 16 in
      String (b64_char (n / 64)) (String (b64_char n) EmptyString)
  | [a; b] =>
      let n := (Z_of_byte a * 256 + Z_of_byte b) * 4 in
      String (b64_char (n / 4096))
        (String (b64_char (n / 64)) (String (b64_char n) EmptyString))
  | a :: b :: c :: rest =>
      let n := (Z_of_byte a * 256 + Z_of_byte b) * 256 + Z_of_byte c in
      String (b64_char (n / 262144))
        (String (b64_char (n / 4096))
           (String (b64_char (n / 64)) (String (b64_char n) (b64_urlsafe rest))))
  end.

(** [secrets.token_bytes(n)]: the next tape cell, as [n] bytes. *)
Definition token_bytes (n : nat) : M bytes :=
  fun r => Ok (be_bytes n (peek r 0), advance r 1).

(** [secrets.token_urlsafe(n)]. *)
Definition token_urlsafe (n : nat) : M string :=
  fun r =>
    match token_bytes n r with
    | Ok (tok, r') => Ok (b64_urlsafe tok, r')
    | Raise e => Raise e
    end.

End Py.

Import Py.

Declare Scope py_scope.
Delimit Scope py_scope with py.
Notation "x <- e ;; k" := (bind e (fun x => k))
  (at level 61, e at next level, right associativity) : py_scope.
Notation "x <~ e ;; k" := (bindM e (fun x => k))
  (at level 61, e at next level, right associativity) : py_scope.
Local Open Scope py_scope.

(* ================================================================== *)
(** * [zkpauth/constants.py] and [hashlib] *)
(* ================================================================== *)

(** Modelled from the spec: the module [constants.py] itself is missing.
    The specification (GroupParameters) names a prime modulus [P], a
    generator [G] of a subgroup of order [Q], a challenge bit width and a
    round count; their values are left open here. *)
Class Constants : Type := {
  P : Z;
  Q : Z;
  G : Z;
  CHALLENGE_BITS : Z;
  ROUNDS : Z
}.

(** Modelled from the spec: the invariant of the group parameters, which
    [constants.py] would fix: [1 < G < P], a positive order [Q], and
    [G ^ Q = 1] modulo [P]. *)
Definition group_ok `{Constants} : Prop :=
  1 < G /\ G < P /\ 0 < Q /\ G ^ Q mod P = 1.

(** The digests of [hashlib], as functions of the whole message:
    [shake_256 m n] is [hashlib.shake_256(m).digest(n)], [blake2b n m] is
    [hashlib.blake2b(m, digest_size=n).digest()] and [sha256 m] is
    [hashlib.sha256(m).digest()]. *)
Class Hashlib : Type := {
  shake_256 : bytes -> nat -> bytes;
  blake2b : nat -> bytes -> bytes;
  sha256 : bytes -> bytes
}.

(** A [hashlib.blake2b] object: its digest size and the bytes fed so far
    ([update] calls are equivalent to one call on the concatenation). *)
Record Hasher : Type := { digest_size : nat; fed : bytes }.

Definition blake2b_new (n : nat) (data : bytes) : Hasher :=
  {| digest_size := n; fed := data |}.

Definition update (h : Hasher) (data : bytes) : Hasher :=
  {| digest_size := digest_size h; fed := fed h ++ data |}.

Definition hexdigest `{Hashlib} (h : Hasher) : string :=
  hexlify (blake2b (digest_size h) (fed h)).

(** The digest does not collide on the two messages. *)
Definition no_collision `{Hashlib} (n : nat) (m1 m2 : bytes) : Prop :=
  blake2b n m1 = blake2b n m2 -> m1 = m2.

(* ================================================================== *)
(** * [zkpauth/crypto.py] *)
(* ================================================================== *)

Module Crypto.
Section Defs.
Context `{Constants}.

Record SchnorrCommitment : Type := { commitment : Z; nonce : Z }.

Record SchnorrProof : Type := { challenge : Z; response : Z }.

Record SchnorrProver : Type := { secret : Z }.

Record SchnorrVerifier : Type := { public_key : Z }.

(** [SchnorrProver.__init__]. *)
Definition SchnorrProver_init (secret : Z) : result SchnorrProver :=
  if negb ((0 <? secret) && (secret <? Q)) then
    Raise (ValueError "Secret must lie in the multiplicative subgroup")
  else Ok {| secret := secret |}.

Definition random_nonce : M Z :=
  r <~ randbelow (Q - 1) ;; ret (r + 1).

Definition commit (self : SchnorrProver) : M SchnorrCommitment :=
  nonce <~ random_nonce ;;
  commitment <~ lift (pow G nonce P) ;;
  ret {| commitment := commitment; nonce := nonce |}.

(** The least magnitude of an [int] that [float] refuses (it would round
    to [2**1024]). *)
Definition float_overflow : Z := 2 ^ 1024 - 2 ^ 970.

(** [0 <= challenge < 2**CHALLENGE_BITS].  The bound is computed only once
    [0 <= challenge] holds.  With a negative exponent it is a float: the
    conversion of the exponent raises [OverflowError] when it is too large
    for a float; the power is 0.0 below [2**-1074], the least positive
    float, and lies in (0, 1) from there on. *)
Definition challenge_in_range (challenge : Z) : result bool :=
  if negb (0 <=? challenge) then Ok false
  else if 0 <=? CHALLENGE_BITS then Ok (challenge <? 2 ^ CHALLENGE_BITS)
  else if CHALLENGE_BITS <=? - float_overflow then Raise OverflowError
  else if CHALLENGE_BITS <? -1074 then Ok false
  else Ok (challenge =? 0).

Definition prove (self : SchnorrProver) (challenge : Z)
    (commitment : SchnorrCommitment) : result SchnorrProof :=
  in_range <- challenge_in_range challenge ;;
  if negb in_range then
    Raise (ValueError "Challenge outside of configured range")
  else
    response <- mod_ (nonce commitment + challenge * secret self) Q ;;
    Ok {| challenge := challenge; response := response |}.

(** [SchnorrVerifier.__init__]. *)
Definition SchnorrVerifier_init (public_key : Z) : result SchnorrVerifier :=
  if negb ((0 <? public_key) && (public_key <? P)) then
    Raise (ValueError "Invalid public key")
  else Ok {| public_key := public_key |}.

Definition random_challenge : M Z := randbits CHALLENGE_BITS.

Definition verify (self : SchnorrVerifier) (commitment_value : Z)
    (proof : SchnorrProof) : result bool :=
  left <- pow G (response proof) P ;;
  e <- pow (public_key self) (challenge proof) P ;;
  right <- mod_ (commitment_value * e) P ;;
  Ok (left =? right).

Definition generate_secret : M Z :=
  r <~ randbelow (Q - 1) ;; ret (r + 1).

Definition derive_public_key (secret : Z) : result Z :=
  if negb ((0 <? secret) && (secret <? Q)) then
    Raise (ValueError "Secret must lie in the multiplicative subgroup")
  else pow G secret P.

Definition run_single_round (secret public_key : Z)
  : M (bool * SchnorrProof * Z) :=
  prover <~ lift (SchnorrProver_init secret) ;;
  verifier <~ lift (SchnorrVerifier_init public_key) ;;
  com <~ commit prover ;;
  challenge <~ random_challenge ;;
  proof <~ lift (prove prover challenge com) ;;
  ok <~ lift (verify verifier (commitment com) proof) ;;
  ret (ok, proof, commitment com).

End Defs.
End Crypto.

(* ================================================================== *)
(** * [zkpauth/store.py] *)
(* ================================================================== *)

Module Store.
Section Defs.
Context `{Constants} `{Hashlib}.

(** One entry of the JSON file's ["users"] list, a [Dict[str, str]]: a key
    that is absent is [None] (for the three keys the code reads with
    [get], so is one that holds null). *)
Record RawUser : Type := {
  raw_credential_id : option string;
  raw_public_key : option string;
  raw_alias : option string;
  raw_username : option string
}.

(** The store, as the content [_load] reads back. *)
Definition UserStore : Type := list RawUser.

Record UserRecord : Type := {
  credential_id : string;
  public_key : Z;
  alias : option string
}.

(** [a or b] on optional text: an absent or empty [a] gives [b]. *)
Definition or_ (a b : option string) : option string :=
  match a with
  | Some EmptyString => b
  | Some _ => a
  | None => b
  end.

Definition _calculate_credential_id (public_key : Z) : result string :=
  let byte_length := Z.max 1 ((bit_length public_key + 7) / 8) in
  data <- to_bytes public_key byte_length ;;
  Ok (hexlify (sha256 data)).

Definition from_dict (data : RawUser) : result UserRecord :=
  let credential_id := raw_credential_id data in
  match raw_public_key data with
  | None => Raise KeyError
  | Some pk_hex =>
      public_key <- int16 pk_hex ;;
      let alias := or_ (raw_alias data) (raw_username data) in
      credential_id <-
        match credential_id with
        | None => _calculate_credential_id public_key
        | Some c => Ok c
        end ;;
      Ok {| credential_id := credential_id;
            public_key := public_key;
            alias := alias |}
  end.

Definition option_string_eqb (a : option string) (b : string) : bool :=
  match a with
  | Some a => String.eqb a b
  | None => false
  end.

Fixpoint get_by_alias (store : UserStore) (alias : string)
  : result (option UserRecord) :=
  match store with
  | [] => Ok None
  | raw_user :: rest =>
      let candidate_alias := or_ (raw_alias raw_user) (raw_username raw_user) in
      if option_string_eqb candidate_alias alias then
        r <- from_dict raw_user ;; Ok (Some r)
      else get_by_alias rest alias
  end.

Fixpoint get_by_credential (store : UserStore) (credential_id : string)
  : result (option UserRecord) :=
  match store with
  | [] => Ok None
  | raw_user :: rest =>
      stored_id <-
        match raw_credential_id raw_user, raw_public_key raw_user with
        | None, Some pk_hex =>
            pk <- int16 pk_hex ;;
            c <- _calculate_credential_id pk ;;
            Ok (Some c)
        | stored_id, _ => Ok stored_id
        end ;;
      if option_string_eqb stored_id credential_id then
        r <- from_dict raw_user ;; Ok (Some r)
      else get_by_credential rest credential_id
  end.

(** What [from_dict] makes of the alias [to_dict] wrote ([a or None]): the
    empty alias is no alias. *)
Definition stored_alias (a : option string) : option string := or_ a None.

(** [UserRecord.to_dict]: the key ["alias"] is written only for an alias
    that is not [None]. *)
Definition to_dict (self : UserRecord) : RawUser :=
  {| raw_credential_id := Some (credential_id self);
     raw_public_key := Some (hex (public_key self));
     raw_alias := alias self;
     raw_username := None |}.

(** [any((raw_user.get("alias") or raw_user.get("username")) == username
         for raw_user in payload.get("users", []))]. *)
Definition alias_exists (store : UserStore) (username : string) : bool :=
  existsb
    (fun raw_user =>
       option_string_eqb (or_ (raw_alias raw_user) (raw_username raw_user)) username)
    store.

(** [any(raw_user.get("credential_id") == credential_id for raw_user in ...)]. *)
Definition credential_exists (store : UserStore) (credential_id : string) : bool :=
  existsb
    (fun raw_user => option_string_eqb (raw_credential_id raw_user) credential_id)
    store.

(** [secret or generate_secret()]: a secret that is [None] or 0 is drawn
    afresh. *)
Definition secret_or_generate (secret : option Z) : M Z :=
  match secret with
  | Some 0 => Crypto.generate_secret
  | Some s => ret s
  | None => Crypto.generate_secret
  end.

(** [ValueError(f"Alias '{username}' already exists")]. *)
Definition alias_taken_error (username : string) : exn :=
  ValueError ("Alias '" ++ username ++ "' already exists")%string.

(** [UserStore.add_user]: the record, the secret, and the content [_save]
    has written ([_save] is not reached when the method raises). *)
Definition add_user (store : UserStore) (username : option string)
    (secret : option Z) : M (UserRecord * Z * UserStore) :=
  let payload := store in
  let register : M (UserRecord * Z * UserStore) :=
    secret_value <~ secret_or_generate secret ;;
    public_key <~ lift (Crypto.derive_public_key secret_value) ;;
    credential_id <~ lift (_calculate_credential_id public_key) ;;
    if credential_exists payload credential_id then
      lift (Raise (ValueError "Credential already registered"))
    else
      let record := {| credential_id := credential_id;
                       public_key := public_key;
                       alias := username |} in
      ret (record, secret_value, payload ++ [to_dict record]) in
  match username with
  | Some u =>
      if alias_exists payload u then
        lift (Raise (alias_taken_error u))
      else register
  | None => register
  end.

End Defs.
End Store.

(* ================================================================== *)
(** * [zkpauth/auth.py] *)
(* ================================================================== *)

Module Auth.
Section Defs.
Context `{Constants} `{Hashlib}.

(** One round, as [_serialize_round] renders it. *)
Record RoundTranscript : Type := {
  commitment : string;
  challenge : string;
  response : string
}.

(** The dictionary [authenticate] returns. *)
Record AuthResult : Type := {
  credential_id : string;
  alias : option string;
  rounds : list RoundTranscript;
  success : bool
}.

Definition _resolve_record (store : Store.UserStore) (identifier : string)
    (use_alias : bool) : result (option Store.UserRecord) :=
  if use_alias then Store.get_by_alias store identifier
  else Store.get_by_credential store identifier.

Definition _serialize_round (proof : Crypto.SchnorrProof) (commitment : Z)
  : RoundTranscript :=
  {| commitment := hex commitment;
     challenge := hex (Crypto.challenge proof);
     response := hex (Crypto.response proof) |}.

(** The body of [for _ in range(ROUNDS)], [n] iterations to go, over the
    two accumulators [transcripts] and [success_rounds]. *)
Fixpoint rounds_loop (n : nat) (secret public_key : Z)
    (transcripts : list RoundTranscript) (success_rounds : Z)
  : M (list RoundTranscript * Z) :=
  match n with
  | O => ret (transcripts, success_rounds)
  | S n' =>
      r <~ Crypto.run_single_round secret public_key ;;
      let '(ok, proof, commitment) := r in
      rounds_loop n' secret public_key
        (transcripts ++ [_serialize_round proof commitment])
        (if ok : bool then success_rounds + 1 else success_rounds)
  end.

Definition authenticate (store : Store.UserStore) (identifier : string)
    (secret : Z) (use_alias : bool) : M AuthResult :=
  record <~ lift (_resolve_record store identifier use_alias) ;;
  match record with
  | None => lift (Raise (ValueError "Unknown credential"))
  | Some record =>
      acc <~ rounds_loop (Z.to_nat ROUNDS) secret (Store.public_key record) [] 0 ;;
      let '(transcripts, success_rounds) := acc in
      ret {| credential_id := Store.credential_id record;
             alias := Store.alias record;
             rounds := transcripts;
             success := success_rounds =? ROUNDS |}
  end.

(** What the rounds of one login attempt returned, in order: the triples
    [run_single_round] hands back, [n] times over. *)
Fixpoint round_outcomes (n : nat) (secret public_key : Z)
  : M (list (bool * Crypto.SchnorrProof * Z)) :=
  match n with
  | O => ret []
  | S n' =>
      r <~ Crypto.run_single_round secret public_key ;;
      rs <~ round_outcomes n' secret public_key ;;
      ret (r :: rs)
  end.

(** The transcript of a round, and whether its [verify] returned [True]. *)
Definition transcript_of (o : bool * Crypto.SchnorrProof * Z) : RoundTranscript :=
  let '(_, proof, commitment) := o in _serialize_round proof commitment.

Definition verified (o : bool * Crypto.SchnorrProof * Z) : bool :=
  let '(ok, _, _) := o in ok.

(** The challenge of a round. *)
Definition round_challenge (o : bool * Crypto.SchnorrProof * Z) : Z :=
  let '(_, proof, _) := o in Crypto.challenge proof.

(** The dictionary [register_user] returns. *)
Record Registration : Type := {
  reg_credential_id : string;
  reg_alias : option string;
  reg_public_key : string;
  reg_secret : string
}.

Definition register_user (store : Store.UserStore) (alias : option string)
    (secret : option Z) : M (Registration * Store.UserStore) :=
  added <~ Store.add_user store alias secret ;;
  let '(record, secret_value, store') := added in
  ret ({| reg_credential_id := Store.credential_id record;
          reg_alias := Store.alias record;
          reg_public_key := hex (Store.public_key record);
          reg_secret := hex secret_value |}, store').

End Defs.
End Auth.

(* ================================================================== *)
(** * [zkpauth/richens.py] *)
(* ================================================================== *)

Module Richens.
Section Defs.
Context `{Constants} `{Hashlib}.

Definition _int_to_bytes (value : Z) : result bytes :=
  let length := Z.max 1 ((bit_length value + 7) / 8) in
  to_bytes value length.

Definition _derive_coefficients (essence : bytes) (context : string)
  : result (Z * Z * Z) :=
  let material := essence ++ encode_utf8 context in
  let stream := shake_256 material 96 in
  a <- mod_ (from_bytes (slice stream 0 32)) Q ;;
  b <- mod_ (from_bytes (slice stream 32 64)) Q ;;
  c <- mod_ (from_bytes (slice stream 64 96)) Q ;;
  Ok (a, b, c).

(** [for value in vector: hasher.update(_int_to_bytes(value))]. *)
Fixpoint update_each (hasher : Hasher) (vector : list Z) : result Hasher :=
  match vector with
  | [] => Ok hasher
  | value :: rest =>
      data <- _int_to_bytes value ;;
      update_each (update hasher data) rest
  end.

(** The hasher of [_compute_fingerprint] once every [update] is done. *)
Definition fingerprint_hasher (vector : list Z) (context : string)
  : result Hasher :=
  let hasher := blake2b_new 32 [] in
  hasher <- update_each hasher vector ;;
  Ok (update hasher (encode_utf8 context)).

Definition _compute_fingerprint (vector : list Z) (context : string)
  : result string :=
  hasher <- fingerprint_hasher vector context ;;
  Ok (hexdigest hasher).

Record RichensCapsule : Type := {
  vector : list Z;
  context : string;
  anchor : Z;
  fingerprint : string
}.

(** The capsule's external representation (the keys of the dictionary). *)
Record CapsuleDict : Type := {
  d_vector : list string;
  d_context : string;
  d_anchor : string;
  d_fingerprint : string
}.

Definition _derive_anchor (vector : list Z) : result Z :=
  v0 <- index vector 0 ;;
  p0 <- pow v0 2 P ;;
  v1 <- index vector 1 ;;
  p1 <- pow v1 3 P ;;
  v2 <- index vector 2 ;;
  p2 <- pow v2 5 P ;;
  mod_ (p0 * p1 * p2) P.

Definition to_dict (self : RichensCapsule) : CapsuleDict :=
  {| d_vector := map hex (vector self);
     d_context := context self;
     d_anchor := hex (anchor self);
     d_fingerprint := fingerprint self |}.

(** [tuple(int(value, 16) for value in vector_hex)]. *)
Fixpoint int16_each (vector_hex : list string) : result (list Z) :=
  match vector_hex with
  | [] => Ok []
  | value :: rest =>
      v <- int16 value ;;
      vs <- int16_each rest ;;
      Ok (v :: vs)
  end.

Definition anchor_mismatch : exn := ValueError "Capsule anchor mismatch".
Definition fingerprint_mismatch : exn := ValueError "Capsule fingerprint mismatch".

(** The two integrity checks at the end of [from_dict]. *)
Definition checked (capsule : RichensCapsule) : result RichensCapsule :=
  a <- _derive_anchor (vector capsule) ;;
  if negb (anchor capsule =? a) then Raise anchor_mismatch
  else
    f <- _compute_fingerprint (vector capsule) (context capsule) ;;
    if negb (String.eqb (fingerprint capsule) f) then Raise fingerprint_mismatch
    else Ok capsule.

Definition from_dict (data : CapsuleDict) : result RichensCapsule :=
  let vector_hex := d_vector data in
  let context := d_context data in
  let anchor_hex := d_anchor data in
  let fingerprint := d_fingerprint data in
  vector <- int16_each vector_hex ;;
  anchor <- int16 anchor_hex ;;
  let capsule := {| vector := vector; context := context;
                    anchor := anchor; fingerprint := fingerprint |} in
  checked capsule.

Definition persona (self : RichensCapsule) : string :=
  prefix 24 (fingerprint self).

Record RichensProof : Type := {
  response : Z;
  orbital : Z;
  parity : string
}.

Record ProofDict : Type := {
  d_response : string;
  d_orbital : string;
  d_parity : string
}.

Definition proof_to_dict (self : RichensProof) : ProofDict :=
  {| d_response := hex (response self);
     d_orbital := hex (orbital self);
     d_parity := parity self |}.

Definition proof_from_dict (data : ProofDict) : result RichensProof :=
  response <- int16 (d_response data) ;;
  orbital <- int16 (d_orbital data) ;;
  Ok {| response := response; orbital := orbital; parity := d_parity data |}.

Definition mint_capsule (essence : bytes) (context : string)
  : result RichensCapsule :=
  coefficients <- _derive_coefficients essence context ;;
  let '(a, b, c) := coefficients in
  v0 <- pow G a P ;;
  v1 <- pow G b P ;;
  v2 <- pow G c P ;;
  let vector := [v0; v1; v2] in
  anchor <- _derive_anchor vector ;;
  fingerprint <- _compute_fingerprint vector context ;;
  Ok {| vector := vector; context := context;
        anchor := anchor; fingerprint := fingerprint |}.

(** The [while True] loop of [issue_challenge], [fuel] samples at most:
    [None] when none of them was accepted. *)
Fixpoint issue_challenge_loop (fuel : nat) (size : Z) (r : Rng)
  : option (result (Z * Rng)) :=
  match fuel with
  | O => None
  | S fuel' =>
      match randbits size r with
      | Raise e => Some (Raise e)
      | Ok (candidate, r') =>
          if (0 <? candidate) && (candidate <? Q) then Some (Ok (candidate, r'))
          else issue_challenge_loop fuel' size r'
      end
  end.

Definition issue_challenge (fuel : nat) (bits : Z) (r : Rng)
  : option (result (Z * Rng)) :=
  let size := Z.min bits (bit_length Q) in
  issue_challenge_loop fuel size r.

(** The hasher whose digest is a proof's parity:
    [blake2b(_int_to_bytes(challenge_mod) + _int_to_bytes(orbital)
             + context.encode("utf-8"), digest_size=32)]. *)
Definition parity_hasher (challenge_mod orbital : Z) (context : string)
  : result Hasher :=
  c <- _int_to_bytes challenge_mod ;;
  o <- _int_to_bytes orbital ;;
  Ok (blake2b_new 32 (c ++ o ++ encode_utf8 context)).

Definition parity_of (challenge_mod orbital : Z) (context : string)
  : result string :=
  hasher <- parity_hasher challenge_mod orbital context ;;
  Ok (hexdigest hasher).

Definition respond_to_challenge (essence : bytes) (challenge : Z)
    (context : string) : result RichensProof :=
  coefficients <- _derive_coefficients essence context ;;
  let '(a, b, c) := coefficients in
  challenge_mod <- mod_ challenge Q ;;
  sq <- pow challenge_mod 2 Q ;;
  polynomial <- mod_ (a + b * challenge_mod + c * sq) Q ;;
  orbital <- pow G polynomial P ;;
  parity <- parity_of challenge_mod orbital context ;;
  Ok {| response := polynomial; orbital := orbital; parity := parity |}.

Definition verify_attestation (capsule : RichensCapsule) (challenge : Z)
    (proof : RichensProof) : result bool :=
  a <- _derive_anchor (vector capsule) ;;
  if negb (anchor capsule =? a) then Ok false
  else
    f <- _compute_fingerprint (vector capsule) (context capsule) ;;
    if negb (String.eqb (fingerprint capsule) f) then Ok false
    else
      challenge_mod <- mod_ challenge Q ;;
      v0 <- index (vector capsule) 0 ;;
      expected <- pow v0 1 P ;;
      v1 <- index (vector capsule) 1 ;;
      e1 <- pow v1 challenge_mod P ;;
      expected <- mod_ (expected * e1) P ;;
      v2 <- index (vector capsule) 2 ;;
      sq <- pow challenge_mod 2 Q ;;
      e2 <- pow v2 sq P ;;
      expected <- mod_ (expected * e2) P ;;
      left <- pow G (response proof) P ;;
      if negb (left =? orbital proof) then Ok false
      else if negb (orbital proof =? expected) then Ok false
      else
        expected_parity <- parity_of challenge_mod (orbital proof) (context capsule) ;;
        compare_digest (parity proof) expected_parity.

(** The capsule invariant of the specification: anchor and fingerprint
    are the values recomputed from vector and context. *)
Definition integrity (capsule : RichensCapsule) : Prop :=
  _derive_anchor (vector capsule) = Ok (anchor capsule)
  /\ _compute_fingerprint (vector capsule) (context capsule)
     = Ok (fingerprint capsule).

End Defs.
End Richens.

(* ================================================================== *)
(** * [zkpauth/server.py] *)
(* ================================================================== *)

Module Server.
Section Defs.
Context `{Constants} `{Hashlib}.

Record _SessionState : Type := {
  credential_id : string;
  commitment : Z;
  challenge : Z
}.

(** The dictionary [_SessionManager._sessions], as its items; a key occurs
    at most once, and the order of the items is not observed. *)
Definition Sessions : Type := list (string * _SessionState).

(** [d.get(k)]. *)
Definition get (d : Sessions) (k : string) : option _SessionState :=
  match find (fun kv => String.eqb (fst kv) k) d with
  | Some kv => Some (snd kv)
  | None => None
  end.

(** [d] without the key [k]. *)
Definition del (d : Sessions) (k : string) : Sessions :=
  filter (fun kv => negb (String.eqb (fst kv) k)) d.

(** [d[k] = v]. *)
Definition set (d : Sessions) (k : string) (v : _SessionState) : Sessions :=
  (k, v) :: del d k.

(** [_SessionManager.create]: the session id and the dictionary after. *)
Definition create (sessions : Sessions) (credential_id : string)
    (commitment challenge : Z) : M (string * Sessions) :=
  session_id <~ token_urlsafe 16 ;;
  ret (session_id,
       set sessions session_id
         {| credential_id := credential_id;
            commitment := commitment;
            challenge := challenge |}).

(** [_SessionManager.pop]: what it returns or raises, and the dictionary
    after. *)
Definition pop (sessions : Sessions) (session_id : string)
  : result _SessionState * Sessions :=
  match get sessions session_id with
  | None => (Raise KeyError, sessions)
  | Some state => (Ok state, del sessions session_id)
  end.

(** What an endpoint does: it returns its response model, raises an
    [HTTPException], or lets another exception through. *)
Inductive response (A : Type) : Type :=
| Reply (a : A)
| HTTPException (status_code : Z) (detail : string)
| Uncaught (e : exn).
Arguments Reply {A} a.
Arguments HTTPException {A} status_code detail.
Arguments Uncaught {A} e.

Record RegisterRequest : Type := {
  rq_alias : option string;
  rq_secret : option string
}.

Record RegisterResponse : Type := {
  rs_credential_id : string;
  rs_alias : option string;
  rs_public_key : string;
  rs_secret : string
}.

Record LoginStartRequest : Type := {
  lsq_credential_id : string;
  lsq_commitment : string
}.

Record LoginStartResponse : Type := {
  lss_session : string;
  lss_challenge : string
}.

Record LoginFinishRequest : Type := {
  lfq_session : string;
  lfq_response : string
}.

Record LoginFinishResponse : Type := { lfs_success : bool }.

(** [try: int(text, 16) except ValueError: raise HTTPException(400, detail)]. *)
Definition int16_or_400 (text detail : string) : response Z :=
  match int16 text with
  | Ok v => Reply v
  | Raise (ValueError _) => HTTPException 400 detail
  | Raise e => Uncaught e
  end.

(** [register], over the content of the store: the response, the content
    after and the entropy left. *)
Definition register (store : Store.UserStore) (request : RegisterRequest)
    (r : Rng) : response (RegisterResponse * Store.UserStore * Rng) :=
  let continue (secret_value : option Z) :=
    match Store.add_user store (rq_alias request) secret_value r with
    | Raise e => Uncaught e
    | Ok ((record, secret_int, store'), r') =>
        Reply ({| rs_credential_id := Store.credential_id record;
                  rs_alias := Store.alias record;
                  rs_public_key := hex (Store.public_key record);
                  rs_secret := hex secret_int |}, store', r')
    end in
  match rq_secret request with
  | None => continue None
  | Some EmptyString => continue None
  | Some secret =>
      match int16_or_400 secret "Secret must be hex encoded" with
      | Reply secret_value => continue (Some secret_value)
      | HTTPException c d => HTTPException c d
      | Uncaught e => Uncaught e
      end
  end.

(** [login_start]: the response, the sessions after and the entropy left
    (no session is created on a path that raises). *)
Definition login_start (store : Store.UserStore) (sessions : Sessions)
    (request : LoginStartRequest) (r : Rng)
  : response (LoginStartResponse * Sessions * Rng) :=
  match Store.get_by_credential store (lsq_credential_id request) with
  | Raise e => Uncaught e
  | Ok None => HTTPException 404 "Unknown credential"
  | Ok (Some record) =>
      match int16_or_400 (lsq_commitment request) "Commitment must be hex encoded" with
      | HTTPException c d => HTTPException c d
      | Uncaught e => Uncaught e
      | Reply commitment =>
          if commitment <=? 0 then HTTPException 400 "Invalid commitment"
          else
            match Crypto.SchnorrVerifier_init (Store.public_key record) with
            | Raise e => Uncaught e
            | Ok verifier =>
                match Crypto.random_challenge r with
                | Raise e => Uncaught e
                | Ok (challenge, r1) =>
                    match create sessions (Store.credential_id record)
                            commitment challenge r1 with
                    | Raise e => Uncaught e
                    | Ok ((session, sessions'), r2) =>
                        Reply ({| lss_session := session;
                                  lss_challenge := hex challenge |},
                               sessions', r2)
                    end
                end
            end
      end
  end.

(** [login_finish]: the response, and the sessions after (the session is
    popped before anything else is looked at). *)
Definition login_finish (store : Store.UserStore) (sessions : Sessions)
    (request : LoginFinishRequest) : response LoginFinishResponse * Sessions :=
  match pop sessions (lfq_session request) with
  | (Raise KeyError, sessions') => (HTTPException 404 "Unknown session", sessions')
  | (Raise e, sessions') => (Uncaught e, sessions')
  | (Ok state, sessions') =>
      match Store.get_by_credential store (credential_id state) with
      | Raise e => (Uncaught e, sessions')
      | Ok None => (HTTPException 404 "Unknown credential", sessions')
      | Ok (Some record) =>
          match int16_or_400 (lfq_response request) "Response must be hex encoded" with
          | HTTPException c d => (HTTPException c d, sessions')
          | Uncaught e => (Uncaught e, sessions')
          | Reply response_int =>
              let proof := {| Crypto.challenge := challenge state;
                              Crypto.response := response_int |} in
              match Crypto.SchnorrVerifier_init (Store.public_key record) with
              | Raise e => (Uncaught e, sessions')
              | Ok verifier =>
                  match Crypto.verify verifier (commitment state) proof with
                  | Raise e => (Uncaught e, sessions')
                  | Ok success => (Reply {| lfs_success := success |}, sessions')
                  end
              end
          end
      end
  end.

End Defs.

Arguments Reply {A} a.
Arguments HTTPException {A} status_code detail.
Arguments Uncaught {A} e.

End Server.

(* ================================================================== *)
(** * [zkp_auth.py] *)
(* ================================================================== *)

(** The four commands of [main], from the parsed arguments on: what
    [argparse] hands over is the input, the JSON text printed or written
    is the payload it encodes, and the capsule file is the JSON value read
    from it. *)
Module Cli.
Section Defs.
Context `{Constants} `{Hashlib}.

(** How a command ends: it prints its payload and returns 0; it complains
    on [stderr] and returns 1, either with a fixed message or, for a
    capsule that [from_dict] refuses with a [ValueError], with
    [f"Invalid capsule: {exc}"]; or an exception gets through. *)
Inductive run (A : Type) : Type :=
| Printed (payload : A)
| Failed (message : string)
| Invalid (exc : exn)
| Traceback (e : exn).
Arguments Printed {A} payload.
Arguments Failed {A} message.
Arguments Invalid {A} exc.
Arguments Traceback {A} e.

(** [int(namespace.secret, 16) if namespace.secret else None]. *)
Definition secret_value (secret : option string) : result (option Z) :=
  match secret with
  | None => Ok None
  | Some EmptyString => Ok None
  | Some text => v <- int16 text ;; Ok (Some v)
  end.

(** The command [register]: the payload printed, the store and the
    entropy after. *)
Definition register (store : Store.UserStore) (alias secret : option string)
    (r : Rng) : run (Auth.Registration * Store.UserStore * Rng) :=
  match secret_value secret with
  | Raise e => Traceback e
  | Ok secret_value =>
      match Auth.register_user store alias secret_value r with
      | Raise e => Traceback e
      | Ok ((payload, store'), r') => Printed (payload, store', r')
      end
  end.

(** The command [login]. *)
Definition login (store : Store.UserStore) (identifier secret : string)
    (by_alias : bool) (r : Rng) : run (Auth.AuthResult * Rng) :=
  match int16 secret with
  | Raise e => Traceback e
  | Ok secret_value =>
      match Auth.authenticate store identifier secret_value by_alias r with
      | Raise e => Traceback e
      | Ok (result, r') => Printed (result, r')
      end
  end.

(** The payload of [richens-mint]; with [--output], its capsule is also
    what the file holds. *)
Record MintPayload : Type := {
  capsule : Richens.CapsuleDict;
  persona : string;
  essence : string
}.

(** The command [richens-mint]. *)
Definition richens_mint (essence : option string) (context : string)
    (r : Rng) : run (MintPayload * Rng) :=
  let drawn : result (bytes * Rng) :=
    match essence with
    | None => token_bytes 32 r
    | Some EmptyString => token_bytes 32 r
    | Some text => bs <- fromhex text ;; Ok (bs, r)
    end in
  match drawn with
  | Raise e => Traceback e
  | Ok (essence, r') =>
      match Richens.mint_capsule essence context with
      | Raise e => Traceback e
      | Ok capsule =>
          Printed ({| capsule := Richens.to_dict capsule;
                      persona := Richens.persona capsule;
                      essence := hexlify essence |}, r')
      end
  end.

(** The JSON value of a capsule file: an object with the key ["vector"]
    (then read as the capsule itself, its other three keys being there),
    or else one with the key ["capsule"] (whose value is then read), or
    neither. *)
Inductive CapsuleFile : Type :=
| HasVector (capsule_data : Richens.CapsuleDict)
| HasCapsule (capsule_data : Richens.CapsuleDict)
| Neither.

(** The payload of [richens-login]. *)
Record LoginPayload : Type := {
  challenge : string;
  capsule_persona : string;
  proof : Richens.ProofDict;
  verified : bool
}.

(** What follows the check of the challenge in [richens-login]. *)
Definition attest (capsule : Richens.RichensCapsule) (challenge : Z)
    (essence : string) : result LoginPayload :=
  essence <- fromhex essence ;;
  proof <- Richens.respond_to_challenge essence challenge
             (Richens.context capsule) ;;
  verified <- Richens.verify_attestation capsule challenge proof ;;
  Ok {| challenge := hex challenge;
        capsule_persona := Richens.persona capsule;
        proof := Richens.proof_to_dict proof;
        verified := verified |}.

(** The command [richens-login], the loop of [issue_challenge] running for
    [fuel] samples at most ([None] when it has not ended by then). *)
Definition richens_login (capsule_payload : CapsuleFile) (essence : string)
    (challenge : option string) (fuel : nat) (r : Rng)
  : option (run LoginPayload * Rng) :=
  let continue (capsule_data : Richens.CapsuleDict) :=
    match Richens.from_dict capsule_data with
    | Raise (ValueError exc) => Some (Invalid (ValueError exc), r)
    | Raise e => Some (Traceback e, r)
    | Ok capsule =>
        let issued : option (result (Z * Rng)) :=
          match challenge with
          | None => Richens.issue_challenge fuel 192 r
          | Some EmptyString => Richens.issue_challenge fuel 192 r
          | Some text => Some (c <- int16 text ;; Ok (c, r))
          end in
        match issued with
        | None => None
        | Some (Raise e) => Some (Traceback e, r)
        | Some (Ok (challenge, r')) =>
            if challenge <=? 0 then
              Some (Failed "Challenge must be greater than zero", r')
            else
              match attest capsule challenge essence with
              | Raise e => Some (Traceback e, r')
              | Ok payload => Some (Printed payload, r')
              end
        end
    end in
  match capsule_payload with
  | HasVector capsule_data => continue capsule_data
  | HasCapsule capsule_data => continue capsule_data
  | Neither => Some (Failed "Capsule file is missing Richens data", r)
  end.

End Defs.

Arguments Printed {A} payload.
Arguments Failed {A} message.
Arguments Invalid {A} exc.
Arguments Traceback {A} e.

End Cli.

(* ================================================================== *)
(** * A small instance *)
(* ================================================================== *)

(** The subgroup of order 11 generated by 2 in the units modulo 23, with
    four challenge bits and three rounds; and stand-ins for the digests
    that can be evaluated: [shake_256] repeats its (marked) message up to
    the requested length, the other two return the message itself. *)
Module Small.

#[export] Instance constants : Constants :=
  {| P := 23; Q := 11; G := 2; CHALLENGE_BITS := 4; ROUNDS := 3 |}.

Fixpoint cycle (n : nat) (m : bytes) : bytes :=
  match n with
  | O => []
  | S n' => m ++ cycle n' m
  end.

#[export] Instance hashlib : Hashlib :=
  {| shake_256 := fun m n => firstn n (cycle n (m ++ [x01]));
     blake2b := fun _ m => m;
     sha256 := fun m => m |}.

Definition essence : bytes := [x7b; x8c; x08; xed; x08; xf2; xdf].

(** What [mint_capsule essence "test-context"] and
    [respond_to_challenge essence 5 "test-context"] evaluate to. *)
Definition capsule : Richens.RichensCapsule :=
  {| Richens.vector := [3; 2; 13];
     Richens.context := "test-context";
     Richens.anchor := 12;
     Richens.fingerprint := "03020d746573742d636f6e74657874" |}.

Definition proof : Richens.RichensProof :=
  {| Richens.response := 1;
     Richens.orbital := 2;
     Richens.parity := "0502746573742d636f6e74657874" |}.

Definition rng : Rng := {| tape := fun n => 7 * Z.of_nat n + 5; cursor := 0 |}.

Definition store : Store.UserStore :=
  [ {| Store.raw_credential_id := Some "id-1";
       Store.raw_public_key := Some "0x8";
       Store.raw_alias := Some "alice";
       Store.raw_username := None |} ].

(** The record of a second user, with the secret 4, and the store once
    that user is added. *)
Definition bob : Store.UserRecord :=
  {| Store.credential_id := "10"; Store.public_key := 16;
     Store.alias := Some "bob"%string |}.

Definition store_with_bob : Store.UserStore := store ++ [Store.to_dict bob].

Definition alice : Store.UserRecord :=
  {| Store.credential_id := "id-1"; Store.public_key := 8;
     Store.alias := Some "alice"%string |}.

End Small.

(* ================================================================== *)
(** * Evaluations *)
(* ================================================================== *)

Section Evaluations.
Import Small.

Example hex_255 : hex 255 = "0xff".
Proof. reflexivity. Qed.

Example hex_minus_1 : hex (-1) = "-0x1".
Proof. reflexivity. Qed.

Example int16_plain : int16 "ff" = Ok 255.
Proof. reflexivity. Qed.

Example int16_signed_spaced_underscored : int16 " -0x_1F_f " = Ok (-511).
Proof. reflexivity. Qed.

Example int16_upper_case_prefix : int16 "+0Xff" = Ok 255.
Proof. reflexivity. Qed.

Example int16_underscore_between_digits : int16 "0_f" = Ok 15.
Proof. reflexivity. Qed.

Example int16_space_after_sign : int16 "- 1" = Raise invalid_literal.
Proof. reflexivity. Qed.

Example int16_not_a_prefix : int16 "1x3" = Raise invalid_literal.
Proof. reflexivity. Qed.

Example int16_prefix_alone : int16 "0x" = Raise invalid_literal.
Proof. reflexivity. Qed.

Example int16_double_underscore : int16 "1__0" = Raise invalid_literal.
Proof. reflexivity. Qed.

Example int16_not_a_digit : int16 "0x1g" = Raise invalid_literal.
Proof. reflexivity. Qed.

Example pow_inverse : pow 2 (-1) 23 = Ok 12.
Proof. reflexivity. Qed.

Example pow_negative_modulus : pow 3 (-2) (-7) = Ok (-3).
Proof. reflexivity. Qed.

Example pow_not_invertible :
  pow 4 (-1) 6 = Raise (ValueError "base is not invertible for the given modulus").
Proof. reflexivity. Qed.

Example int_to_bytes_0 : Richens._int_to_bytes 0 = Ok [x00].
Proof. reflexivity. Qed.

Example int_to_bytes_256 : Richens._int_to_bytes 256 = Ok [x01; x00].
Proof. reflexivity. Qed.

Example int_to_bytes_negative : Richens._int_to_bytes (-1) = Raise OverflowError.
Proof. reflexivity. Qed.

Example from_bytes_2 : from_bytes [x01; x02] = 258.
Proof. reflexivity. Qed.

Example compare_digest_not_ascii :
  compare_digest (String (ascii_of_nat 195) (String (ascii_of_nat 169) "")) "ab"
  = Raise TypeError.
Proof. reflexivity. Qed.

Example small_coefficients :
  Richens._derive_coefficients Small.essence "test-context" = Ok (8, 1, 7).
Proof. reflexivity. Qed.

Example small_mint :
  Richens.mint_capsule Small.essence "test-context" = Ok Small.capsule.
Proof. reflexivity. Qed.

Example small_to_dict :
  Richens.to_dict Small.capsule
  = {| Richens.d_vector := ["0x3"; "0x2"; "0xd"]%string;
       Richens.d_context := "test-context";
       Richens.d_anchor := "0xc";
       Richens.d_fingerprint := "03020d746573742d636f6e74657874" |}.
Proof. reflexivity. Qed.

Example small_respond :
  Richens.respond_to_challenge Small.essence 5 "test-context" = Ok Small.proof.
Proof. reflexivity. Qed.

Example small_verify : Richens.verify_attestation Small.capsule 5 Small.proof = Ok true.
Proof. reflexivity. Qed.

Example small_verify_other_challenge :
  Richens.verify_attestation Small.capsule 6 Small.proof = Ok false.
Proof. reflexivity. Qed.

(** A parity that is not ASCII text makes [compare_digest] raise. *)
Example small_verify_parity_not_ascii :
  Richens.verify_attestation Small.capsule 5
    {| Richens.response := 1; Richens.orbital := 2;
       Richens.parity := String (ascii_of_nat 195) (String (ascii_of_nat 169) "") |}
  = Raise TypeError.
Proof. reflexivity. Qed.

(** A letter digit in the other case denotes the same number. *)
Example small_from_dict_upper_case :
  Richens.from_dict
    {| Richens.d_vector := ["0x3"; "0x2"; "0xD"]%string;
       Richens.d_context := "test-context";
       Richens.d_anchor := "0xc";
       Richens.d_fingerprint := "03020d746573742d636f6e74657874" |}
  = Ok Small.capsule.
Proof. reflexivity. Qed.

Example small_from_dict_short_vector :
  Richens.from_dict
    {| Richens.d_vector := ["0x3"; "0x2"]%string;
       Richens.d_context := "test-context";
       Richens.d_anchor := "0xc";
       Richens.d_fingerprint := "03020d746573742d636f6e74657874" |}
  = Raise IndexError.
Proof. reflexivity. Qed.

Example small_persona : Richens.persona Small.capsule = "03020d746573742d636f6e74".
Proof. reflexivity. Qed.

(** Three characters of a text whose second and third take two and three
    bytes: six bytes of the encoding. *)
Example prefix_counts_characters :
  prefix 3
    (String "0" (String (ascii_of_nat 195) (String (ascii_of_nat 169)
       (String (ascii_of_nat 226) (String (ascii_of_nat 130)
          (String (ascii_of_nat 172) "x"))))))
  = String "0" (String (ascii_of_nat 195) (String (ascii_of_nat 169)
       (String (ascii_of_nat 226) (String (ascii_of_nat 130)
          (String (ascii_of_nat 172) ""))))).
Proof. reflexivity. Qed.

(** No bits requested: every candidate is 0 and the loop goes on. *)
Example small_issue_challenge_0_bits :
  Richens.issue_challenge 50 0 Small.rng = None.
Proof. reflexivity. Qed.

Example small_issue_challenge_negative_bits :
  Richens.issue_challenge 50 (-1) Small.rng
  = Some (Raise (ValueError "number of bits must be non-negative")).
Proof. reflexivity. Qed.

Example small_round :
  option_map fst
    (match Crypto.run_single_round 3 8 Small.rng with
     | Ok x => Some x
     | Raise _ => None
     end)
  = Some (true, {| Crypto.challenge := 12; Crypto.response := 9 |}, 18).
Proof. reflexivity. Qed.

(** The wrong secret for the stored key: the rounds run and fail. *)
Example small_authenticate_wrong_secret :
  option_map (fun x => Auth.success (fst x))
    (match Auth.authenticate Small.store "alice" 4 true Small.rng with
     | Ok x => Some x
     | Raise _ => None
     end)
  = Some false.
Proof. reflexivity. Qed.

Example small_authenticate_unknown :
  Auth.authenticate Small.store "bob" 3 true Small.rng
  = Raise (ValueError "Unknown credential").
Proof. reflexivity. Qed.

End Evaluations.

(* ================================================================== *)
(** * Facts about the built-ins *)
(* ================================================================== *)

Section BuiltinFacts.

Lemma bind_Ok {A B} (r : result A) (k : A -> result B) (b : B) :
  bind r k = Ok b -> exists a, r = Ok a /\ k a = Ok b.
Proof.
  destruct r as [a|e]; simpl; intros E; [eauto | discriminate].
Qed.

Lemma mod_Ok (a m : Z) : m <> 0 -> mod_ a m = Ok (a mod m).
Proof.
  intros Hm. unfold mod_. destruct (Z.eqb_spec m 0); [contradiction | reflexivity].
Qed.

Lemma pow_Ok (b e m : Z) : m <> 0 -> 0 <= e -> pow b e m = Ok (b ^ e mod m).
Proof.
  intros Hm He. unfold pow.
  destruct (Z.eqb_spec m 0); [contradiction|].
  destruct (Z.ltb_spec e 0); [lia | reflexivity].
Qed.

(** A successful [pow] lands in the residues of a positive modulus. *)
Lemma pow_range (b e m v : Z) : 0 < m -> pow b e m = Ok v -> 0 <= v < m.
Proof.
  intros Hm. unfold pow.
  destruct (m =? 0); [discriminate|].
  destruct (e <? 0).
  - destruct (Z.gcd b m =? 1); [|discriminate].
    intros [= <-]. apply Z.mod_pos_bound; lia.
  - intros [= <-]. apply Z.mod_pos_bound; lia.
Qed.

Lemma Z_of_byte_range (b : byte) : 0 <= Z_of_byte b < 256.
Proof.
  unfold Z_of_byte. pose proof (Byte.to_N_bounded b). lia.
Qed.

Lemma Z_of_byte_of_Z (z : Z) : Z_of_byte (byte_of_Z z) = z mod 256.
Proof.
  unfold Z_of_byte, byte_of_Z.
  pose proof (Z.mod_pos_bound z 256 ltac:(lia)) as Hr.
  destruct (Byte.of_N (Z.to_N (z mod 256))) as [b|] eqn:E.
  - apply Byte.to_of_N in E. rewrite E. lia.
  - apply Byte.of_N_None_iff in E. lia.
Qed.

Lemma from_bytes_snoc (bs : bytes) (b : byte) :
  from_bytes (bs ++ [b]) = from_bytes bs * 256 + Z_of_byte b.
Proof.
  unfold from_bytes. now rewrite fold_left_app.
Qed.

Lemma from_bytes_be_bytes (len : nat) :
  forall v, 0 <= v < 256 ^ Z.of_nat len -> from_bytes (be_bytes len v) = v.
Proof.
  induction len as [|len IH]; intros v Hv.
  - simpl in *. unfold from_bytes. simpl. lia.
  - cbn [be_bytes]. rewrite from_bytes_snoc, Z_of_byte_of_Z, IH.
    + pose proof (Z.div_mod v 256 ltac:(lia)). lia.
    + rewrite Nat2Z.inj_succ, Z.pow_succ_r in Hv by lia.
      split; [apply Z.div_pos; lia | apply Z.div_lt_upper_bound; lia].
Qed.

(** Big-endian encoding can be read back: [to_bytes] is injective. *)
Lemma from_bytes_to_bytes (v length : Z) (bs : bytes) :
  to_bytes v length = Ok bs -> from_bytes bs = v.
Proof.
  unfold to_bytes.
  destruct (Z.ltb_spec length 0); [discriminate|].
  destruct (Z.ltb_spec v 0); [discriminate|].
  destruct (Z.leb_spec (256 ^ length) v); [discriminate|].
  intros [= <-]. apply from_bytes_be_bytes.
  rewrite Z2Nat.id by lia. lia.
Qed.

Lemma bit_length_bound (v : Z) : 0 <= v -> v < 2 ^ bit_length v.
Proof.
  intros Hv. unfold bit_length.
  destruct (Z.eqb_spec v 0) as [->|Hne]; [reflexivity|].
  rewrite Z.abs_eq by lia.
  pose proof (Z.log2_spec v ltac:(lia)) as Hs.
  unfold Z.succ in Hs. lia.
Qed.

Lemma bit_length_nonneg (v : Z) : 0 <= bit_length v.
Proof.
  unfold bit_length. destruct (v =? 0); [lia|].
  pose proof (Z.log2_nonneg (Z.abs v)). lia.
Qed.

(** The byte count [_int_to_bytes] (and [_calculate_credential_id]) picks
    is always enough for a non-negative value. *)
Lemma to_bytes_minimal_Ok (v : Z) :
  0 <= v ->
  exists bs, to_bytes v (Z.max 1 ((bit_length v + 7) / 8)) = Ok bs
             /\ from_bytes bs = v.
Proof.
  intros Hv.
  set (n := Z.max 1 ((bit_length v + 7) / 8)).
  assert (Hn : 0 <= n) by (unfold n; lia).
  assert (Hlt : v < 256 ^ n).
  { pose proof (bit_length_bound v Hv) as Hb.
    pose proof (bit_length_nonneg v) as Hbl.
    assert (bit_length v <= 8 * n).
    { unfold n.
      pose proof (Z.div_mod (bit_length v + 7) 8 ltac:(lia)).
      pose proof (Z.mod_pos_bound (bit_length v + 7) 8 ltac:(lia)). lia. }
    replace 256 with (2 ^ 8) by reflexivity.
    rewrite <- Z.pow_mul_r by lia.
    eapply Z.lt_le_trans; [exact Hb|].
    apply Z.pow_le_mono_r; lia. }
  assert (E : to_bytes v n = Ok (be_bytes (Z.to_nat n) v)).
  { unfold to_bytes.
    destruct (Z.ltb_spec n 0); [lia|].
    destruct (Z.ltb_spec v 0); [lia|].
    destruct (Z.leb_spec (256 ^ n) v); [lia | reflexivity]. }
  exists (be_bytes (Z.to_nat n) v). split; [exact E|].
  eapply from_bytes_to_bytes; exact E.
Qed.

(** ** Hexadecimal text *)

Lemma digit16_hex_digit (n : N) : (n < 16)%N -> digit16 (hex_digit n) = Some n.
Proof.
  intros Hn.
  destruct n as [|p]; [reflexivity|].
  do 4 (try destruct p as [p|p|]); try reflexivity; lia.
Qed.

Lemma hex_digit_ascii (n : N) : (N_of_ascii (hex_digit n) <? 128)%N = true.
Proof.
  destruct n as [|p]; [reflexivity|].
  do 4 (try destruct p as [p|p|]); reflexivity.
Qed.

Lemma to_N_inj (b1 b2 : byte) : Byte.to_N b1 = Byte.to_N b2 -> b1 = b2.
Proof.
  intros E. pose proof (Byte.of_to_N b1) as E1. pose proof (Byte.of_to_N b2) as E2.
  rewrite E in E1. congruence.
Qed.

Lemma hexlify_inj (bs1 : bytes) :
  forall bs2, hexlify bs1 = hexlify bs2 -> bs1 = bs2.
Proof.
  induction bs1 as [|b1 bs1 IH]; intros [|b2 bs2]; simpl; try discriminate; auto.
  intros [= Hhi Hlo Hrest].
  pose proof (Byte.to_N_bounded b1) as B1. pose proof (Byte.to_N_bounded b2) as B2.
  assert (Q1 : (Byte.to_N b1 / 16 < 16)%N) by (apply N.Div0.div_lt_upper_bound; lia).
  assert (Q2 : (Byte.to_N b2 / 16 < 16)%N) by (apply N.Div0.div_lt_upper_bound; lia).
  assert (R1 : (Byte.to_N b1 mod 16 < 16)%N) by (apply N.mod_lt; lia).
  assert (R2 : (Byte.to_N b2 mod 16 < 16)%N) by (apply N.mod_lt; lia).
  apply (f_equal digit16) in Hhi, Hlo.
  rewrite !digit16_hex_digit in Hhi, Hlo by assumption.
  injection Hhi as Hhi. injection Hlo as Hlo.
  f_equal; [|now apply IH].
  apply to_N_inj.
  rewrite (N.div_mod (Byte.to_N b1) 16), (N.div_mod (Byte.to_N b2) 16) by lia.
  now rewrite Hhi, Hlo.
Qed.

Lemma hexlify_is_ascii (bs : bytes) : is_ascii (hexlify bs) = true.
Proof.
  unfold is_ascii. induction bs as [|b bs IH]; [reflexivity|].
  cbn [hexlify list_ascii_of_string forallb].
  now rewrite !hex_digit_ascii, IH.
Qed.

Lemma digit_not_underscore (c : ascii) :
  digit16 c <> None -> is_underscore c = false.
Proof.
  intros Hd. unfold is_underscore.
  destruct (Ascii.eqb_spec c "_") as [->|]; [|reflexivity].
  exfalso. apply Hd. reflexivity.
Qed.

Lemma scan16_hex (l : list ascii) :
  forall n acc, all_hex l ->
  scan16 l false n acc
  = Some (HexString.Raw.to_N (string_of_list_ascii l) acc, (n + List.length l)%nat, false, []).
Proof.
  induction l as [|c l IH]; intros n acc Hl.
  - simpl. now rewrite Nat.add_0_r.
  - inversion Hl as [|? ? Hc Hl']; subst.
    cbn [scan16 string_of_list_ascii HexString.Raw.to_N List.length].
    rewrite (digit_not_underscore c Hc).
    unfold digit16 in *.
    destruct (HexString.ascii_to_digit c) as [d|]; [|contradiction].
    rewrite IH by assumption. now rewrite Nat.add_succ_r.
Qed.

(** [int(s, 16)] on a prefixed, non-empty run of digits: no white space to
    strip, no underscore to skip. *)
Lemma int16_digits (neg : bool) (ds : list ascii) :
  all_hex ds -> ds <> [] ->
  int16 ((if neg then String "-" else fun s => s)
           (String "0" (String "x" (string_of_list_ascii ds))))
  = Ok (let v := Z.of_N (HexString.Raw.to_N (string_of_list_ascii ds) 0) in
        if neg then - v else v).
Proof.
  intros Hds Hne.
  destruct ds as [|c ds]; [contradiction|].
  inversion Hds as [|? ? Hc Hds']; subst.
  pose proof (digit_not_underscore c Hc) as Hus.
  unfold int16.
  destruct neg;
    cbn -[is_underscore scan16 Z.of_N HexString.Raw.to_N lstrip string_of_list_ascii];
    rewrite list_ascii_of_string_of_list_ascii;
    cbn -[is_underscore scan16 Z.of_N HexString.Raw.to_N string_of_list_ascii];
    rewrite Hus, (scan16_hex (c :: ds) 0 0%N Hds);
    rewrite Hus; reflexivity.
Qed.

Lemma of_pos_all_hex (p : positive) :
  forall rest, all_hex (list_ascii_of_string rest) ->
  all_hex (list_ascii_of_string (HexString.Raw.of_pos p rest)).
Proof.
  induction p as [p IH] using (well_founded_induction
    (well_founded_ltof _ (fun p => Pos.to_nat p))). unfold ltof in IH.
  intros rest Hrest.
  assert (Hcons : forall c, digit16 c <> None ->
            all_hex (list_ascii_of_string (String c rest))).
  { intros c Hc. constructor; assumption. }
  do 4 (try destruct p as [p|p|]);
    cbn [HexString.Raw.of_pos];
    try (apply IH; [lia|]); apply Hcons; cbv; discriminate.
Qed.

Lemma of_pos_digits (p : positive) :
  exists ds, string_of_list_ascii ds = HexString.Raw.of_pos p ""
             /\ all_hex ds /\ ds <> []
             /\ HexString.Raw.to_N (string_of_list_ascii ds) 0 = Npos p.
Proof.
  exists (list_ascii_of_string (HexString.Raw.of_pos p "")).
  rewrite string_of_list_ascii_of_string.
  pose proof (HexString.Raw.to_N_of_pos p "" 0%N) as Hv. cbn in Hv.
  repeat split; auto.
  - apply of_pos_all_hex. constructor.
  - intros E. apply (f_equal string_of_list_ascii) in E.
    rewrite string_of_list_ascii_of_string in E. rewrite E in Hv. discriminate.
Qed.

(** What [hex] writes, [int(_, 16)] reads back. *)
Lemma int16_hex (z : Z) : int16 (hex z) = Ok z.
Proof.
  destruct z as [|p|p]; [reflexivity| |].
  - destruct (of_pos_digits p) as (ds & Es & Hh & Hne & Hv).
    pose proof (int16_digits false ds Hh Hne) as E.
    cbv beta iota zeta in E. rewrite Hv, Es in E. exact E.
  - destruct (of_pos_digits p) as (ds & Es & Hh & Hne & Hv).
    pose proof (int16_digits true ds Hh Hne) as E.
    cbv beta iota zeta in E. rewrite Hv, Es in E. exact E.
Qed.

(** ** Positional notation *)

Lemma to_N_app (l1 l2 : list ascii) :
  forall acc,
  HexString.Raw.to_N (string_of_list_ascii (l1 ++ l2)) acc
  = HexString.Raw.to_N (string_of_list_ascii l2)
      (HexString.Raw.to_N (string_of_list_ascii l1) acc).
Proof.
  induction l1 as [|c l1 IH]; intros acc; [reflexivity|].
  cbn [app string_of_list_ascii HexString.Raw.to_N]. apply IH.
Qed.

Lemma to_N_acc_inj (l : list ascii) :
  all_hex l ->
  forall a1 a2,
  HexString.Raw.to_N (string_of_list_ascii l) a1
  = HexString.Raw.to_N (string_of_list_ascii l) a2 -> a1 = a2.
Proof.
  induction 1 as [|c l Hc _ IH]; intros a1 a2 E; [exact E|].
  cbn [string_of_list_ascii HexString.Raw.to_N] in E.
  unfold digit16 in Hc.
  destruct (HexString.ascii_to_digit c) as [d|]; [|contradiction].
  apply IH in E. lia.
Qed.

(** Replacing one digit by a digit of another value changes the number. *)
Lemma altered_digit_changes_value (pre post : list ascii) (c c' : ascii) (d d' : N) :
  all_hex post -> digit16 c = Some d -> digit16 c' = Some d' -> d <> d' ->
  HexString.Raw.to_N (string_of_list_ascii (pre ++ c :: post)) 0
  <> HexString.Raw.to_N (string_of_list_ascii (pre ++ c' :: post)) 0.
Proof.
  intros Hpost Hc Hc' Hd E.
  rewrite !to_N_app in E.
  cbn [string_of_list_ascii HexString.Raw.to_N] in E.
  unfold digit16 in Hc, Hc'. rewrite Hc, Hc' in E.
  apply to_N_acc_inj in E; [lia | assumption].
Qed.

Lemma string_of_list_ascii_inj (l1 l2 : list ascii) :
  string_of_list_ascii l1 = string_of_list_ascii l2 -> l1 = l2.
Proof.
  intros E. apply (f_equal list_ascii_of_string) in E.
  now rewrite !list_ascii_of_string_of_list_ascii in E.
Qed.

(** The digits [hex] writes for a non-negative number. *)
Lemma hex_digits (v : Z) :
  0 <= v ->
  exists ds,
    hex v = String "0" (String "x" (string_of_list_ascii ds))
    /\ all_hex ds /\ ds <> []
    /\ Z.of_N (HexString.Raw.to_N (string_of_list_ascii ds) 0) = v.
Proof.
  intros Hv. destruct v as [|p|p]; [| |lia].
  - exists ["0"%char]. repeat split; try reflexivity; try discriminate.
    repeat constructor. discriminate.
  - destruct (of_pos_digits p) as (ds & Es & Hh & Hne & Ev).
    exists ds. repeat split; auto.
    + unfold hex, HexString.of_Z, HexString.of_pos. now rewrite Es.
    + now rewrite Ev.
Qed.

End BuiltinFacts.

(* ================================================================== *)
(** * Arithmetic in the subgroup generated by [G] *)
(* ================================================================== *)

Section GroupFacts.
Context `{Constants}.

Lemma pow_mod_order (g q p e : Z) :
  0 < p -> 0 < q -> 0 <= e -> g ^ q mod p = 1 mod p ->
  g ^ (e mod q) mod p = g ^ e mod p.
Proof.
  intros Hp Hq He Hord.
  rewrite (Z.div_mod e q) at 2 by lia.
  assert (0 <= e / q) by (apply Z.div_pos; lia).
  assert (0 <= e mod q) by (apply Z.mod_pos_bound; lia).
  rewrite Z.pow_add_r, Z.pow_mul_r by lia.
  rewrite Z.mul_mod by lia.
  rewrite (Zpower_mod (g ^ q)) by lia.
  rewrite Hord, <- Zpower_mod by lia.
  rewrite Z.pow_1_l by lia.
  rewrite <- Z.mul_mod by lia.
  now rewrite Z.mul_1_l.
Qed.

Lemma pow_pow_mod (g a t p : Z) :
  0 < p -> 0 <= a -> 0 <= t -> (g ^ a mod p) ^ t mod p = g ^ (a * t) mod p.
Proof.
  intros. rewrite <- Zpower_mod by lia. now rewrite Z.pow_mul_r by lia.
Qed.

Lemma group_ok_P : group_ok -> 2 < P.
Proof. unfold group_ok. lia. Qed.

Lemma group_ok_Q : group_ok -> 0 < Q.
Proof. unfold group_ok. lia. Qed.

Lemma group_ok_order : group_ok -> G ^ Q mod P = 1 mod P.
Proof.
  intros Hg. pose proof (group_ok_P Hg).
  destruct Hg as (_ & _ & _ & ->). now rewrite Z.mod_1_l by lia.
Qed.

(** Exponents of [G] count modulo [Q]. *)
Lemma G_pow_mod_Q (e : Z) :
  group_ok -> 0 <= e -> G ^ (e mod Q) mod P = G ^ e mod P.
Proof.
  intros Hg He. apply pow_mod_order; auto using group_ok_order, group_ok_Q.
  pose proof (group_ok_P Hg). lia.
Qed.

(** No power of [G] vanishes modulo [P]. *)
Lemma G_pow_nonzero (e : Z) : group_ok -> 0 <= e -> 0 < G ^ e mod P.
Proof.
  intros Hg He.
  pose proof (group_ok_P Hg) as HP. pose proof (group_ok_Q Hg) as HQ.
  assert (Hb : 0 <= G ^ e mod P < P) by (apply Z.mod_pos_bound; lia).
  destruct (Z.eq_dec (G ^ e mod P) 0) as [E|]; [exfalso|lia].
  assert (E1 : G ^ (e * Q) mod P = 1).
  { rewrite Z.mul_comm, Z.pow_mul_r, Zpower_mod by lia.
    rewrite (group_ok_order Hg), <- Zpower_mod, Z.pow_1_l by lia.
    apply Z.mod_1_l; lia. }
  rewrite Z.pow_mul_r, Zpower_mod, E in E1 by lia.
  rewrite Z.pow_0_l, Z.mod_0_l in E1 by lia. discriminate.
Qed.

(** The exponent homomorphism behind [verify_attestation]:
    [G^a * (G^b)^t * (G^c)^s = G^(a + b t + c s)], with the exponent
    reduced modulo [Q] on the responder's side. *)
Lemma richens_homomorphism (a b c t s : Z) :
  group_ok -> 0 <= a -> 0 <= b -> 0 <= c -> 0 <= t -> 0 <= s ->
  ((G ^ a mod P) ^ 1 mod P * ((G ^ b mod P) ^ t mod P) mod P
   * ((G ^ c mod P) ^ s mod P)) mod P
  = G ^ ((a + b * t + c * s) mod Q) mod P.
Proof.
  intros Hg Ha Hb Hc Ht Hs.
  pose proof (group_ok_P Hg) as HP.
  rewrite !pow_pow_mod by lia.
  rewrite <- (Z.mul_mod (G ^ (a * 1)) (G ^ (b * t))) by lia.
  rewrite <- Z.mul_mod by lia.
  rewrite <- !Z.pow_add_r by nia.
  rewrite Z.mul_1_r.
  symmetry. apply G_pow_mod_Q; [assumption | nia].
Qed.

(** The Schnorr identity: [G^(n + c x) = G^n * (G^x)^c], the exponent
    reduced modulo [Q] by the prover. *)
Lemma schnorr_identity (n c x : Z) :
  group_ok -> 0 <= n -> 0 <= c -> 0 <= x ->
  G ^ ((n + c * x) mod Q) mod P
  = (G ^ n mod P * ((G ^ x mod P) ^ c mod P)) mod P.
Proof.
  intros Hg Hn Hc Hx.
  pose proof (group_ok_P Hg) as HP.
  rewrite G_pow_mod_Q by (auto; nia).
  rewrite pow_pow_mod by lia.
  rewrite <- Z.mul_mod by lia.
  rewrite <- Z.pow_add_r by nia.
  f_equal. f_equal. lia.
Qed.

End GroupFacts.

(* ================================================================== *)
(** * The Richens method: capsule, response, verification *)
(* ================================================================== *)

Section RichensFacts.
Context `{Constants} `{Hashlib}.
Import Richens.

Lemma int_to_bytes_Ok (v : Z) :
  0 <= v -> exists bs, _int_to_bytes v = Ok bs /\ from_bytes bs = v.
Proof. apply to_bytes_minimal_Ok. Qed.

Lemma int_to_bytes_inj (x y : Z) (bs : bytes) :
  _int_to_bytes x = Ok bs -> _int_to_bytes y = Ok bs -> x = y.
Proof.
  unfold _int_to_bytes. intros Ex Ey.
  apply from_bytes_to_bytes in Ex, Ey. congruence.
Qed.

Lemma int_to_bytes_nonneg (x : Z) (bs : bytes) :
  _int_to_bytes x = Ok bs -> 0 <= x.
Proof.
  unfold _int_to_bytes, to_bytes.
  destruct (Z.max 1 ((bit_length x + 7) / 8) <? 0); [discriminate|].
  destruct (Z.ltb_spec x 0); [discriminate | lia].
Qed.

(** What [update_each] has fed: the encodings of the values, in order. *)
Lemma update_each_Ok (vector : list Z) :
  forall hasher hasher',
  update_each hasher vector = Ok hasher' ->
  exists chunks,
    Forall2 (fun v bs => _int_to_bytes v = Ok bs) vector chunks
    /\ hasher' = {| digest_size := digest_size hasher;
                    fed := fed hasher ++ List.concat chunks |}.
Proof.
  induction vector as [|v vector IH]; intros hasher hasher' E.
  - injection E as <-. exists []. split; [constructor|].
    destruct hasher; simpl. now rewrite app_nil_r.
  - cbn [update_each] in E. apply bind_Ok in E as (bs & Ebs & E).
    apply IH in E as (chunks & Hall & ->).
    exists (bs :: chunks). split; [now constructor|].
    simpl. now rewrite <- app_assoc.
Qed.

Lemma update_each_total (vector : list Z) :
  Forall (fun v => 0 <= v) vector ->
  forall hasher, exists hasher', update_each hasher vector = Ok hasher'.
Proof.
  induction 1 as [|v vector Hv _ IH]; intros hasher.
  - now exists hasher.
  - destruct (int_to_bytes_Ok v Hv) as (bs & Ebs & _).
    cbn [update_each]. rewrite Ebs. cbn [bind]. apply IH.
Qed.

Lemma compute_fingerprint_total (vector : list Z) (context : string) :
  Forall (fun v => 0 <= v) vector ->
  exists f, _compute_fingerprint vector context = Ok f.
Proof.
  intros Hv. unfold _compute_fingerprint, fingerprint_hasher.
  destruct (update_each_total vector Hv (blake2b_new 32 [])) as (h & ->).
  cbn [bind]. eauto.
Qed.

Lemma derive_coefficients_Ok (essence : bytes) (context : string) :
  0 < Q ->
  exists a b c,
    _derive_coefficients essence context = Ok (a, b, c)
    /\ 0 <= a < Q /\ 0 <= b < Q /\ 0 <= c < Q.
Proof.
  intros HQ. unfold _derive_coefficients.
  rewrite !mod_Ok by lia. cbn [bind].
  do 3 eexists. split; [reflexivity|].
  repeat split; apply Z.mod_pos_bound; lia.
Qed.

Lemma derive_anchor_triple (v0 v1 v2 : Z) :
  P <> 0 ->
  _derive_anchor [v0; v1; v2]
  = Ok ((v0 ^ 2 mod P * (v1 ^ 3 mod P) * (v2 ^ 5 mod P)) mod P).
Proof.
  intros HP. unfold _derive_anchor, index. cbn [nth_error bind].
  rewrite !pow_Ok by lia. cbn [bind]. now rewrite mod_Ok.
Qed.

(** [mint_capsule] never raises, and what it returns has the vector
    [G^a, G^b, G^c] and satisfies the invariant. *)
Lemma mint_capsule_Ok (essence : bytes) (context : string) :
  0 < P -> 0 < Q ->
  exists a b c capsule,
    _derive_coefficients essence context = Ok (a, b, c)
    /\ 0 <= a < Q /\ 0 <= b < Q /\ 0 <= c < Q
    /\ mint_capsule essence context = Ok capsule
    /\ vector capsule = [G ^ a mod P; G ^ b mod P; G ^ c mod P]
    /\ Richens.context capsule = context
    /\ integrity capsule.
Proof.
  intros HP HQ.
  destruct (derive_coefficients_Ok essence context HQ)
    as (a & b & c & Ec & Ha & Hb & Hc).
  exists a, b, c.
  assert (Hpos : forall e, 0 <= G ^ e mod P)
    by (intros e; apply Z.mod_pos_bound; lia).
  destruct (compute_fingerprint_total
              [G ^ a mod P; G ^ b mod P; G ^ c mod P] context) as (f & Ef).
  { repeat constructor; apply Hpos. }
  eexists. split; [exact Ec|]. do 3 (split; [assumption|]).
  unfold mint_capsule. rewrite Ec. cbn [bind].
  rewrite !pow_Ok by lia. cbn [bind].
  rewrite derive_anchor_triple by lia. cbn [bind].
  rewrite Ef. cbn [bind].
  split; [reflexivity|]. split; [reflexivity|]. split; [reflexivity|].
  split; cbn [vector anchor fingerprint Richens.context]; auto.
  apply derive_anchor_triple; lia.
Qed.

(** The value [verify_attestation] expects of the orbital. *)
Lemma verify_attestation_intact (capsule : RichensCapsule) (v0 v1 v2 : Z)
    (challenge : Z) (proof : RichensProof) :
  0 < P -> 0 < Q -> integrity capsule -> vector capsule = [v0; v1; v2] ->
  verify_attestation capsule challenge proof
  = (left <- pow G (response proof) P ;;
     if negb (left =? orbital proof) then Ok false
     else if negb (orbital proof
                   =? (v0 ^ 1 mod P * (v1 ^ (challenge mod Q) mod P) mod P
                       * (v2 ^ ((challenge mod Q) ^ 2 mod Q) mod P)) mod P)
          then Ok false
     else
       expected_parity <-
         parity_of (challenge mod Q) (orbital proof) (context capsule) ;;
       compare_digest (parity proof) expected_parity).
Proof.
  intros HP HQ [Ea Ef] Hv.
  assert (Ht : 0 <= challenge mod Q < Q) by (apply Z.mod_pos_bound; lia).
  assert (Hs : 0 <= (challenge mod Q) ^ 2 mod Q < Q) by (apply Z.mod_pos_bound; lia).
  unfold verify_attestation.
  rewrite Ea. cbn [bind]. rewrite Z.eqb_refl. cbn [negb].
  rewrite Ef. cbn [bind]. rewrite String.eqb_refl. cbn [negb].
  rewrite Hv. unfold index. cbn [nth_error].
  rewrite (mod_Ok challenge Q) by lia. cbn [bind].
  rewrite (pow_Ok v0 1 P), (pow_Ok v1 (challenge mod Q) P),
          (pow_Ok (challenge mod Q) 2 Q) by lia.
  cbn [bind]. rewrite !(mod_Ok _ P) by lia. cbn [bind].
  rewrite (pow_Ok v2 _ P) by lia. cbn [bind].
  rewrite !(mod_Ok _ P) by lia. cbn [bind].
  reflexivity.
Qed.

(** [respond_to_challenge] never raises; it evaluates the polynomial
    [a + b t + c t^2] at the reduced challenge. *)
Lemma respond_to_challenge_Ok (essence : bytes) (challenge : Z)
    (context : string) (a b c : Z) :
  0 < P -> 0 < Q ->
  _derive_coefficients essence context = Ok (a, b, c) ->
  let t := challenge mod Q in
  let polynomial := (a + b * t + c * (t ^ 2 mod Q)) mod Q in
  exists parity,
    parity_of t (G ^ polynomial mod P) context = Ok parity
    /\ respond_to_challenge essence challenge context
       = Ok {| response := polynomial;
               orbital := G ^ polynomial mod P;
               parity := parity |}.
Proof.
  intros HP HQ Ec t polynomial.
  assert (Ht : 0 <= t < Q) by (apply Z.mod_pos_bound; lia).
  assert (Hp : 0 <= polynomial < Q) by (apply Z.mod_pos_bound; lia).
  assert (Ho : 0 <= G ^ polynomial mod P < P) by (apply Z.mod_pos_bound; lia).
  destruct (int_to_bytes_Ok t) as (bt & Ebt & _); [lia|].
  destruct (int_to_bytes_Ok (G ^ polynomial mod P)) as (bo & Ebo & _); [lia|].
  assert (Epar : parity_of t (G ^ polynomial mod P) context
                 = Ok (hexdigest (blake2b_new 32 (bt ++ bo ++ encode_utf8 context)))).
  { unfold parity_of, parity_hasher. rewrite Ebt, Ebo. reflexivity. }
  eexists. split; [exact Epar|].
  unfold respond_to_challenge. rewrite Ec. cbn [bind].
  rewrite (mod_Ok challenge Q) by lia. cbn [bind]. fold t.
  rewrite (pow_Ok t 2 Q) by lia. cbn [bind].
  rewrite mod_Ok by lia. cbn [bind]. fold polynomial.
  rewrite pow_Ok by lia. cbn [bind].
  rewrite Epar. reflexivity.
Qed.

Lemma compare_digest_hexdigests (h1 h2 : Hasher) :
  compare_digest (hexdigest h1) (hexdigest h2)
  = Ok (String.eqb (hexdigest h1) (hexdigest h2)).
Proof.
  unfold compare_digest, hexdigest. now rewrite !hexlify_is_ascii.
Qed.

Lemma compare_digest_hexdigest (h : Hasher) :
  compare_digest (hexdigest h) (hexdigest h) = Ok true.
Proof.
  now rewrite compare_digest_hexdigests, String.eqb_refl.
Qed.

(** A capsule accepts the response made from its own essence and context,
    at every challenge. *)
Lemma verify_own_response (essence : bytes) (context : string) (t : Z) :
  group_ok ->
  exists capsule proof,
    mint_capsule essence context = Ok capsule
    /\ respond_to_challenge essence t context = Ok proof
    /\ verify_attestation capsule t proof = Ok true.
Proof.
  intros Hg.
  pose proof (group_ok_P Hg) as HP. pose proof (group_ok_Q Hg) as HQ.
  destruct (mint_capsule_Ok essence context) as
    (a & b & c & capsule & Ec & Ha & Hb & Hc & Em & Hv & Hctx & Hint); try lia.
  destruct (respond_to_challenge_Ok essence t context a b c) as (par & Epar & Er);
    try lia; auto.
  eexists capsule, _. split; [exact Em|]. split; [exact Er|].
  assert (Ht : 0 <= t mod Q < Q) by (apply Z.mod_pos_bound; lia).
  assert (Hs : 0 <= (t mod Q) ^ 2 mod Q < Q) by (apply Z.mod_pos_bound; lia).
  assert (HP0 : 0 < P) by lia.
  rewrite (verify_attestation_intact capsule _ _ _ t _ HP0 HQ Hint Hv).
  cbn [response orbital parity].
  rewrite pow_Ok by (try apply Z.mod_pos_bound; lia). cbn [bind].
  rewrite Z.eqb_refl. cbn [negb].
  rewrite richens_homomorphism by (auto; lia).
  rewrite Z.eqb_refl. cbn [negb].
  rewrite Hctx, Epar. cbn [bind].
  unfold parity_of in Epar. apply bind_Ok in Epar as (h & _ & [= <-]).
  apply compare_digest_hexdigest.
Qed.

(** C1 (round trip).  Under the specification's group parameters, for every
    essence (the non-empty ones among them), every context and every
    challenge strictly between 0 and [Q], as [issue_challenge] produces
    them: the capsule is minted, the response is computed, and
    [verify_attestation] on the three returns [True]. *)
Theorem richens_round_trip (essence : bytes) (context : string) (t : Z) :
  group_ok -> 0 < t < Q ->
  exists capsule proof,
    mint_capsule essence context = Ok capsule
    /\ respond_to_challenge essence t context = Ok proof
    /\ verify_attestation capsule t proof = Ok true.
Proof.
  intros Hg _. now apply verify_own_response.
Qed.

(** ** Binding to the challenge *)

Lemma mod_congr (a b : Z) : a mod Q = b mod Q -> mod_ a Q = mod_ b Q.
Proof. unfold mod_. now intros ->. Qed.

(** A proof made for challenge [A] is accepted at every challenge that is
    congruent to [A] modulo [Q]. *)
Lemma congruent_challenge_accepted (essence : bytes) (context : string) (A B : Z) :
  group_ok -> A mod Q = B mod Q ->
  exists capsule proof,
    mint_capsule essence context = Ok capsule
    /\ respond_to_challenge essence A context = Ok proof
    /\ verify_attestation capsule B proof = Ok true.
Proof.
  intros Hg E.
  destruct (verify_own_response essence context A Hg)
    as (capsule & proof & Em & Er & Ev).
  exists capsule, proof. split; [exact Em|]. split; [exact Er|].
  rewrite <- Ev. unfold verify_attestation.
  now rewrite (mod_congr _ _ E).
Qed.

(** C9 (residue of the challenge).  When two challenges have the same
    residue modulo [Q], [respond_to_challenge] returns the same proof for
    both, and [verify_attestation] gives the same answer for both on every
    capsule and every proof. *)
Theorem challenge_only_through_residue (A B : Z) :
  A mod Q = B mod Q ->
  (forall essence context,
     respond_to_challenge essence A context
     = respond_to_challenge essence B context)
  /\ (forall capsule proof,
        verify_attestation capsule A proof
        = verify_attestation capsule B proof).
Proof.
  intros E. apply mod_congr in E. split.
  - intros essence context. unfold respond_to_challenge. now rewrite E.
  - intros capsule proof. unfold verify_attestation. now rewrite E.
Qed.

Lemma encode_utf8_inj (s1 s2 : string) :
  encode_utf8 s1 = encode_utf8 s2 -> s1 = s2.
Proof.
  unfold encode_utf8. intros E.
  apply (f_equal string_of_list_byte) in E.
  now rewrite !string_of_list_byte_of_string in E.
Qed.

Lemma hexdigest_inj (h1 h2 : Hasher) :
  digest_size h1 = digest_size h2 ->
  no_collision (digest_size h1) (fed h1) (fed h2) ->
  hexdigest h1 = hexdigest h2 -> fed h1 = fed h2.
Proof.
  unfold hexdigest, no_collision. intros Es Hnc E.
  apply hexlify_inj in E. rewrite <- Es in E. auto.
Qed.

Lemma parity_hasher_Ok (t o : Z) (context : string) (h : Hasher) :
  parity_hasher t o context = Ok h ->
  exists bt bo,
    _int_to_bytes t = Ok bt /\ _int_to_bytes o = Ok bo
    /\ h = blake2b_new 32 (bt ++ bo ++ encode_utf8 context).
Proof.
  unfold parity_hasher. intros E.
  apply bind_Ok in E as (bt & Ebt & E).
  apply bind_Ok in E as (bo & Ebo & [= <-]). eauto.
Qed.

(** Distinct reduced challenges give distinct parity messages. *)
Lemma parity_message_inj (t1 t2 o : Z) (context : string) (h1 h2 : Hasher) :
  parity_hasher t1 o context = Ok h1 ->
  parity_hasher t2 o context = Ok h2 ->
  fed h1 = fed h2 -> t1 = t2.
Proof.
  intros E1 E2 Ef.
  apply parity_hasher_Ok in E1 as (bt1 & bo1 & Et1 & Eo1 & ->).
  apply parity_hasher_Ok in E2 as (bt2 & bo2 & Et2 & Eo2 & ->).
  cbn [fed blake2b_new] in Ef.
  assert (bo1 = bo2) by congruence. subst bo2.
  apply app_inv_tail in Ef. subst bt2.
  eapply int_to_bytes_inj; eassumption.
Qed.

(** C2, as the code has it.  A proof made for challenge [A] is refused
    against challenge [B] whenever the two differ modulo [Q] (as two
    distinct challenges strictly between 0 and [Q] do), provided BLAKE2b
    does not collide on the two parity messages. *)
Theorem proof_bound_to_challenge_residue (essence : bytes) (context : string)
    (A B : Z) (capsule : RichensCapsule) (proof : RichensProof) :
  0 < P -> 0 < Q ->
  mint_capsule essence context = Ok capsule ->
  respond_to_challenge essence A context = Ok proof ->
  A mod Q <> B mod Q ->
  (forall hA hB,
     parity_hasher (A mod Q) (orbital proof) context = Ok hA ->
     parity_hasher (B mod Q) (orbital proof) context = Ok hB ->
     no_collision 32 (fed hA) (fed hB)) ->
  verify_attestation capsule B proof = Ok false.
Proof.
  intros HP HQ Em Er Hne Hnc.
  destruct (mint_capsule_Ok essence context HP HQ) as
    (a & b & c & capsule' & Ec & Ha & Hb & Hc & Em' & Hv & Hctx & Hint).
  assert (capsule' = capsule) by congruence. subst capsule'.
  destruct (respond_to_challenge_Ok essence A context a b c HP HQ Ec)
    as (par & Epar & Er').
  remember ((a + b * (A mod Q) + c * ((A mod Q) ^ 2 mod Q)) mod Q) as poly eqn:Epoly.
  assert (Hpoly : 0 <= poly) by (subst poly; apply Z.mod_pos_bound; lia).
  remember (G ^ poly mod P) as o eqn:Eo.
  rewrite Er in Er'. injection Er' as ->.
  rewrite (verify_attestation_intact capsule _ _ _ B _ HP HQ Hint Hv).
  cbv beta iota delta [response orbital parity] in Hnc |- *.
  rewrite pow_Ok, <- Eo by lia. cbn [bind].
  rewrite Z.eqb_refl. cbn [negb].
  match goal with |- (if negb ?t then _ else _) = _ => destruct t end;
    cbn [negb]; [|reflexivity].
  rewrite Hctx.
  unfold parity_of in Epar. apply bind_Ok in Epar as (hA & EhA & [= <-]).
  destruct (parity_hasher_Ok _ _ _ _ EhA) as (bt & bo & _ & Ebo & EA).
  destruct (int_to_bytes_Ok (B mod Q)) as (bB & EbB & _);
    [apply Z.mod_pos_bound; lia|].
  assert (EhB : parity_hasher (B mod Q) o context
                = Ok (blake2b_new 32 (bB ++ bo ++ encode_utf8 context))).
  { unfold parity_hasher. rewrite EbB, Ebo. reflexivity. }
  unfold parity_of. rewrite EhB. cbn [bind].
  rewrite compare_digest_hexdigests. f_equal.
  apply not_true_is_false. intros Eq. apply String.eqb_eq in Eq.
  apply Hne.
  eapply parity_message_inj; [exact EhA | exact EhB |].
  apply hexdigest_inj; [subst hA; reflexivity | | exact Eq].
  subst hA. apply (Hnc _ _ EhA EhB).
Qed.

(** ** Binding to the context *)

Lemma int_to_bytes_fun (vector : list Z) :
  forall chunks1 chunks2,
  Forall2 (fun v bs => _int_to_bytes v = Ok bs) vector chunks1 ->
  Forall2 (fun v bs => _int_to_bytes v = Ok bs) vector chunks2 ->
  chunks1 = chunks2.
Proof.
  induction vector as [|v vector IH]; intros c1 c2 H1 H2;
    inversion H1; inversion H2; subst; [reflexivity|].
  f_equal; [congruence | now apply IH].
Qed.

Lemma fingerprint_hasher_Ok (vector : list Z) (context : string) (h : Hasher) :
  fingerprint_hasher vector context = Ok h ->
  exists chunks,
    Forall2 (fun v bs => _int_to_bytes v = Ok bs) vector chunks
    /\ h = {| digest_size := 32;
              fed := List.concat chunks ++ encode_utf8 context |}.
Proof.
  unfold fingerprint_hasher. intros E.
  apply bind_Ok in E as (h0 & E0 & [= <-]).
  apply update_each_Ok in E0 as (chunks & Hall & ->).
  exists chunks. split; [assumption | reflexivity].
Qed.

Lemma compute_fingerprint_Ok (vector : list Z) (context f : string) :
  _compute_fingerprint vector context = Ok f ->
  exists h, fingerprint_hasher vector context = Ok h /\ f = hexdigest h.
Proof.
  unfold _compute_fingerprint. intros E.
  apply bind_Ok in E as (h & Eh & [= <-]). eauto.
Qed.

(** C6 (context tampering).  Take a minted capsule and replace only its
    context by a different string (vector, anchor and fingerprint as they
    were): [verify_attestation] returns [False], whatever the challenge and
    the proof (the valid pairs produced from the essence among them),
    provided BLAKE2b does not collide on the two fingerprint messages. *)
Theorem tampered_context_rejected (essence : bytes) (context context' : string)
    (capsule : RichensCapsule) (challenge : Z) (proof : RichensProof) :
  0 < P -> 0 < Q ->
  mint_capsule essence context = Ok capsule ->
  context' <> context ->
  (forall h h',
     fingerprint_hasher (vector capsule) context = Ok h ->
     fingerprint_hasher (vector capsule) context' = Ok h' ->
     no_collision 32 (fed h) (fed h')) ->
  verify_attestation
    {| vector := vector capsule; context := context';
       anchor := anchor capsule; fingerprint := fingerprint capsule |}
    challenge proof
  = Ok false.
Proof.
  intros HP HQ Em Hne Hnc.
  destruct (mint_capsule_Ok essence context HP HQ) as
    (a & b & c & capsule' & Ec & Ha & Hb & Hc & Em' & Hv & Hctx & [Ea Ef]).
  assert (capsule' = capsule) by congruence. subst capsule'.
  rewrite Hctx in Ef.
  apply compute_fingerprint_Ok in Ef as (h & Eh & Ef).
  destruct (compute_fingerprint_total (vector capsule) context') as (f' & Ef').
  { rewrite Hv. repeat constructor; apply Z.mod_pos_bound; lia. }
  unfold verify_attestation.
  cbv beta iota delta [vector Richens.context anchor fingerprint].
  fold (vector capsule) (anchor capsule) (fingerprint capsule).
  rewrite Ea. cbn [bind]. rewrite Z.eqb_refl. cbn [negb].
  rewrite Ef'. cbn [bind].
  destruct (String.eqb_spec (fingerprint capsule) f') as [Eq|]; [|reflexivity].
  exfalso. apply Hne.
  apply compute_fingerprint_Ok in Ef' as (h' & Eh' & ->).
  rewrite Ef in Eq.
  apply hexdigest_inj in Eq.
  - destruct (fingerprint_hasher_Ok _ _ _ Eh) as (ch & Hch & ->).
    destruct (fingerprint_hasher_Ok _ _ _ Eh') as (ch' & Hch' & ->).
    cbn [fed] in Eq.
    rewrite (int_to_bytes_fun _ _ _ Hch Hch') in Eq.
    apply app_inv_head in Eq. symmetry. now apply encode_utf8_inj.
  - destruct (fingerprint_hasher_Ok _ _ _ Eh) as (ch & _ & ->).
    destruct (fingerprint_hasher_Ok _ _ _ Eh') as (ch' & _ & ->). reflexivity.
  - destruct (fingerprint_hasher_Ok _ _ _ Eh) as (ch & _ & Eh0).
    rewrite Eh0 at 1. cbn [digest_size]. now apply Hnc.
Qed.

(** ** Serialization *)

Lemma int16_each_hex (vector : list Z) :
  int16_each (map hex vector) = Ok vector.
Proof.
  induction vector as [|v vector IH]; [reflexivity|].
  cbn [map int16_each]. now rewrite int16_hex, IH.
Qed.

Lemma checked_Ok (capsule : RichensCapsule) :
  integrity capsule -> checked capsule = Ok capsule.
Proof.
  intros [Ea Ef]. unfold checked.
  rewrite Ea. cbn [bind]. rewrite Z.eqb_refl. cbn [negb].
  rewrite Ef. cbn [bind]. now rewrite String.eqb_refl.
Qed.

Lemma checked_integrity (capsule capsule' : RichensCapsule) :
  checked capsule = Ok capsule' -> capsule' = capsule /\ integrity capsule.
Proof.
  unfold checked, integrity. intros E.
  apply bind_Ok in E as (a & Ea & E).
  destruct (Z.eqb_spec (anchor capsule) a) as [->|]; [|discriminate].
  cbn [negb] in E. apply bind_Ok in E as (f & Ef & E).
  destruct (String.eqb_spec (fingerprint capsule) f) as [->|]; [|discriminate].
  cbn [negb] in E. injection E as <-. auto.
Qed.

Lemma from_dict_to_dict (capsule : RichensCapsule) :
  integrity capsule -> from_dict (to_dict capsule) = Ok capsule.
Proof.
  intros Hint. unfold from_dict, to_dict.
  cbv beta iota zeta delta [d_vector d_context d_anchor d_fingerprint].
  rewrite int16_each_hex, int16_hex. cbn [bind].
  destruct capsule. now apply checked_Ok.
Qed.

(** C10 (a minted capsule survives serialization).  [mint_capsule] returns
    a capsule that satisfies the integrity invariant, and reading back what
    [to_dict] writes neither raises nor changes the capsule. *)
Theorem minted_capsule_round_trips (essence : bytes) (context : string) :
  0 < P -> 0 < Q ->
  exists capsule,
    mint_capsule essence context = Ok capsule
    /\ integrity capsule
    /\ from_dict (to_dict capsule) = Ok capsule.
Proof.
  intros HP HQ.
  destruct (mint_capsule_Ok essence context HP HQ) as
    (a & b & c & capsule & _ & _ & _ & _ & Em & _ & _ & Hint).
  exists capsule. auto using from_dict_to_dict.
Qed.

(** ** Deserialization rejects what fails the invariant *)

Lemma derive_anchor_cons (v0 v1 v2 : Z) (rest : list Z) :
  P <> 0 ->
  _derive_anchor (v0 :: v1 :: v2 :: rest)
  = Ok ((v0 ^ 2 mod P * (v1 ^ 3 mod P) * (v2 ^ 5 mod P)) mod P).
Proof.
  intros HP. unfold _derive_anchor, index. cbn [nth_error bind].
  rewrite !pow_Ok by lia. cbn [bind]. now rewrite mod_Ok.
Qed.

Lemma derive_anchor_inv (vector : list Z) (a : Z) :
  _derive_anchor vector = Ok a -> P <> 0 /\ (3 <= List.length vector)%nat.
Proof.
  unfold _derive_anchor, index. intros E.
  destruct vector as [|v0 [|v1 [|v2 rest]]]; cbn [nth_error bind] in E;
    try discriminate.
  - apply bind_Ok in E as (? & _ & E). discriminate.
  - apply bind_Ok in E as (? & _ & E).
    apply bind_Ok in E as (? & _ & E). discriminate.
  - split; [|cbn; lia].
    apply bind_Ok in E as (p0 & E0 & _). unfold pow in E0.
    destruct (Z.eqb_spec P 0); [discriminate | assumption].
Qed.

Lemma derive_anchor_total (vector : list Z) :
  P <> 0 -> (3 <= List.length vector)%nat -> exists a, _derive_anchor vector = Ok a.
Proof.
  intros HP Hlen.
  destruct vector as [|v0 [|v1 [|v2 rest]]]; cbn in Hlen; try lia.
  rewrite derive_anchor_cons by assumption. eauto.
Qed.

Lemma int16_each_app (l1 l2 : list string) (v1 v2 : list Z) :
  int16_each l1 = Ok v1 -> int16_each l2 = Ok v2 ->
  int16_each (l1 ++ l2) = Ok (v1 ++ v2).
Proof.
  revert v1. induction l1 as [|s l1 IH]; intros v1 E1 E2.
  - injection E1 as <-. exact E2.
  - cbn [int16_each] in E1. apply bind_Ok in E1 as (v & Ev & E1).
    apply bind_Ok in E1 as (vs & Evs & [= <-]).
    cbn [app int16_each]. rewrite Ev. cbn [bind].
    rewrite (IH vs Evs E2). reflexivity.
Qed.

Lemma fingerprint_nonneg (vector : list Z) (context f : string) :
  _compute_fingerprint vector context = Ok f -> Forall (fun v => 0 <= v) vector.
Proof.
  intros E. apply compute_fingerprint_Ok in E as (h & Eh & _).
  apply fingerprint_hasher_Ok in Eh as (chunks & Hall & _).
  induction Hall as [|v bs vector chunks Hv _ IH]; constructor; auto.
  eapply int_to_bytes_nonneg; eassumption.
Qed.

(** With hexadecimal fields that parse and recomputations that succeed,
    [from_dict] raises exactly on a mismatch. *)
Lemma from_dict_raises_iff (data : CapsuleDict) (vector : list Z)
    (anchor a : Z) (f : string) :
  int16_each (d_vector data) = Ok vector ->
  int16 (d_anchor data) = Ok anchor ->
  _derive_anchor vector = Ok a ->
  _compute_fingerprint vector (d_context data) = Ok f ->
  (raises (from_dict data) <-> anchor <> a \/ d_fingerprint data <> f)
  /\ (anchor = a -> d_fingerprint data = f ->
      from_dict data
      = Ok {| vector := vector; context := d_context data;
              anchor := anchor; fingerprint := d_fingerprint data |}).
Proof.
  intros Ev Ea Eda Ef.
  unfold from_dict, checked. rewrite Ev, Ea. cbn [bind].
  cbv beta iota zeta delta [Richens.vector Richens.context Richens.anchor fingerprint].
  rewrite Eda. cbn [bind].
  destruct (Z.eqb_spec anchor a) as [->|Hne]; cbn [negb].
  - rewrite Ef. cbn [bind].
    destruct (String.eqb_spec (d_fingerprint data) f) as [->|Hnf]; cbn [negb].
    + split; [|reflexivity].
      split; [intros [e He]; discriminate | intros [Hc|Hc]; contradiction].
    + split; [|contradiction].
      split; [auto | intros _; eexists; reflexivity].
  - split; [|contradiction].
    split; [auto | intros _; eexists; reflexivity].
Qed.

(** Whatever [from_dict] returns has passed both checks. *)
Lemma from_dict_integrity (data : CapsuleDict) (capsule : RichensCapsule) :
  from_dict data = Ok capsule -> integrity capsule.
Proof.
  unfold from_dict. intros E.
  apply bind_Ok in E as (vector & _ & E).
  apply bind_Ok in E as (anchor & _ & E).
  apply checked_integrity in E as [-> Hint]. exact Hint.
Qed.

(** One digit of one serialized vector component replaced by a digit of
    another value: the capsule no longer deserializes. *)
Lemma altered_digit_rejected (capsule : RichensCapsule) (l1 l2 : list Z) (v : Z)
    (pre post : list ascii) (c c' : ascii) (d d' : N) :
  integrity capsule ->
  vector capsule = l1 ++ v :: l2 ->
  hex v = String "0" (String "x" (string_of_list_ascii (pre ++ c :: post))) ->
  digit16 c = Some d -> digit16 c' = Some d' -> d <> d' ->
  let altered :=
    String "0" (String "x" (string_of_list_ascii (pre ++ c' :: post))) in
  (forall v' h h',
     int16 altered = Ok v' ->
     fingerprint_hasher (vector capsule) (context capsule) = Ok h ->
     fingerprint_hasher (l1 ++ v' :: l2) (context capsule) = Ok h' ->
     no_collision 32 (fed h) (fed h')) ->
  let r := from_dict {| d_vector := map hex l1 ++ altered :: map hex l2;
                        d_context := context capsule;
                        d_anchor := hex (anchor capsule);
                        d_fingerprint := fingerprint capsule |} in
  r = Raise anchor_mismatch \/ r = Raise fingerprint_mismatch.
Proof.
  intros [Ea Ef] Hv Hhex Hc Hc' Hd altered Hnc r.
  pose proof (fingerprint_nonneg _ _ _ Ef) as Hpos.
  rewrite Hv in Hpos.
  assert (Hv0 : 0 <= v).
  { apply Forall_app in Hpos as [_ Hpos]. now inversion Hpos. }
  (* the digits of the original and of the altered component *)
  destruct (hex_digits v Hv0) as (ds & Eds & Hds & _ & Eval).
  rewrite Hhex in Eds. injection Eds as Eds.
  apply string_of_list_ascii_inj in Eds. subst ds.
  assert (Hpost : all_hex post).
  { apply Forall_app in Hds as [_ Hds]. now inversion Hds. }
  assert (Hds' : all_hex (pre ++ c' :: post)).
  { apply Forall_app in Hds as [Hpre _]. apply Forall_app. split; [assumption|].
    constructor; [|assumption]. unfold digit16 in *. congruence. }
  pose proof (int16_digits false _ Hds' ltac:(now destruct pre)) as Ealt.
  cbv beta iota zeta in Ealt. fold altered in Ealt.
  set (v' := Z.of_N (HexString.Raw.to_N
                       (string_of_list_ascii (pre ++ c' :: post)) 0)) in *.
  assert (Hv' : v' <> v).
  { subst v'. rewrite <- Eval. intros E. apply N2Z.inj in E.
    symmetry in E. revert E.
    eapply altered_digit_changes_value; eassumption. }
  assert (Hv'0 : 0 <= v') by (subst v'; lia).
  (* the altered dictionary parses, to the vector with [v'] for [v] *)
  assert (Eeach : int16_each (map hex l1 ++ altered :: map hex l2)
                  = Ok (l1 ++ v' :: l2)).
  { apply int16_each_app; [apply int16_each_hex|].
    cbn [int16_each]. rewrite Ealt, int16_each_hex. reflexivity. }
  subst r. unfold from_dict.
  cbv beta iota zeta delta [d_vector d_context d_anchor d_fingerprint].
  rewrite Eeach, int16_hex. cbn [bind].
  unfold checked.
  cbv beta iota zeta delta [vector Richens.context anchor fingerprint].
  fold (vector capsule) (Richens.context capsule) (anchor capsule)
       (fingerprint capsule).
  (* both recomputations succeed *)
  destruct (derive_anchor_inv _ _ Ea) as [HP Hlen].
  destruct (derive_anchor_total (l1 ++ v' :: l2) HP) as (a' & Ea').
  { rewrite Hv in Hlen. rewrite length_app in *. cbn [List.length] in *. lia. }
  rewrite Ea'. cbn [bind].
  destruct (Z.eqb_spec (anchor capsule) a'); cbn [negb]; [|now left].
  destruct (compute_fingerprint_total (l1 ++ v' :: l2) (Richens.context capsule))
    as (f' & Ef').
  { apply Forall_app in Hpos as [H1 H2]. apply Forall_app. split; [assumption|].
    inversion H2; subst. now constructor. }
  rewrite Ef'. cbn [bind].
  destruct (String.eqb_spec (fingerprint capsule) f') as [Eq|]; cbn [negb];
    [exfalso | now right].
  (* equal fingerprints would be a collision *)
  apply compute_fingerprint_Ok in Ef as (h & Eh & Ef).
  apply compute_fingerprint_Ok in Ef' as (h' & Eh' & ->).
  rewrite Ef in Eq.
  pose proof (Hnc v' h h' Ealt Eh Eh') as Hnc'.
  destruct (fingerprint_hasher_Ok _ _ _ Eh) as (ch & Hch & ->).
  destruct (fingerprint_hasher_Ok _ _ _ Eh') as (ch' & Hch' & ->).
  apply hexdigest_inj in Eq; [|reflexivity|exact Hnc'].
  cbn [fed] in Eq. apply app_inv_tail in Eq.
  rewrite Hv in Hch.
  apply Forall2_app_inv_l in Hch as (c1 & c2 & H1 & H2 & ->).
  apply Forall2_app_inv_l in Hch' as (c1' & c2' & H1' & H2' & ->).
  inversion H2 as [|? bv ? c3 Ebv H3]; subst.
  inversion H2' as [|? bv' ? c3' Ebv' H3']; subst.
  rewrite (int_to_bytes_fun _ _ _ H1 H1') in Eq.
  rewrite (int_to_bytes_fun _ _ _ H3 H3') in Eq.
  rewrite !concat_app in Eq. cbn [List.concat] in Eq.
  apply app_inv_head in Eq. apply app_inv_tail in Eq. subst bv'.
  apply Hv'. eapply int_to_bytes_inj; eassumption.
Qed.

(** C5 (deserialization checks integrity).  (1) When the hexadecimal fields
    parse and anchor and fingerprint can be recomputed, [from_dict] raises
    if and only if the supplied anchor or the supplied fingerprint differs
    from the recomputed one, and otherwise returns the capsule.  (2) No
    capsule is returned that has not passed both checks.  (3) In the
    dictionary of a capsule that satisfies the invariant, replacing one
    hexadecimal digit of one vector component by a digit of another value
    makes [from_dict] raise one of the two integrity errors, provided
    BLAKE2b does not collide on the two fingerprint messages. *)
Theorem from_dict_checks_integrity :
  (forall data vector anchor a f,
     int16_each (d_vector data) = Ok vector ->
     int16 (d_anchor data) = Ok anchor ->
     _derive_anchor vector = Ok a ->
     _compute_fingerprint vector (d_context data) = Ok f ->
     (raises (from_dict data) <-> anchor <> a \/ d_fingerprint data <> f)
     /\ (anchor = a -> d_fingerprint data = f ->
         from_dict data
         = Ok {| vector := vector; context := d_context data;
                 anchor := anchor; fingerprint := d_fingerprint data |}))
  /\ (forall data capsule, from_dict data = Ok capsule -> integrity capsule)
  /\ (forall capsule l1 l2 v pre post c c' d d',
        integrity capsule ->
        vector capsule = l1 ++ v :: l2 ->
        hex v = String "0" (String "x" (string_of_list_ascii (pre ++ c :: post))) ->
        digit16 c = Some d -> digit16 c' = Some d' -> d <> d' ->
        let altered :=
          String "0" (String "x" (string_of_list_ascii (pre ++ c' :: post))) in
        (forall v' h h',
           int16 altered = Ok v' ->
           fingerprint_hasher (vector capsule) (context capsule) = Ok h ->
           fingerprint_hasher (l1 ++ v' :: l2) (context capsule) = Ok h' ->
           no_collision 32 (fed h) (fed h')) ->
        let r := from_dict {| d_vector := map hex l1 ++ altered :: map hex l2;
                              d_context := context capsule;
                              d_anchor := hex (anchor capsule);
                              d_fingerprint := fingerprint capsule |} in
        r = Raise anchor_mismatch \/ r = Raise fingerprint_mismatch).
Proof.
  split; [|split].
  - intros. now apply from_dict_raises_iff.
  - apply from_dict_integrity.
  - intros. eapply altered_digit_rejected; eassumption.
Qed.

(** ** Challenge issuance *)

Lemma advance_advance (r : Rng) (n m : nat) :
  advance (advance r n) m = advance r (n + m).
Proof.
  unfold advance. cbn [tape cursor]. f_equal. lia.
Qed.

Lemma peek_advance (r : Rng) (n k : nat) :
  peek (advance r n) k = peek r (n + k).
Proof.
  unfold peek, advance. cbn [tape cursor]. f_equal. lia.
Qed.

Lemma bit_length_le (c k : Z) : 0 <= k -> 0 <= c < 2 ^ k -> bit_length c <= k.
Proof.
  intros Hk Hc. unfold bit_length.
  destruct (Z.eqb_spec c 0); [lia|].
  rewrite Z.abs_eq by lia.
  assert (Z.log2 c < k) by (apply Z.log2_lt_pow2; lia). lia.
Qed.

(** What a returning loop has done: it read [n + 1] tape cells, refused
    the first [n] candidates and accepted the last. *)
Lemma issue_challenge_loop_sound (fuel : nat) (size : Z) :
  forall r v r',
  issue_challenge_loop fuel size r = Some (Ok (v, r')) ->
  0 <= size
  /\ exists n, (n < fuel)%nat
       /\ r' = advance r (S n)
       /\ v = peek r n mod 2 ^ size
       /\ 0 < v < Q
       /\ forall k, (k < n)%nat -> ~ 0 < peek r k mod 2 ^ size < Q.
Proof.
  induction fuel as [|fuel IH]; intros r v r' E; [discriminate|].
  cbn [issue_challenge_loop] in E. unfold randbits in E.
  destruct (Z.ltb_spec size 0) as [|Hs]; [discriminate|].
  split; [assumption|].
  destruct (Z.ltb_spec 0 (peek r 0 mod 2 ^ size)) as [Hlo|Hlo];
    [destruct (Z.ltb_spec (peek r 0 mod 2 ^ size) Q) as [Hhi|Hhi]|];
    cbn [andb] in E.
  - injection E as <- <-. exists O.
    repeat split; lia.
  - apply IH in E as (_ & n & Hn & -> & -> & Hv & Hrej).
    rewrite peek_advance in Hv.
    exists (S n). rewrite advance_advance, peek_advance.
    split; [lia|]. do 3 (split; [reflexivity || assumption|]).
    intros [|k] Hk; [lia|].
    specialize (Hrej k ltac:(lia)). now rewrite peek_advance in Hrej.
  - apply IH in E as (_ & n & Hn & -> & -> & Hv & Hrej).
    rewrite peek_advance in Hv.
    exists (S n). rewrite advance_advance, peek_advance.
    split; [lia|]. do 3 (split; [reflexivity || assumption|]).
    intros [|k] Hk; [lia|].
    specialize (Hrej k ltac:(lia)). now rewrite peek_advance in Hrej.
Qed.

(** The loop does return, given fuel beyond the first acceptable cell. *)
Lemma issue_challenge_loop_returns (size : Z) (n : nat) :
  forall fuel r,
  0 <= size -> (n < fuel)%nat ->
  0 < peek r n mod 2 ^ size < Q ->
  exists v r', issue_challenge_loop fuel size r = Some (Ok (v, r')).
Proof.
  induction n as [|n IH]; intros [|fuel] r Hs Hf Hacc; try lia;
    cbn [issue_challenge_loop]; unfold randbits;
    (destruct (Z.ltb_spec size 0); [lia|]).
  - destruct (Z.ltb_spec 0 (peek r 0 mod 2 ^ size)); [|lia].
    destruct (Z.ltb_spec (peek r 0 mod 2 ^ size) Q); [|lia].
    cbn [andb]. eauto.
  - destruct ((0 <? peek r 0 mod 2 ^ size) && (peek r 0 mod 2 ^ size <? Q));
      [eauto|].
    apply IH; [assumption | lia |]. now rewrite peek_advance.
Qed.

(** C7 (issued challenges).  Whenever [issue_challenge] returns, the value
    lies strictly between 0 and [Q]; it is the last of the candidates
    sampled, each of which is a non-negative integer of at most
    [min(bits, Q.bit_length())] bits; and the call does return once the
    entropy offers an acceptable candidate. *)
Theorem issue_challenge_in_range (bits : Z) (r : Rng) :
  let size := Z.min bits (bit_length Q) in
  let candidate k := peek r k mod 2 ^ size in
  (forall fuel v r',
     issue_challenge fuel bits r = Some (Ok (v, r')) ->
     0 < v < Q
     /\ exists n, (n < fuel)%nat
          /\ v = candidate n
          /\ r' = advance r (S n)
          /\ forall k, (k <= n)%nat ->
               0 <= candidate k /\ bit_length (candidate k) <= size)
  /\ (forall n fuel,
        0 <= size -> (n < fuel)%nat -> 0 < candidate n < Q ->
        exists v r', issue_challenge fuel bits r = Some (Ok (v, r'))).
Proof.
  intros size candidate. split.
  - intros fuel v r' E. unfold issue_challenge in E. fold size in E.
    apply issue_challenge_loop_sound in E as (Hs & n & Hn & -> & -> & Hv & _).
    split; [assumption|]. exists n. repeat split; auto.
    + apply Z.mod_pos_bound. lia.
    + apply bit_length_le; [assumption|]. apply Z.mod_pos_bound. lia.
  - intros n fuel Hs Hn Hacc. unfold issue_challenge. fold size.
    eapply issue_challenge_loop_returns; eassumption.
Qed.

End RichensFacts.

(* ================================================================== *)
(** * The Schnorr protocol *)
(* ================================================================== *)

Section SchnorrFacts.
Context `{Constants}.
Import Crypto.

(** C8 (constructors validate their argument).  [SchnorrProver(secret)]
    raises [ValueError] exactly when [secret] is outside the open interval
    (0, Q) and [SchnorrVerifier(public_key)] exactly when [public_key] is
    outside (0, P); inside, each returns the object holding the value. *)
Theorem schnorr_constructors_validate (secret public_key : Z) :
  (SchnorrProver_init secret
   = if (0 <? secret) && (secret <? Q)
     then Ok {| Crypto.secret := secret |}
     else Raise (ValueError "Secret must lie in the multiplicative subgroup"))
  /\ (raises (SchnorrProver_init secret) <-> ~ 0 < secret < Q)
  /\ (SchnorrVerifier_init public_key
      = if (0 <? public_key) && (public_key <? P)
        then Ok {| Crypto.public_key := public_key |}
        else Raise (ValueError "Invalid public key"))
  /\ (raises (SchnorrVerifier_init public_key) <-> ~ 0 < public_key < P).
Proof.
  unfold SchnorrProver_init, SchnorrVerifier_init, raises.
  destruct (Z.ltb_spec 0 secret), (Z.ltb_spec secret Q),
           (Z.ltb_spec 0 public_key), (Z.ltb_spec public_key P);
    cbn [andb negb];
    repeat split; try reflexivity;
    try (intros [e He]; discriminate He);
    try (intros Hc; exfalso; apply Hc; lia);
    try lia; try (intros _; eexists; reflexivity).
Qed.

(** [pow] succeeds at any exponent when the base is invertible. *)
Lemma pow_invertible_Ok (b e m : Z) :
  m <> 0 -> Z.gcd b m = 1 -> exists v, pow b e m = Ok v.
Proof.
  intros Hm Hg. unfold pow.
  destruct (Z.eqb_spec m 0); [contradiction|].
  destruct (e <? 0); [|eauto].
  rewrite Hg. cbn. eauto.
Qed.

(** C3 (the verifier's test).  For a commitment value in (0, P): (1) on a
    proof whose challenge and response are non-negative, as the fields of a
    [SchnorrProof] are, [verify] returns a Boolean, and the Boolean is
    [True] exactly when [G^response mod P] equals
    [(commitment * public_key^challenge mod P) mod P]; (2) on any proof at
    all [verify] returns a Boolean, without raising, as long as [G] and the
    public key are invertible modulo [P] (as they are for a prime [P] and a
    key the constructor accepted). *)
Theorem schnorr_verify_iff (self : SchnorrVerifier) (commitment_value : Z)
    (proof : SchnorrProof) :
  0 < commitment_value < P ->
  (0 <= challenge proof -> 0 <= response proof ->
   exists b,
     verify self commitment_value proof = Ok b
     /\ (b = true <->
         G ^ response proof mod P
         = (commitment_value * (public_key self ^ challenge proof mod P)) mod P))
  /\ (Z.gcd G P = 1 -> Z.gcd (public_key self) P = 1 ->
      exists b, verify self commitment_value proof = Ok b).
Proof.
  intros Hc. split.
  - intros Hch Hr. unfold verify.
    rewrite !pow_Ok by lia. cbn [bind].
    rewrite mod_Ok by lia. cbn [bind].
    eexists. split; [reflexivity|]. apply Z.eqb_eq.
  - intros HG Hpk. unfold verify.
    destruct (pow_invertible_Ok G (response proof) P) as (l & ->); [lia|assumption|].
    destruct (pow_invertible_Ok (public_key self) (challenge proof) P)
      as (e & ->); [lia|assumption|].
    cbn [bind]. rewrite mod_Ok by lia. cbn [bind]. eauto.
Qed.

(** Deriving the public key of a secret in (0, Q) gives a value in (0, P). *)
Lemma derive_public_key_in_range (x : Z) :
  group_ok -> 0 < x < Q ->
  exists y, derive_public_key x = Ok y /\ y = G ^ x mod P /\ 0 < y < P.
Proof.
  intros Hg Hx. pose proof (group_ok_P Hg) as HP.
  exists (G ^ x mod P). unfold derive_public_key.
  destruct (Z.ltb_spec 0 x), (Z.ltb_spec x Q); try lia. cbn [andb negb].
  rewrite pow_Ok by lia. split; [reflexivity|]. split; [reflexivity|].
  split; [apply G_pow_nonzero; auto; lia | apply Z.mod_pos_bound; lia].
Qed.

End SchnorrFacts.

(* ================================================================== *)
(** * Round orchestration *)
(* ================================================================== *)

Section AuthFacts.
Context `{Constants} `{Hashlib}.
Import Crypto.

(** One honest round, at a given nonce and challenge. *)
Lemma honest_round (x nonce ch : Z) :
  group_ok -> 0 < x < Q -> 1 <= nonce <= Q - 1 -> 0 <= ch < 2 ^ CHALLENGE_BITS ->
  let com := {| commitment := G ^ nonce mod P; nonce := nonce |} in
  let proof := {| challenge := ch; response := (nonce + ch * x) mod Q |} in
  SchnorrProver_init x = Ok {| secret := x |}
  /\ SchnorrVerifier_init (G ^ x mod P) = Ok {| public_key := G ^ x mod P |}
  /\ prove {| secret := x |} ch com = Ok proof
  /\ verify {| public_key := G ^ x mod P |} (commitment com) proof = Ok true.
Proof.
  intros Hg Hx Hn Hch com proof.
  pose proof (group_ok_P Hg) as HP. pose proof (group_ok_Q Hg) as HQ.
  pose proof (G_pow_nonzero x Hg ltac:(lia)) as Hpk.
  assert (Hpk' : G ^ x mod P < P) by (apply Z.mod_pos_bound; lia).
  assert (Hcb : 0 <= CHALLENGE_BITS).
  { destruct (Z.lt_ge_cases CHALLENGE_BITS 0) as [Hneg|]; [|assumption].
    rewrite Z.pow_neg_r in Hch by assumption. lia. }
  repeat split.
  - unfold SchnorrProver_init.
    destruct (Z.ltb_spec 0 x), (Z.ltb_spec x Q); try lia. reflexivity.
  - unfold SchnorrVerifier_init.
    destruct (Z.ltb_spec 0 (G ^ x mod P)), (Z.ltb_spec (G ^ x mod P) P); try lia.
    reflexivity.
  - unfold prove, challenge_in_range.
    destruct (Z.leb_spec 0 ch); [|lia]. cbn [negb].
    destruct (Z.leb_spec 0 CHALLENGE_BITS); [|lia].
    destruct (Z.ltb_spec ch (2 ^ CHALLENGE_BITS)); [|lia].
    cbn [bind andb negb]. rewrite mod_Ok by lia. reflexivity.
  - unfold verify. cbv beta iota delta [response challenge public_key commitment com proof].
    assert (0 <= (nonce + ch * x) mod Q) by (apply Z.mod_pos_bound; lia).
    rewrite !pow_Ok by lia. cbn [bind].
    rewrite mod_Ok by lia. cbn [bind].
    rewrite schnorr_identity by (auto; lia).
    now rewrite Z.eqb_refl.
Qed.

(** [run_single_round] with the right secret: two tape cells are read, and
    the round verifies. *)
Lemma run_single_round_honest (x : Z) (r : Rng) :
  group_ok -> 0 <= CHALLENGE_BITS -> 0 < x < Q ->
  exists proof commitment_value,
    run_single_round x (G ^ x mod P) r
    = Ok ((true, proof, commitment_value), advance r 2).
Proof.
  intros Hg Hcb Hx.
  pose proof (group_ok_P Hg) as HP.
  set (nonce := peek r 0 mod (Q - 1) + 1).
  set (ch := peek (advance r 1) 0 mod 2 ^ CHALLENGE_BITS).
  assert (Hn : 1 <= nonce <= Q - 1).
  { subst nonce. pose proof (Z.mod_pos_bound (peek r 0) (Q - 1)). lia. }
  assert (Hch : 0 <= ch < 2 ^ CHALLENGE_BITS).
  { subst ch. apply Z.mod_pos_bound. apply Z.pow_pos_nonneg; lia. }
  destruct (honest_round x nonce ch Hg Hx Hn Hch) as (Ep & Ev & Epr & Ever).
  do 2 eexists.
  unfold run_single_round, bindM, lift, ret, commit, random_nonce,
    random_challenge, randbelow, randbits, bindM, ret, lift.
  rewrite Ep, Ev.
  destruct (Z.leb_spec (Q - 1) 0); [lia|].
  fold nonce. rewrite pow_Ok by lia.
  destruct (Z.ltb_spec CHALLENGE_BITS 0); [lia|].
  fold ch. rewrite Epr. cbn [commitment] in Ever |- *. rewrite Ever.
  rewrite advance_advance. reflexivity.
Qed.

Lemma bindM_eq {A B} (m : M A) (k : A -> M B) (r : Rng) :
  bindM m k r
  = match m r with
    | Ok (a, r') => k a r'
    | Raise e => Raise e
    end.
Proof. reflexivity. Qed.

Lemma rounds_loop_outcomes (n : nat) (secret public_key : Z) :
  forall transcripts success_rounds r,
  Auth.rounds_loop n secret public_key transcripts success_rounds r
  = match Auth.round_outcomes n secret public_key r with
    | Ok (outcomes, r') =>
        Ok ((transcripts ++ map Auth.transcript_of outcomes,
             success_rounds
             + Z.of_nat (List.length (filter Auth.verified outcomes))), r')
    | Raise e => Raise e
    end.
Proof.
  induction n as [|n IH]; intros transcripts success_rounds r.
  - cbn. now rewrite app_nil_r, Z.add_0_r.
  - cbn [Auth.rounds_loop Auth.round_outcomes]. rewrite !bindM_eq.
    destruct (run_single_round secret public_key r) as [[[[ok proof] c] r1]|e];
      [|reflexivity].
    rewrite IH, bindM_eq.
    destruct (Auth.round_outcomes n secret public_key r1) as [[outcomes r2]|e];
      [|reflexivity].
    unfold ret.
    cbn [map filter Auth.transcript_of Auth.verified].
    rewrite <- app_assoc. cbn [app].
    destruct ok; cbn [List.length]; do 3 f_equal; lia.
Qed.

Lemma round_outcomes_length (n : nat) (secret public_key : Z) :
  forall r outcomes r',
  Auth.round_outcomes n secret public_key r = Ok (outcomes, r') ->
  List.length outcomes = n.
Proof.
  induction n as [|n IH]; intros r outcomes r' E.
  - injection E as <- _. reflexivity.
  - cbn [Auth.round_outcomes] in E. rewrite bindM_eq in E.
    destruct (run_single_round secret public_key r) as [[o r1]|e]; [|discriminate].
    rewrite bindM_eq in E.
    destruct (Auth.round_outcomes n secret public_key r1) as [[os r2]|e] eqn:E1;
      [|discriminate].
    injection E as <- _. cbn [List.length]. f_equal. eapply IH; eassumption.
Qed.

Lemma round_outcomes_honest (n : nat) (x : Z) :
  group_ok -> 0 <= CHALLENGE_BITS -> 0 < x < Q ->
  forall r, exists outcomes r',
    Auth.round_outcomes n x (G ^ x mod P) r = Ok (outcomes, r')
    /\ Forall (fun o => Auth.verified o = true) outcomes.
Proof.
  intros Hg Hcb Hx. induction n as [|n IH]; intros r.
  - exists [], r. split; [reflexivity | constructor].
  - destruct (run_single_round_honest x r Hg Hcb Hx) as (proof & c & E1).
    destruct (IH (advance r 2)) as (os & r' & E2 & Hall).
    exists ((true, proof, c) :: os), r'.
    cbn [Auth.round_outcomes]. rewrite bindM_eq, E1, bindM_eq, E2.
    split; [reflexivity | now constructor].
Qed.

Lemma all_verified_count {A} (f : A -> bool) (l : list A) :
  List.length (filter f l) = List.length l <-> Forall (fun o => f o = true) l.
Proof.
  induction l as [|a l IH]; cbn [filter List.length].
  - split; [constructor | reflexivity].
  - pose proof (filter_length_le f l).
    destruct (f a) eqn:Ea; cbn [List.length]; split.
    + intros E. constructor; [assumption | apply IH; lia].
    + intros Hall. inversion Hall; subst. f_equal. now apply IH.
    + lia.
    + intros Hall. inversion Hall; congruence.
Qed.

(** What [authenticate] returns, in terms of the rounds it ran. *)
Lemma authenticate_Ok (store : Store.UserStore) (identifier : string)
    (secret : Z) (use_alias : bool) (r : Rng) (res : Auth.AuthResult) (r' : Rng) :
  0 <= ROUNDS ->
  Auth.authenticate store identifier secret use_alias r = Ok (res, r') ->
  exists record outcomes,
    Auth._resolve_record store identifier use_alias = Ok (Some record)
    /\ Auth.round_outcomes (Z.to_nat ROUNDS) secret (Store.public_key record) r
       = Ok (outcomes, r')
    /\ Auth.rounds res = map Auth.transcript_of outcomes
    /\ (Auth.success res = true
        <-> Forall (fun o => Auth.verified o = true) outcomes).
Proof.
  intros HR E. unfold Auth.authenticate in E. rewrite bindM_eq in E.
  unfold lift in E.
  destruct (Auth._resolve_record store identifier use_alias) as [[record|]|e];
    try discriminate.
  rewrite bindM_eq, rounds_loop_outcomes in E.
  destruct (Auth.round_outcomes (Z.to_nat ROUNDS) secret
              (Store.public_key record) r) as [[outcomes r1]|e] eqn:Eo;
    [|discriminate].
  unfold ret in E. injection E as <- <-. exists record, outcomes.
  split; [reflexivity|]. split; [exact Eo|]. split; [reflexivity|].
  cbn [Auth.success].
  apply round_outcomes_length in Eo.
  rewrite <- all_verified_count, Z.eqb_eq. lia.
Qed.

(** What a round that returned has done: the nonce was read from the first
    tape cell and the challenge from the second, both in range; the
    commitment is [G] to the nonce, the proof is the prover's answer and
    the flag is the verifier's verdict on the two. *)
Lemma run_single_round_inv (x pk : Z) (r r1 : Rng) (ok : bool)
    (proof : SchnorrProof) (c : Z) :
  P <> 0 ->
  run_single_round x pk r = Ok ((ok, proof, c), r1) ->
  let n := peek r 0 mod (Q - 1) + 1 in
  let ch := peek r 1 mod 2 ^ CHALLENGE_BITS in
  r1 = advance r 2
  /\ 0 < x < Q /\ 0 < pk < P
  /\ 1 <= n <= Q - 1
  /\ 0 <= ch < 2 ^ CHALLENGE_BITS
  /\ c = G ^ n mod P
  /\ prove {| secret := x |} ch {| commitment := c; nonce := n |} = Ok proof
  /\ verify {| public_key := pk |} c proof = Ok ok.
Proof.
  intros HP E n ch.
  unfold run_single_round in E. rewrite bindM_eq in E.
  unfold lift at 1, SchnorrProver_init in E.
  destruct (Z.ltb_spec 0 x), (Z.ltb_spec x Q); cbn [andb negb] in E;
    try discriminate.
  rewrite bindM_eq in E. unfold lift at 1, SchnorrVerifier_init in E.
  destruct (Z.ltb_spec 0 pk), (Z.ltb_spec pk P); cbn [andb negb] in E;
    try discriminate.
  rewrite bindM_eq in E.
  unfold commit, random_nonce in E. rewrite !bindM_eq in E.
  unfold randbelow in E.
  destruct (Z.leb_spec (Q - 1) 0); [discriminate|].
  assert (Hn : 1 <= n <= Q - 1).
  { subst n. pose proof (Z.mod_pos_bound (peek r 0) (Q - 1)). lia. }
  unfold ret at 1 in E. fold n in E.
  unfold lift at 1 in E. rewrite pow_Ok in E by lia.
  unfold ret at 1 in E. rewrite bindM_eq in E.
  unfold random_challenge, randbits in E.
  destruct (Z.ltb_spec CHALLENGE_BITS 0); [discriminate|].
  rewrite bindM_eq in E. cbv beta iota in E.
  rewrite peek_advance in E. cbn [Nat.add] in E. fold ch in E.
  assert (Hch : 0 <= ch < 2 ^ CHALLENGE_BITS).
  { subst ch. apply Z.mod_pos_bound, Z.pow_pos_nonneg; lia. }
  rewrite bindM_eq in E. unfold lift at 1 in E.
  destruct (prove {| secret := x |} ch
              {| commitment := G ^ n mod P; nonce := n |})
    as [proof0|e] eqn:Epr; [|discriminate].
  rewrite bindM_eq in E. unfold lift at 1 in E. cbn [commitment] in E.
  destruct (verify {| public_key := pk |} (G ^ n mod P) proof0)
    as [ok0|e] eqn:Ever; [|discriminate].
  unfold ret in E. rewrite advance_advance in E.
  injection E as <- <- <- <-.
  repeat split; auto; lia.
Qed.

(** The rounds of a login attempt that returned, one by one: round [k]
    read the tape cells [2k] and [2k + 1]. *)
Lemma round_outcomes_inv (x pk : Z) :
  P <> 0 ->
  forall n r outcomes r',
  Auth.round_outcomes n x pk r = Ok (outcomes, r') ->
  r' = advance r (2 * n)
  /\ forall k ok proof c,
       nth_error outcomes k = Some (ok, proof, c) ->
       let nonce := peek r (2 * k) mod (Q - 1) + 1 in
       let ch := peek r (2 * k + 1) mod 2 ^ CHALLENGE_BITS in
       1 <= nonce <= Q - 1
       /\ 0 <= ch < 2 ^ CHALLENGE_BITS
       /\ c = G ^ nonce mod P
       /\ prove {| secret := x |} ch {| commitment := c; nonce := nonce |}
          = Ok proof
       /\ verify {| public_key := pk |} c proof = Ok ok.
Proof.
  intros HP. induction n as [|n IH]; intros r outcomes r' E.
  - injection E as <- <-. split.
    + unfold advance. destruct r. cbn. f_equal. lia.
    + intros [|k]; discriminate.
  - cbn [Auth.round_outcomes] in E. rewrite bindM_eq in E.
    destruct (run_single_round x pk r) as [[[[ok0 proof0] c0] r1]|e] eqn:E1;
      [|discriminate].
    rewrite bindM_eq in E.
    destruct (Auth.round_outcomes n x pk r1) as [[os r2]|e] eqn:E2;
      [|discriminate].
    unfold ret in E. injection E as <- <-.
    apply run_single_round_inv in E1 as (-> & _ & _ & Hn & Hch & Hc & Hp & Hv);
      [|assumption].
    apply IH in E2 as [-> Hrest]. split.
    + rewrite advance_advance. f_equal. lia.
    + intros [|k] ok proof c Hk.
      * injection Hk as <- <- <-. cbn [Nat.mul Nat.add]. auto.
      * cbn [nth_error] in Hk. specialize (Hrest k ok proof c Hk).
        rewrite !peek_advance in Hrest.
        replace (2 + 2 * k)%nat with (2 * S k)%nat in Hrest by lia.
        replace (2 + (2 * k + 1))%nat with (2 * S k + 1)%nat in Hrest by lia.
        exact Hrest.
Qed.

Lemma Forall_nth_error {A} (Q0 : A -> Prop) (l : list A) :
  Forall Q0 l <-> forall k a, nth_error l k = Some a -> Q0 a.
Proof.
  split.
  - intros Hall k a Hk. apply nth_error_In in Hk.
    rewrite Forall_forall in Hall. auto.
  - intros Hnth. apply Forall_forall. intros a Hin.
    apply In_nth_error in Hin as [k Hk]. eauto.
Qed.

(** C4 (rounds and their aggregate).  Round [k] of a login attempt that
    starts at the entropy [r] is the triple [run_single_round] hands back
    after reading the tape cells [2k] (the nonce, in [1, Q-1]) and
    [2k + 1] (the challenge, in [0, 2^CHALLENGE_BITS)): its commitment is
    [G] to the nonce, its proof is what [prove] answers to the challenge,
    and its flag is what [verify] returns on that commitment and proof.
    (1) With a secret [x] in (0, Q) and the public key [G^x mod P], a round
    at any nonce in [1, Q-1] and any challenge in [0, 2^CHALLENGE_BITS)
    verifies.  (2) [authenticate] then runs exactly [ROUNDS] such rounds,
    whatever the entropy; in each of them [verify] returns [True], and the
    success flag is [True].  (3) For any secret, when [authenticate]
    returns it has run exactly [ROUNDS] such rounds, and its success flag
    is [True] exactly when [verify] returned [True] in every one of
    them. *)
Theorem schnorr_rounds_aggregate :
  let round_at (x pk : Z) (r : Rng) (k : nat) (o : bool * SchnorrProof * Z) :=
    let '(ok, proof, c) := o in
    let nonce := peek r (2 * k) mod (Q - 1) + 1 in
    let ch := peek r (2 * k + 1) mod 2 ^ CHALLENGE_BITS in
    1 <= nonce <= Q - 1
    /\ 0 <= ch < 2 ^ CHALLENGE_BITS
    /\ c = G ^ nonce mod P
    /\ prove {| secret := x |} ch {| commitment := c; nonce := nonce |}
       = Ok proof
    /\ verify {| public_key := pk |} c proof = Ok ok in
  group_ok -> 0 <= CHALLENGE_BITS -> 0 <= ROUNDS ->
  (forall x nonce ch,
     0 < x < Q -> 1 <= nonce <= Q - 1 -> 0 <= ch < 2 ^ CHALLENGE_BITS ->
     exists prover verifier proof,
       SchnorrProver_init x = Ok prover
       /\ SchnorrVerifier_init (G ^ x mod P) = Ok verifier
       /\ prove prover ch {| commitment := G ^ nonce mod P; nonce := nonce |}
          = Ok proof
       /\ verify verifier (G ^ nonce mod P) proof = Ok true)
  /\ (forall store identifier use_alias r x record,
        0 < x < Q ->
        Auth._resolve_record store identifier use_alias = Ok (Some record) ->
        Store.public_key record = G ^ x mod P ->
        exists outcomes r',
          Auth.round_outcomes (Z.to_nat ROUNDS) x (Store.public_key record) r
          = Ok (outcomes, r')
          /\ List.length outcomes = Z.to_nat ROUNDS
          /\ Forall (fun o => Auth.verified o = true) outcomes
          /\ Auth.authenticate store identifier x use_alias r
             = Ok ({| Auth.credential_id := Store.credential_id record;
                      Auth.alias := Store.alias record;
                      Auth.rounds := map Auth.transcript_of outcomes;
                      Auth.success := true |}, r')
          /\ r' = advance r (2 * Z.to_nat ROUNDS)
          /\ (forall k o, nth_error outcomes k = Some o ->
                round_at x (Store.public_key record) r k o)
          /\ (forall k ok proof c,
                nth_error outcomes k = Some (ok, proof, c) ->
                verify {| public_key := Store.public_key record |} c proof
                = Ok true))
  /\ (forall store identifier secret use_alias r res r',
        Auth.authenticate store identifier secret use_alias r = Ok (res, r') ->
        exists record outcomes,
          Auth._resolve_record store identifier use_alias = Ok (Some record)
          /\ Auth.round_outcomes (Z.to_nat ROUNDS) secret
               (Store.public_key record) r = Ok (outcomes, r')
          /\ Auth.rounds res = map Auth.transcript_of outcomes
          /\ (Auth.success res = true
              <-> Forall (fun o => Auth.verified o = true) outcomes)
          /\ List.length outcomes = Z.to_nat ROUNDS
          /\ r' = advance r (2 * Z.to_nat ROUNDS)
          /\ (forall k o, nth_error outcomes k = Some o ->
                round_at secret (Store.public_key record) r k o)
          /\ (Auth.success res = true
              <-> forall k ok proof c,
                    nth_error outcomes k = Some (ok, proof, c) ->
                    verify {| public_key := Store.public_key record |} c proof
                    = Ok true)).
Proof.
  intros round_at Hg Hcb HR.
  pose proof (group_ok_P Hg) as HP.
  assert (HP0 : P <> 0) by lia.
  assert (Hat : forall x pk n r outcomes r',
            Auth.round_outcomes n x pk r = Ok (outcomes, r') ->
            r' = advance r (2 * n)
            /\ forall k o, nth_error outcomes k = Some o -> round_at x pk r k o).
  { intros x pk n r outcomes r' Eo.
    destruct (round_outcomes_inv x pk HP0 n r outcomes r' Eo) as [-> Hk].
    split; [reflexivity|]. intros k [[ok proof] c] Ek. exact (Hk k ok proof c Ek). }
  split; [|split].
  - intros x nonce ch Hx Hn Hch.
    destruct (honest_round x nonce ch Hg Hx Hn Hch) as (Ep & Ev & Epr & Ever).
    eauto 10.
  - intros store identifier use_alias r x record Hx Eres Epk.
    rewrite Epk.
    destruct (round_outcomes_honest (Z.to_nat ROUNDS) x Hg Hcb Hx r)
      as (outcomes & r' & Eo & Hall).
    exists outcomes, r'. split; [exact Eo|].
    pose proof (round_outcomes_length _ _ _ _ _ _ Eo) as Hlen.
    destruct (Hat _ _ _ _ _ _ Eo) as [Hr' Hrounds].
    split; [exact Hlen|]. split; [exact Hall|].
    split; [|split; [exact Hr'|split; [exact Hrounds|]]].
    + unfold Auth.authenticate. rewrite bindM_eq. unfold lift. rewrite Eres.
      rewrite bindM_eq, rounds_loop_outcomes, Epk, Eo.
      unfold ret. cbn [app]. do 3 f_equal.
      apply all_verified_count in Hall. apply Z.eqb_eq. lia.
    + intros k ok proof c Ek.
      pose proof (Hrounds k _ Ek) as (_ & _ & _ & _ & Hv).
      rewrite Forall_nth_error in Hall. specialize (Hall k _ Ek).
      cbn [Auth.verified] in Hall. now subst ok.
  - intros store identifier secret use_alias r res r' E.
    destruct (authenticate_Ok _ _ _ _ _ _ _ HR E)
      as (record & outcomes & Eres & Eo & Hrounds & Hsucc).
    exists record, outcomes.
    pose proof (round_outcomes_length _ _ _ _ _ _ Eo) as Hlen.
    destruct (Hat _ _ _ _ _ _ Eo) as [Hr' Hat'].
    split; [exact Eres|]. split; [exact Eo|]. split; [exact Hrounds|].
    split; [exact Hsucc|]. split; [exact Hlen|]. split; [exact Hr'|].
    split; [exact Hat'|].
    rewrite Hsucc, Forall_nth_error. split.
    + intros Hall k ok proof c Ek.
      pose proof (Hat' k _ Ek) as (_ & _ & _ & _ & Hv).
      specialize (Hall k _ Ek). cbn [Auth.verified] in Hall. now subst ok.
    + intros Hall k [[ok proof] c] Ek. cbn [Auth.verified].
      pose proof (Hat' k _ Ek) as (_ & _ & _ & _ & Hv).
      specialize (Hall k ok proof c Ek). congruence.
Qed.

End AuthFacts.

(* ================================================================== *)
(** * The theorems at the small instance *)
(* ================================================================== *)

Section AtSmall.
Import Small.
Import Richens.

Lemma small_group_ok : group_ok.
Proof. repeat split. Defined.

Lemma small_no_collision (m1 m2 : bytes) : no_collision 32 m1 m2.
Proof. intros E. exact E. Defined.

Lemma small_integrity : integrity Small.capsule.
Proof. split; reflexivity. Defined.

(** C1 at essence [Small.essence], context ["test-context"], challenge 5. *)
Lemma richens_round_trip_witness :
  group_ok /\ 0 < 5 < Q
  /\ exists capsule proof,
       mint_capsule Small.essence "test-context" = Ok capsule
       /\ respond_to_challenge Small.essence 5 "test-context" = Ok proof
       /\ verify_attestation capsule 5 proof = Ok true.
Proof.
  split; [exact small_group_ok|].
  split; [split; reflexivity|].
  apply (richens_round_trip Small.essence "test-context" 5 small_group_ok).
  split; reflexivity.
Defined.

(** C2 as stated fails: the proof made for challenge 5 is accepted at
    challenge 16 = 5 + Q. *)
Lemma proof_accepted_at_another_challenge :
  mint_capsule Small.essence "test-context" = Ok Small.capsule
  /\ respond_to_challenge Small.essence 5 "test-context" = Ok Small.proof
  /\ (5 =? 16) = false
  /\ verify_attestation Small.capsule 16 Small.proof = Ok true.
Proof. repeat split. Qed.

(** C2 as amended, at challenges 5 and 6. *)
Lemma proof_bound_to_challenge_residue_witness :
  5 mod Q <> 6 mod Q
  /\ verify_attestation Small.capsule 6 Small.proof = Ok false.
Proof.
  assert (Hne : 5 mod Q <> 6 mod Q) by discriminate.
  split; [exact Hne|].
  apply (proof_bound_to_challenge_residue Small.essence "test-context" 5 6
           Small.capsule Small.proof);
    try reflexivity; [exact Hne|].
  intros hA hB _ _. apply small_no_collision.
Defined.

(** C3 at public key 8 = 2^3, commitment 16 = 2^4, challenge 5 and
    response 8 = (4 + 5 * 3) mod 11. *)
Lemma schnorr_verify_iff_witness :
  0 < 16 < P
  /\ exists b,
       Crypto.verify {| Crypto.public_key := 8 |} 16
         {| Crypto.challenge := 5; Crypto.response := 8 |} = Ok b
       /\ (b = true <-> G ^ 8 mod P = (16 * (8 ^ 5 mod P)) mod P).
Proof.
  assert (Hc : 0 < 16 < P) by (split; reflexivity).
  split; [exact Hc|].
  apply (proj1 (schnorr_verify_iff {| Crypto.public_key := 8 |} 16
                  {| Crypto.challenge := 5; Crypto.response := 8 |} Hc));
    discriminate.
Defined.

(** C4 at secret 3 and the stored public key 8 = 2^3. *)
Lemma schnorr_rounds_aggregate_witness :
  exists outcomes r',
    Auth.round_outcomes (Z.to_nat ROUNDS) 3 8 Small.rng = Ok (outcomes, r')
    /\ List.length outcomes = Z.to_nat ROUNDS
    /\ Forall (fun o => Auth.verified o = true) outcomes
    /\ Auth.authenticate Small.store "alice" 3 true Small.rng
       = Ok ({| Auth.credential_id := "id-1";
                Auth.alias := Some "alice";
                Auth.rounds := map Auth.transcript_of outcomes;
                Auth.success := true |}, r')
    /\ r' = advance Small.rng (2 * Z.to_nat ROUNDS)
    /\ (forall k o, nth_error outcomes k = Some o ->
          let '(ok, proof, c) := o in
          let nonce := peek Small.rng (2 * k) mod (Q - 1) + 1 in
          let ch := peek Small.rng (2 * k + 1) mod 2 ^ CHALLENGE_BITS in
          1 <= nonce <= Q - 1
          /\ 0 <= ch < 2 ^ CHALLENGE_BITS
          /\ c = G ^ nonce mod P
          /\ Crypto.prove {| Crypto.secret := 3 |} ch
               {| Crypto.commitment := c; Crypto.nonce := nonce |} = Ok proof
          /\ Crypto.verify {| Crypto.public_key := 8 |} c proof = Ok ok)
    /\ (forall k ok proof c,
          nth_error outcomes k = Some (ok, proof, c) ->
          Crypto.verify {| Crypto.public_key := 8 |} c proof = Ok true).
Proof.
  assert (Hcb : 0 <= CHALLENGE_BITS) by discriminate.
  assert (HR : 0 <= ROUNDS) by discriminate.
  assert (Hx : 0 < 3 < Q) by (split; reflexivity).
  exact (proj1 (proj2 (schnorr_rounds_aggregate small_group_ok Hcb HR))
           Small.store "alice" true Small.rng 3
           {| Store.credential_id := "id-1"; Store.public_key := 8;
              Store.alias := Some "alice" |}
           Hx eq_refl eq_refl).
Defined.

(** C5 at the dictionary of [Small.capsule]: as written it is read back;
    with the digit [d] of the third component replaced by [a] it is
    refused. *)
Lemma from_dict_checks_integrity_witness :
  (raises (from_dict (to_dict Small.capsule))
   <-> 12 <> 12 \/ "03020d746573742d636f6e74657874"%string
                   <> "03020d746573742d636f6e74657874"%string)
  /\ (let r := from_dict {| d_vector := ["0x3"; "0x2"; "0xa"]%string;
                            d_context := "test-context";
                            d_anchor := "0xc";
                            d_fingerprint := "03020d746573742d636f6e74657874" |} in
      r = Raise anchor_mismatch \/ r = Raise fingerprint_mismatch).
Proof.
  split.
  - exact (proj1 (proj1 from_dict_checks_integrity
                    (to_dict Small.capsule) [3; 2; 13] 12 12
                    "03020d746573742d636f6e74657874"
                    eq_refl eq_refl eq_refl eq_refl)).
  - apply (proj2 (proj2 from_dict_checks_integrity)
             Small.capsule [3; 2] [] 13 [] [] "d"%char "a"%char 13%N 10%N
             small_integrity eq_refl eq_refl eq_refl eq_refl);
      [discriminate|].
    intros v' h h' _ _ _. apply small_no_collision.
Defined.

(** C6 at [Small.capsule] with its context replaced. *)
Lemma tampered_context_rejected_witness :
  "tampered-context"%string <> "test-context"%string
  /\ verify_attestation
       {| vector := vector Small.capsule; context := "tampered-context";
          anchor := anchor Small.capsule;
          fingerprint := fingerprint Small.capsule |}
       5 Small.proof
     = Ok false.
Proof.
  assert (Hne : "tampered-context"%string <> "test-context"%string)
    by discriminate.
  split; [exact Hne|].
  apply (tampered_context_rejected Small.essence "test-context"
           "tampered-context" Small.capsule 5 Small.proof);
    try reflexivity; [exact Hne|].
  intros h h' _ _. apply small_no_collision.
Defined.

(** C7 at 64 requested bits: the first candidate, 5, is accepted. *)
Lemma issue_challenge_in_range_witness :
  issue_challenge 10 64 Small.rng = Some (Ok (5, advance Small.rng 1))
  /\ 0 < 5 < Q.
Proof.
  assert (E : issue_challenge 10 64 Small.rng
              = Some (Ok (5, advance Small.rng 1))) by reflexivity.
  split; [exact E|].
  exact (proj1 (proj1 (issue_challenge_in_range 64 Small.rng) 10%nat 5
                  (advance Small.rng 1) E)).
Defined.

(** C9 at challenges 5 and 16. *)
Lemma challenge_only_through_residue_witness :
  5 mod Q = 16 mod Q
  /\ respond_to_challenge Small.essence 5 "test-context"
     = respond_to_challenge Small.essence 16 "test-context"
  /\ verify_attestation Small.capsule 5 Small.proof
     = verify_attestation Small.capsule 16 Small.proof.
Proof.
  assert (E : 5 mod Q = 16 mod Q) by reflexivity.
  split; [exact E|]. split.
  - exact (proj1 (challenge_only_through_residue 5 16 E)
             Small.essence "test-context").
  - exact (proj2 (challenge_only_through_residue 5 16 E)
             Small.capsule Small.proof).
Defined.

(** C10 at essence [Small.essence] and context ["test-context"]. *)
Lemma minted_capsule_round_trips_witness :
  0 < P /\ 0 < Q
  /\ exists capsule,
       mint_capsule Small.essence "test-context" = Ok capsule
       /\ integrity capsule
       /\ from_dict (to_dict capsule) = Ok capsule.
Proof.
  assert (HP : 0 < P) by reflexivity.
  assert (HQ : 0 < Q) by reflexivity.
  split; [exact HP|]. split; [exact HQ|].
  exact (minted_capsule_round_trips Small.essence "test-context" HP HQ).
Defined.

End AtSmall.

(* ================================================================== *)
(** * The order of [G] *)
(* ================================================================== *)

Section GroupOrder.
Context `{Constants}.

(** With [Q] prime, the order of [G] is [Q] itself: only the multiples of
    [Q] are exponents of 1. *)
Lemma G_pow_one (k : Z) :
  group_ok -> Z.prime Q -> 0 <= k -> G ^ k mod P = 1 -> k mod Q = 0.
Proof.
  intros Hg Hq Hk E.
  pose proof (group_ok_P Hg) as HP. pose proof (Z.prime_ge_2 _ Hq) as HQ.
  destruct Hg as (HG1 & HGP & HQ0 & Hord).
  assert (Hg : group_ok) by (repeat split; assumption).
  destruct (Z.eq_dec (k mod Q) 0) as [|Hr]; [assumption|exfalso].
  set (rr := k mod Q) in *.
  assert (Hrr : 0 < rr < Q) by (pose proof (Z.mod_pos_bound k Q); lia).
  assert (Er : G ^ rr mod P = 1) by (unfold rr; rewrite G_pow_mod_Q; auto).
  set (u := Z.invmod rr Q).
  assert (Hu : 0 <= u < Q).
  { unfold u. rewrite <- Z.mod_invmod. apply Z.mod_pos_bound. lia. }
  assert (Eu : (u * rr) mod Q = 1).
  { unfold u. apply Z.invmod_prime; [assumption|].
    rewrite Z.mod_small by lia. lia. }
  assert (E1 : G ^ (u * rr) mod P = 1).
  { rewrite Z.mul_comm, Z.pow_mul_r, Zpower_mod, Er by lia.
    rewrite Z.pow_1_l by lia. apply Z.mod_1_l. lia. }
  rewrite <- G_pow_mod_Q, Eu, Z.pow_1_r in E1 by (auto; nia).
  rewrite Z.mod_small in E1 by lia. lia.
Qed.

(** Powers of [G] with exponents below [Q] are distinct. *)
Lemma G_pow_inj (e1 e2 : Z) :
  group_ok -> Z.prime Q -> 0 <= e1 < Q -> 0 <= e2 < Q ->
  G ^ e1 mod P = G ^ e2 mod P -> e1 = e2.
Proof.
  assert (Hle : forall a b, group_ok -> Z.prime Q -> 0 <= a <= b -> b < Q ->
                  G ^ a mod P = G ^ b mod P -> a = b).
  { intros a b Hg Hq Hab Hb E.
    pose proof (group_ok_P Hg) as HP.
    assert (E1 : G ^ (b - a) mod P = 1).
    { assert (Ea : (G ^ (Q - a) * G ^ a) mod P = 1).
      { rewrite <- Z.pow_add_r by lia. replace (Q - a + a) with Q by lia.
        destruct Hg as (_ & _ & _ & Hord). exact Hord. }
      assert (Eb : (G ^ (Q - a) * G ^ b) mod P = 1).
      { rewrite Z.mul_mod, <- E, <- Z.mul_mod by lia. exact Ea. }
      replace b with (a + (b - a)) in Eb at 1 by lia.
      rewrite Z.pow_add_r, Z.mul_assoc in Eb by lia.
      rewrite Z.mul_mod, Ea, Z.mul_1_l, Z.mod_mod in Eb by lia.
      exact Eb. }
    apply G_pow_one in E1; try assumption; [|lia].
    rewrite Z.mod_small in E1 by lia. lia. }
  intros Hg Hq H1 H2 E.
  destruct (Z.le_ge_cases e1 e2).
  - apply Hle; auto; lia.
  - symmetry. apply Hle; auto; lia.
Qed.

End GroupOrder.

(* ================================================================== *)
(** * More of [zkpauth/crypto.py] *)
(* ================================================================== *)

Section CryptoMore.
Context `{Constants}.
Import Crypto.

Lemma derive_public_key_inv (z w : Z) :
  P <> 0 -> derive_public_key z = Ok w -> 0 < z < Q /\ w = G ^ z mod P.
Proof.
  intros HP Ez. unfold derive_public_key in Ez.
  destruct (Z.ltb_spec 0 z), (Z.ltb_spec z Q); cbn [andb negb] in Ez;
    try discriminate.
  rewrite pow_Ok in Ez by lia. injection Ez as <-. split; [lia|reflexivity].
Qed.

(** X1 (generated secrets).  [generate_secret] needs a group of order at
    least 2; what it draws is a secret that [SchnorrProver] accepts. *)
Theorem generated_secret_is_valid (r : Rng) :
  (1 < Q ->
   exists s,
     generate_secret r = Ok (s, advance r 1)
     /\ 0 < s < Q
     /\ SchnorrProver_init s = Ok {| secret := s |})
  /\ (Q <= 1 ->
      generate_secret r = Raise (ValueError "Upper bound must be positive.")).
Proof.
  unfold generate_secret, bindM, randbelow, ret. split; intros HQ.
  - destruct (Z.leb_spec (Q - 1) 0); [lia|].
    assert (Hb : 0 <= peek r 0 mod (Q - 1) < Q - 1)
      by (apply Z.mod_pos_bound; lia).
    eexists. split; [reflexivity|]. split; [lia|].
    unfold SchnorrProver_init.
    destruct (Z.ltb_spec 0 (peek r 0 mod (Q - 1) + 1)); [|lia].
    destruct (Z.ltb_spec (peek r 0 mod (Q - 1) + 1) Q); [|lia].
    reflexivity.
  - destruct (Z.leb_spec (Q - 1) 0); [reflexivity|lia].
Qed.

(** X2 (public keys).  [derive_public_key] refuses a secret outside (0, Q);
    inside, the key lies in (0, P), [SchnorrVerifier] accepts it, and, [Q]
    being prime, two secrets never share a key. *)
Theorem derive_public_key_valid_and_injective :
  group_ok ->
  (forall x, 0 < x < Q ->
     exists y,
       derive_public_key x = Ok y
       /\ 0 < y < P
       /\ SchnorrVerifier_init y = Ok {| public_key := y |})
  /\ (forall x, ~ 0 < x < Q ->
        derive_public_key x
        = Raise (ValueError "Secret must lie in the multiplicative subgroup"))
  /\ (Z.prime Q ->
      forall x x' y,
        derive_public_key x = Ok y -> derive_public_key x' = Ok y -> x = x').
Proof.
  intros Hg. pose proof (group_ok_P Hg) as HP. split; [|split].
  - intros x Hx.
    destruct (derive_public_key_in_range x Hg Hx) as (y & E & -> & Hy).
    exists (G ^ x mod P). split; [exact E|]. split; [exact Hy|].
    unfold SchnorrVerifier_init.
    destruct (Z.ltb_spec 0 (G ^ x mod P)); [|lia].
    destruct (Z.ltb_spec (G ^ x mod P) P); [|lia]. reflexivity.
  - intros x Hx. unfold derive_public_key.
    destruct (Z.ltb_spec 0 x), (Z.ltb_spec x Q); cbn [andb negb];
      try reflexivity. lia.
  - intros Hq x x' y E E'.
    assert (Hin : forall z w, derive_public_key z = Ok w ->
                    0 < z < Q /\ w = G ^ z mod P).
    { intros z w Ez. unfold derive_public_key in Ez.
      destruct (Z.ltb_spec 0 z), (Z.ltb_spec z Q); cbn [andb negb] in Ez;
        try discriminate.
      rewrite pow_Ok in Ez by lia. injection Ez as <-. split; [lia|reflexivity]. }
    destruct (Hin _ _ E) as [Hx ->]. destruct (Hin _ _ E') as [Hx' Ey].
    apply G_pow_inj; auto; lia.
Qed.

Lemma mod_eq_divide (a b q : Z) :
  0 < q -> (a mod q = b mod q <-> (q | a - b)).
Proof.
  intros Hq. split.
  - intros E. exists (a / q - b / q).
    pose proof (Z.div_mod a q ltac:(lia)). pose proof (Z.div_mod b q ltac:(lia)).
    nia.
  - intros [k Hk]. replace a with (b + k * q) by lia.
    apply Z.mod_add. lia.
Qed.

(** The verdict on a round whose prover holds [x'] while the public key
    is that of [x]. *)
Lemma wrong_secret_round (x x' nonce ch : Z) :
  group_ok -> Z.prime Q ->
  0 < x < Q -> 0 < x' < Q -> 0 <= nonce -> 0 <= ch < 2 ^ CHALLENGE_BITS ->
  exists proof b,
    prove {| secret := x' |} ch
      {| commitment := G ^ nonce mod P; nonce := nonce |} = Ok proof
    /\ verify {| public_key := G ^ x mod P |} (G ^ nonce mod P) proof = Ok b
    /\ (b = true <-> x' = x \/ ch mod Q = 0).
Proof.
  intros Hg Hq Hx Hx' Hn Hch.
  pose proof (group_ok_P Hg) as HP. pose proof (group_ok_Q Hg) as HQ.
  assert (Hcb : 0 <= CHALLENGE_BITS).
  { destruct (Z.lt_ge_cases CHALLENGE_BITS 0) as [Hneg|]; [|assumption].
    rewrite Z.pow_neg_r in Hch by assumption. lia. }
  assert (Hr : 0 <= (nonce + ch * x') mod Q < Q) by (apply Z.mod_pos_bound; lia).
  assert (Hr0 : 0 <= (nonce + ch * x) mod Q < Q) by (apply Z.mod_pos_bound; lia).
  exists {| challenge := ch; response := (nonce + ch * x') mod Q |}.
  eexists. split; [|split].
  - unfold prove, challenge_in_range.
    destruct (Z.leb_spec 0 ch); [|lia]. cbn [negb].
    destruct (Z.leb_spec 0 CHALLENGE_BITS); [|lia].
    destruct (Z.ltb_spec ch (2 ^ CHALLENGE_BITS)); [|lia].
    cbn [bind andb negb]. rewrite mod_Ok by lia. reflexivity.
  - unfold verify. cbv beta iota delta [response challenge public_key].
    rewrite !pow_Ok by lia. cbn [bind].
    rewrite mod_Ok by lia. cbn [bind]. reflexivity.
  - rewrite <- schnorr_identity by (auto; lia).
    rewrite Z.eqb_eq. split.
    + intros E. apply G_pow_inj in E; auto.
      apply mod_eq_divide in E; [|lia].
      replace (nonce + ch * x' - (nonce + ch * x)) with (ch * (x' - x)) in E by lia.
      apply Z.divide_prime_mul in E; [|assumption].
      destruct E as [E|[k Hk]].
      * right. apply Z.mod_divide; [lia|assumption].
      * left. assert (k = 0) by nia. lia.
    + intros [->|E]; [reflexivity|].
      f_equal. f_equal. apply mod_eq_divide; [lia|].
      apply Z.mod_divide in E; [|lia]. destruct E as [k ->].
      exists (k * (x' - x)). lia.
Qed.

(** X3 (a round with another secret).  A prover that holds another secret
    than the one behind the public key passes a round exactly when the
    challenge is a multiple of [Q] (the challenge 0 among them), [Q] being
    prime. *)
Theorem wrong_secret_passes_only_null_challenge (x x' nonce ch : Z) :
  group_ok -> Z.prime Q ->
  0 < x < Q -> 0 < x' < Q -> x' <> x ->
  0 <= nonce -> 0 <= ch < 2 ^ CHALLENGE_BITS ->
  exists proof b,
    prove {| secret := x' |} ch
      {| commitment := G ^ nonce mod P; nonce := nonce |} = Ok proof
    /\ verify {| public_key := G ^ x mod P |} (G ^ nonce mod P) proof = Ok b
    /\ (b = true <-> ch mod Q = 0).
Proof.
  intros Hg Hq Hx Hx' Hne Hn Hch.
  destruct (wrong_secret_round x x' nonce ch Hg Hq Hx Hx' Hn Hch)
    as (proof & b & Ep & Ev & Hb).
  exists proof, b. split; [exact Ep|]. split; [exact Ev|].
  rewrite Hb. split; [intros [E|E]; [contradiction|exact E] | auto].
Qed.

(** What [run_single_round] returns for a secret and a public key that are
    both in range: the nonce comes from the first tape cell, the challenge
    from the second. *)
Lemma run_single_round_Ok (x pk : Z) (r : Rng) :
  group_ok -> 0 <= CHALLENGE_BITS -> 0 < x < Q -> 0 < pk < P ->
  let n := peek r 0 mod (Q - 1) + 1 in
  let ch := peek r 1 mod 2 ^ CHALLENGE_BITS in
  let proof := {| challenge := ch; response := (n + ch * x) mod Q |} in
  1 <= n <= Q - 1
  /\ 0 <= ch < 2 ^ CHALLENGE_BITS
  /\ prove {| secret := x |} ch {| commitment := G ^ n mod P; nonce := n |}
     = Ok proof
  /\ exists ok,
       verify {| public_key := pk |} (G ^ n mod P) proof = Ok ok
       /\ run_single_round x pk r = Ok ((ok, proof, G ^ n mod P), advance r 2).
Proof.
  intros Hg Hcb Hx Hpk n ch proof.
  pose proof (group_ok_P Hg) as HP.
  assert (Hn : 1 <= n <= Q - 1).
  { subst n. pose proof (Z.mod_pos_bound (peek r 0) (Q - 1)). lia. }
  assert (Hch : 0 <= ch < 2 ^ CHALLENGE_BITS).
  { subst ch. apply Z.mod_pos_bound. apply Z.pow_pos_nonneg; lia. }
  assert (Hresp : 0 <= (n + ch * x) mod Q < Q) by (apply Z.mod_pos_bound; lia).
  assert (Epr : prove {| secret := x |} ch
                  {| commitment := G ^ n mod P; nonce := n |} = Ok proof).
  { unfold prove, challenge_in_range.
    destruct (Z.leb_spec 0 ch); [|lia]. cbn [negb].
    destruct (Z.leb_spec 0 CHALLENGE_BITS); [|lia].
    destruct (Z.ltb_spec ch (2 ^ CHALLENGE_BITS)); [|lia].
    cbn [bind andb negb nonce secret]. rewrite mod_Ok by lia. reflexivity. }
  assert (Ever : exists ok,
            verify {| public_key := pk |} (G ^ n mod P) proof = Ok ok).
  { unfold verify, proof. cbv beta iota delta [response challenge public_key].
    rewrite !pow_Ok by lia. cbn [bind]. rewrite mod_Ok by lia. cbn [bind]. eauto. }
  destruct Ever as (ok & Ever).
  split; [exact Hn|]. split; [exact Hch|]. split; [exact Epr|].
  exists ok. split; [exact Ever|].
  unfold run_single_round, bindM, lift, ret, commit, random_nonce,
    random_challenge, randbelow, randbits, bindM, ret, lift,
    SchnorrProver_init, SchnorrVerifier_init.
  destruct (Z.ltb_spec 0 x), (Z.ltb_spec x Q); try lia.
  destruct (Z.ltb_spec 0 pk), (Z.ltb_spec pk P); try lia.
  cbn [andb negb].
  destruct (Z.leb_spec (Q - 1) 0); [lia|].
  fold n. rewrite pow_Ok by lia.
  destruct (Z.ltb_spec CHALLENGE_BITS 0); [lia|].
  rewrite peek_advance. cbn [Nat.add]. fold ch.
  rewrite Epr. cbn [commitment]. rewrite Ever.
  rewrite advance_advance. reflexivity.
Qed.

(** X4 (the transcript of a round).  A round between a secret and a public
    key that are both in range, matching or not, reads two tape cells and
    hands back a transcript in the ranges of the data model, with the
    verifier's verdict on it; the nonce comes from the first cell, the
    challenge from the second. *)
Theorem run_single_round_transcript (x pk : Z) (r : Rng) :
  group_ok -> 0 <= CHALLENGE_BITS -> 0 < x < Q -> 0 < pk < P ->
  exists ok proof c,
    run_single_round x pk r = Ok ((ok, proof, c), advance r 2)
    /\ 0 < c < P
    /\ 0 <= challenge proof < 2 ^ CHALLENGE_BITS
    /\ 0 <= response proof < Q
    /\ verify {| public_key := pk |} c proof = Ok ok
    /\ c = G ^ (peek r 0 mod (Q - 1) + 1) mod P
    /\ challenge proof = peek r 1 mod 2 ^ CHALLENGE_BITS.
Proof.
  intros Hg Hcb Hx Hpk.
  pose proof (group_ok_P Hg) as HP.
  destruct (run_single_round_Ok x pk r Hg Hcb Hx Hpk)
    as (Hn & Hch & _ & ok & Ever & Erun).
  eexists ok, _, _. split; [exact Erun|].
  cbn [challenge response].
  split; [split; [apply G_pow_nonzero; auto; lia | apply Z.mod_pos_bound; lia]|].
  split; [exact Hch|]. split; [apply Z.mod_pos_bound; lia|].
  split; [exact Ever|]. split; reflexivity.
Qed.

End CryptoMore.

(* ================================================================== *)
(** * More of [zkpauth/store.py] *)
(* ================================================================== *)

Section StoreMore.
Context `{Constants} `{Hashlib}.
Import Store.

Lemma from_dict_to_dict_record (record : UserRecord) :
  from_dict (to_dict record)
  = Ok {| credential_id := credential_id record;
          public_key := public_key record;
          alias := stored_alias (alias record) |}.
Proof.
  unfold from_dict, to_dict.
  cbv beta iota delta [raw_credential_id raw_public_key raw_alias raw_username].
  rewrite int16_hex. reflexivity.
Qed.

(** X5 (stored records).  [UserRecord.from_dict] reads back what [to_dict]
    writes, whatever the public key, except that an empty alias comes back
    as no alias: the record itself is read back exactly when its alias is
    not empty. *)
Theorem user_record_round_trip (record : UserRecord) :
  from_dict (to_dict record)
  = Ok {| credential_id := credential_id record;
          public_key := public_key record;
          alias := stored_alias (alias record) |}
  /\ (from_dict (to_dict record) = Ok record
      <-> alias record <> Some EmptyString).
Proof.
  split; [apply from_dict_to_dict_record|].
  rewrite from_dict_to_dict_record.
  destruct record as [cid pk [[|c a]|]]; cbn; split;
    try congruence; try discriminate; intros; reflexivity.
Qed.

Lemma option_string_eqb_eq (a : option string) (b : string) :
  option_string_eqb a b = true <-> a = Some b.
Proof.
  destruct a as [a|]; cbn; [|split; discriminate].
  rewrite String.eqb_eq. split; [now intros -> | now intros [= ->]].
Qed.

(** A lookup in a store that was extended at the end: the old entries are
    tried first. *)
Lemma get_by_alias_app (store extra : UserStore) (a : string) :
  get_by_alias (store ++ extra) a
  = match get_by_alias store a with
    | Ok None => get_by_alias extra a
    | found => found
    end.
Proof.
  induction store as [|raw store IH]; [reflexivity|].
  cbn [app get_by_alias].
  destruct (option_string_eqb (or_ (raw_alias raw) (raw_username raw)) a).
  - destruct (from_dict raw); reflexivity.
  - exact IH.
Qed.

Lemma get_by_credential_app (store extra : UserStore) (c : string) :
  get_by_credential (store ++ extra) c
  = match get_by_credential store c with
    | Ok None => get_by_credential extra c
    | found => found
    end.
Proof.
  induction store as [|raw store IH]; [reflexivity|].
  cbn [app get_by_credential].
  match goal with |- bind ?x _ = _ => destruct x as [sid|e] end;
    cbn [bind]; [|reflexivity].
  destruct (option_string_eqb sid c).
  - destruct (from_dict raw); reflexivity.
  - exact IH.
Qed.

(** The alias check of [add_user] and the lookup agree. *)
Lemma alias_exists_iff (store : UserStore) (a : string) :
  alias_exists store a = false <-> get_by_alias store a = Ok None.
Proof.
  induction store as [|raw store IH]; [split; reflexivity|].
  cbn [alias_exists existsb get_by_alias].
  destruct (option_string_eqb (or_ (raw_alias raw) (raw_username raw)) a);
    cbn [orb].
  - split; [discriminate|]. destruct (from_dict raw); discriminate.
  - exact IH.
Qed.

(** In a store whose entries all carry a credential id, the credential
    check of [add_user] and the lookup agree. *)
Lemma credential_exists_iff (store : UserStore) (c : string) :
  Forall (fun raw => raw_credential_id raw <> None) store ->
  (credential_exists store c = false <-> get_by_credential store c = Ok None).
Proof.
  induction 1 as [|raw store Hid _ IH]; [split; reflexivity|].
  cbn [credential_exists existsb get_by_credential].
  destruct (raw_credential_id raw) as [sid|] eqn:Esid; [|contradiction].
  destruct (raw_public_key raw) eqn:Epk; cbn [bind option_string_eqb];
    destruct (String.eqb sid c); cbn [orb]; try exact IH;
    (split; [discriminate|]);
    destruct (from_dict raw); discriminate.
Qed.

(** The entry of a record at the end of a store that does not know its
    alias is the one a lookup by that alias finds. *)
Lemma get_by_alias_added (store : UserStore) (record : UserRecord) (a : string) :
  alias_exists store a = false -> alias record = Some a -> a <> EmptyString ->
  get_by_alias (store ++ [to_dict record]) a = Ok (Some record).
Proof.
  intros Hfree Ea Hne. apply alias_exists_iff in Hfree.
  rewrite get_by_alias_app, Hfree.
  cbn [get_by_alias to_dict raw_alias raw_username]. rewrite Ea.
  destruct a as [|c a]; [contradiction|].
  cbn [or_ option_string_eqb]. rewrite String.eqb_refl.
  change {| raw_credential_id := Some (credential_id record);
            raw_public_key := Some (hex (public_key record));
            raw_alias := Some (String c a);
            raw_username := None |}
    with (to_dict {| credential_id := credential_id record;
                     public_key := public_key record;
                     alias := Some (String c a) |}).
  rewrite from_dict_to_dict_record. cbn [bind stored_alias or_ alias
    credential_id public_key].
  destruct record as [cid pk al]. cbn in Ea |- *. now rewrite Ea.
Qed.

(** The record a lookup by credential id returns carries that id. *)
Lemma get_by_credential_id (store : UserStore) (c : string) (record : UserRecord) :
  get_by_credential store c = Ok (Some record) -> credential_id record = c.
Proof.
  induction store as [|raw store IH]; [discriminate|].
  cbn [get_by_credential]. intros E.
  apply bind_Ok in E as (sid & Esid & E).
  destruct (option_string_eqb sid c) eqn:Ec; [|now apply IH].
  apply option_string_eqb_eq in Ec. subst sid.
  apply bind_Ok in E as (rec' & Efrom & [= ->]).
  unfold from_dict in Efrom.
  destruct (raw_credential_id raw) as [c'|], (raw_public_key raw) as [pk_hex|];
    try discriminate.
  - injection Esid as ->.
    apply bind_Ok in Efrom as (pk & _ & Efrom).
    cbn [bind] in Efrom. now injection Efrom as <-.
  - apply bind_Ok in Esid as (pk & Epk & Esid).
    apply bind_Ok in Esid as (c' & Ec' & [= ->]).
    rewrite Epk in Efrom. cbn [bind] in Efrom. rewrite Ec' in Efrom.
    cbn [bind] in Efrom. now injection Efrom as <-.
Qed.

(** The entry of a record at the end of a store that does not know its
    credential id is the one a lookup by that id finds. *)
Lemma get_by_credential_added (store : UserStore) (record : UserRecord) :
  Forall (fun raw => raw_credential_id raw <> None) store ->
  credential_exists store (credential_id record) = false ->
  get_by_credential (store ++ [to_dict record]) (credential_id record)
  = Ok (Some {| credential_id := credential_id record;
                public_key := public_key record;
                alias := stored_alias (alias record) |}).
Proof.
  intros Hids Hfree.
  apply credential_exists_iff in Hfree; [|assumption].
  rewrite get_by_credential_app, Hfree.
  cbn [get_by_credential to_dict raw_credential_id raw_public_key bind
       option_string_eqb].
  rewrite String.eqb_refl.
  change {| raw_credential_id := Some (credential_id record);
            raw_public_key := Some (hex (public_key record));
            raw_alias := alias record;
            raw_username := None |} with (to_dict record).
  rewrite from_dict_to_dict_record. reflexivity.
Qed.

(** What a successful [add_user] has done. *)
Lemma add_user_Ok (store : UserStore) (username : option string)
    (secret : option Z) (r r' : Rng) (record : UserRecord) (s : Z)
    (store' : UserStore) :
  add_user store username secret r = Ok ((record, s, store'), r') ->
  store' = store ++ [to_dict record]
  /\ alias record = username
  /\ secret_or_generate secret r = Ok (s, r')
  /\ Crypto.derive_public_key s = Ok (public_key record)
  /\ _calculate_credential_id (public_key record) = Ok (credential_id record)
  /\ credential_exists store (credential_id record) = false
  /\ (forall u, username = Some u -> alias_exists store u = false).
Proof.
  intros E. unfold add_user in E.
  assert (Hreg :
    (secret_value <~ secret_or_generate secret ;;
     public_key <~ lift (Crypto.derive_public_key secret_value) ;;
     credential_id <~ lift (_calculate_credential_id public_key) ;;
     (if credential_exists store credential_id
      then lift (Raise (ValueError "Credential already registered"))
      else ret ({| credential_id := credential_id;
                   public_key := public_key;
                   alias := username |}, secret_value,
                store ++ [to_dict {| credential_id := credential_id;
                                     public_key := public_key;
                                     alias := username |}]))) r
    = Ok ((record, s, store'), r')
    /\ (forall u, username = Some u -> alias_exists store u = false)).
  { destruct username as [u|].
    - destruct (alias_exists store u) eqn:Eu; [discriminate|].
      split; [exact E|]. now intros ? [= <-].
    - split; [exact E | discriminate]. }
  clear E. destruct Hreg as [E Hfree].
  rewrite bindM_eq in E.
  destruct (secret_or_generate secret r) as [[s0 r0]|e]; [|discriminate].
  rewrite bindM_eq in E. unfold lift at 1 in E.
  destruct (Crypto.derive_public_key s0) as [pk|e] eqn:Epk; [|discriminate].
  rewrite bindM_eq in E. unfold lift at 1 in E.
  destruct (_calculate_credential_id pk) as [cid|e] eqn:Eid; [|discriminate].
  destruct (credential_exists store cid) eqn:Ecid; [discriminate|].
  unfold ret in E. injection E as <- <- <- <-.
  cbn [alias public_key credential_id]. repeat split; auto.
Qed.

(** X6 (lookup by alias after registration).  [add_user] appends one entry,
    and a lookup by the alias then returns the record just made; except for
    the empty alias, which is stored and never found. *)
Theorem add_user_then_get_by_alias (store : UserStore) (a : string)
    (secret : option Z) (r r' : Rng) (record : UserRecord) (s : Z)
    (store' : UserStore) :
  add_user store (Some a) secret r = Ok ((record, s, store'), r') ->
  store' = store ++ [to_dict record]
  /\ get_by_alias store' a
     = Ok (if String.eqb a "" then None else Some record).
Proof.
  intros E. apply add_user_Ok in E as (-> & Ea & _ & _ & _ & _ & Hfree).
  split; [reflexivity|].
  specialize (Hfree a eq_refl). apply alias_exists_iff in Hfree.
  rewrite get_by_alias_app, Hfree.
  cbn [get_by_alias to_dict raw_alias raw_username].
  rewrite Ea. destruct a as [|c a]; [reflexivity|].
  cbn [or_ option_string_eqb]. rewrite String.eqb_refl.
  rewrite from_dict_to_dict_record. cbn [bind].
  destruct record as [cid pk al]. cbn in Ea. subst al. reflexivity.
Qed.

(** X7 (aliases are not shared).  [add_user] refuses an alias with the
    "already exists" error exactly when a lookup by that alias does not come
    back empty. *)
Theorem add_user_refuses_known_alias (store : UserStore) (a : string)
    (secret : option Z) (r : Rng) :
  add_user store (Some a) secret r = Raise (alias_taken_error a)
  <-> get_by_alias store a <> Ok None.
Proof.
  rewrite <- alias_exists_iff. unfold add_user, alias_taken_error.
  destruct (alias_exists store a); [split; [discriminate | reflexivity]|].
  split; [|congruence]. intros E. exfalso. revert E.
  cbn [append].
  unfold bindM, lift, ret, secret_or_generate, Crypto.generate_secret, bindM,
    randbelow, ret, Crypto.derive_public_key, pow, _calculate_credential_id,
    to_bytes, bind.
  repeat match goal with
         | |- context [match ?x with _ => _ end] =>
             match type of x with
             | option _ => destruct x
             | Z => destruct x
             | bool => destruct x
             | sumbool _ _ => destruct x
             end
         end; discriminate.
Qed.

(** X8 (registration keeps the other users).  [add_user] changes no lookup
    that did not come back empty, and a lookup by another alias stays empty. *)
Theorem add_user_preserves_lookups (store : UserStore)
    (username : option string) (secret : option Z) (r r' : Rng)
    (record : UserRecord) (s : Z) (store' : UserStore) :
  add_user store username secret r = Ok ((record, s, store'), r') ->
  (forall b, get_by_alias store b <> Ok None ->
             get_by_alias store' b = get_by_alias store b)
  /\ (forall c, get_by_credential store c <> Ok None ->
                get_by_credential store' c = get_by_credential store c)
  /\ (forall b, get_by_alias store b = Ok None -> username <> Some b ->
                get_by_alias store' b = Ok None).
Proof.
  intros E. apply add_user_Ok in E as (-> & Ea & _). split; [|split].
  - intros b Hb. rewrite get_by_alias_app.
    destruct (get_by_alias store b) as [[?|]|?]; congruence.
  - intros c Hc. rewrite get_by_credential_app.
    destruct (get_by_credential store c) as [[?|]|?]; congruence.
  - intros b Hb Hne. rewrite get_by_alias_app, Hb.
    cbn [get_by_alias to_dict raw_alias raw_username]. rewrite Ea.
    destruct (option_string_eqb (or_ username None) b) eqn:Eb; [|reflexivity].
    exfalso. apply option_string_eqb_eq in Eb.
    destruct username as [[|c u]|]; cbn in Eb; congruence.
Qed.

(** X9 (lookup by credential after registration).  In a store whose entries
    all carry a credential id, a lookup by the credential id of the record
    [add_user] made returns that record (its alias as [from_dict] reads it). *)
Theorem add_user_then_get_by_credential (store : UserStore)
    (username : option string) (secret : option Z) (r r' : Rng)
    (record : UserRecord) (s : Z) (store' : UserStore) :
  Forall (fun raw => raw_credential_id raw <> None) store ->
  add_user store username secret r = Ok ((record, s, store'), r') ->
  get_by_credential store' (credential_id record)
  = Ok (Some {| credential_id := credential_id record;
                public_key := public_key record;
                alias := stored_alias (alias record) |}).
Proof.
  intros Hids E.
  apply add_user_Ok in E as (-> & _ & _ & _ & _ & Hfree & _).
  now apply get_by_credential_added.
Qed.

(** X10 (the secret at registration).  In [add_user], 0 counts as no secret;
    a secret that is given is the one returned, and no entropy is used; a
    secret outside (0, Q), 0 apart, is refused once the alias has passed. *)
Theorem add_user_secret (store : UserStore) (username : option string)
    (r : Rng) :
  add_user store username (Some 0) r = add_user store username None r
  /\ (forall x record s store' r',
        x <> 0 ->
        add_user store username (Some x) r = Ok ((record, s, store'), r') ->
        s = x /\ r' = r /\ 0 < x < Q)
  /\ (forall x,
        x <> 0 -> ~ 0 < x < Q ->
        (forall u, username = Some u -> get_by_alias store u = Ok None) ->
        add_user store username (Some x) r
        = Raise (ValueError "Secret must lie in the multiplicative subgroup")).
Proof.
  split; [reflexivity|]. split.
  - intros x record s store' r' Hx E.
    apply add_user_Ok in E as (_ & _ & Es & Epk & _).
    destruct x; [contradiction| |]; cbn in Es; injection Es as <- <-;
      (split; [reflexivity|]; split; [reflexivity|]);
      unfold Crypto.derive_public_key in Epk;
      match type of Epk with
      | context [negb ((0 <? ?z) && (?z <? Q))] =>
          destruct (Z.ltb_spec 0 z), (Z.ltb_spec z Q)
      end; cbn [andb negb] in Epk; try discriminate; lia.
  - intros x Hx Hout Hfree.
    assert (Ereg : forall k,
      (secret_value <~ secret_or_generate (Some x) ;;
       public_key <~ lift (Crypto.derive_public_key secret_value) ;;
       k public_key secret_value) r
      = (Raise (ValueError "Secret must lie in the multiplicative subgroup")
         : result (UserRecord * Z * UserStore * Rng))).
    { intros k. rewrite bindM_eq.
      assert (Es : secret_or_generate (Some x) r = Ok (x, r))
        by (destruct x; [contradiction|reflexivity|reflexivity]).
      rewrite Es, bindM_eq. unfold lift, Crypto.derive_public_key.
      destruct (Z.ltb_spec 0 x), (Z.ltb_spec x Q); cbn [andb negb];
        try reflexivity. lia. }
    unfold add_user. destruct username as [u|]; [|apply Ereg].
    specialize (Hfree u eq_refl). apply alias_exists_iff in Hfree.
    rewrite Hfree. apply Ereg.
Qed.

End StoreMore.

(* ================================================================== *)
(** * More of [zkpauth/auth.py] *)
(* ================================================================== *)

Section AuthMore.
Context `{Constants} `{Hashlib}.
Import Crypto.

(** [authenticate] with the secret behind the public key of the record
    the identifier resolves to. *)
Lemma authenticate_honest (store : Store.UserStore) (identifier : string)
    (use_alias : bool) (record : Store.UserRecord) (s : Z) (r : Rng) :
  group_ok -> 0 <= CHALLENGE_BITS -> 0 <= ROUNDS -> 0 < s < Q ->
  Auth._resolve_record store identifier use_alias = Ok (Some record) ->
  Store.public_key record = G ^ s mod P ->
  exists res r',
    Auth.authenticate store identifier s use_alias r = Ok (res, r')
    /\ Auth.success res = true
    /\ Auth.credential_id res = Store.credential_id record
    /\ Auth.alias res = Store.alias record
    /\ List.length (Auth.rounds res) = Z.to_nat ROUNDS.
Proof.
  intros Hg Hcb HR Hs Eres Epk.
  destruct (round_outcomes_honest (Z.to_nat ROUNDS) s Hg Hcb Hs r)
    as (outcomes & r' & Eo & Hall).
  pose proof (round_outcomes_length _ _ _ _ _ _ Eo) as Hlen.
  eexists _, r'.
  unfold Auth.authenticate. rewrite bindM_eq. unfold lift. rewrite Eres.
  rewrite bindM_eq, rounds_loop_outcomes, Epk, Eo. unfold ret.
  split; [reflexivity|].
  cbn [Auth.success Auth.credential_id Auth.alias Auth.rounds app].
  split; [|split; [reflexivity|split; [reflexivity|]]].
  - apply all_verified_count in Hall. apply Z.eqb_eq. lia.
  - now rewrite length_map.
Qed.

(** X11 (registration, then login).  The secret [register_user] hands back,
    read from its hexadecimal text, authenticates under the alias just
    registered, whatever the entropy, in [ROUNDS] rounds. *)
Theorem registered_user_authenticates (store : Store.UserStore) (a : string)
    (secret : option Z) (r r1 : Rng) (reg : Auth.Registration)
    (store' : Store.UserStore) :
  group_ok -> 0 <= CHALLENGE_BITS -> 0 <= ROUNDS -> a <> EmptyString ->
  Auth.register_user store (Some a) secret r = Ok ((reg, store'), r1) ->
  exists s,
    int16 (Auth.reg_secret reg) = Ok s
    /\ forall r2, exists res r3,
         Auth.authenticate store' a s true r2 = Ok (res, r3)
         /\ Auth.success res = true
         /\ Auth.credential_id res = Auth.reg_credential_id reg
         /\ Auth.alias res = Some a
         /\ List.length (Auth.rounds res) = Z.to_nat ROUNDS.
Proof.
  intros Hg Hcb HR Ha E.
  pose proof (group_ok_P Hg) as HP.
  unfold Auth.register_user in E. rewrite bindM_eq in E.
  destruct (Store.add_user store (Some a) secret r)
    as [[[[record s] st] r0]|e] eqn:Eadd; [|discriminate].
  unfold ret in E. injection E as <- <- <-.
  apply add_user_Ok in Eadd as (-> & Eal & _ & Epk & _ & _ & Hfree).
  apply derive_public_key_inv in Epk as [Hs Epk]; [|lia].
  exists s. cbn [Auth.reg_secret Auth.reg_credential_id].
  split; [apply int16_hex|]. intros r2.
  pose proof (get_by_alias_added store record a (Hfree a eq_refl) Eal Ha)
    as Eres.
  destruct (authenticate_honest _ a true record s r2 Hg Hcb HR Hs Eres Epk)
    as (res & r3 & Ea & Hok & Hcid & Hal & Hlen).
  exists res, r3. split; [exact Ea|]. split; [exact Hok|].
  split; [exact Hcid|]. split; [congruence | exact Hlen].
Qed.

(** The rounds of a prover that holds another secret than the one behind
    the public key: each is verified exactly when its challenge is a
    multiple of [Q]. *)
Lemma round_outcomes_impostor (x x' : Z) :
  group_ok -> Z.prime Q -> 0 <= CHALLENGE_BITS ->
  0 < x < Q -> 0 < x' < Q -> x' <> x ->
  forall n r, exists outcomes r',
    Auth.round_outcomes n x' (G ^ x mod P) r = Ok (outcomes, r')
    /\ Forall (fun o => Auth.verified o = true
                        <-> Auth.round_challenge o mod Q = 0) outcomes
    /\ Forall (fun o => 0 <= Auth.round_challenge o < 2 ^ CHALLENGE_BITS)
         outcomes.
Proof.
  intros Hg Hq Hcb Hx Hx' Hne.
  pose proof (group_ok_P Hg) as HP.
  assert (Hpk : 0 < G ^ x mod P < P).
  { split; [apply G_pow_nonzero; auto; lia | apply Z.mod_pos_bound; lia]. }
  induction n as [|n IH]; intros r.
  - exists [], r. split; [reflexivity|]. split; constructor.
  - destruct (run_single_round_Ok x' (G ^ x mod P) r Hg Hcb Hx' Hpk)
      as (Hn & Hch & Epr & ok & Ever & Erun).
    assert (Hn0 : 0 <= peek r 0 mod (Q - 1) + 1) by lia.
    destruct (wrong_secret_round x x' _ _ Hg Hq Hx Hx' Hn0 Hch)
      as (proof & b & Epr' & Ever' & Hb).
    rewrite Epr in Epr'. injection Epr' as <-.
    rewrite Ever in Ever'. injection Ever' as <-.
    destruct (IH (advance r 2)) as (os & r' & Eo & Hall & Hrange).
    eexists (_ :: os), r'.
    cbn [Auth.round_outcomes]. rewrite bindM_eq, Erun, bindM_eq, Eo.
    split; [reflexivity|]. split; constructor; try assumption.
    cbn [Auth.verified Auth.round_challenge challenge]. rewrite Hb.
    split; [intros [E|E]; [contradiction|exact E] | auto].
Qed.

(** X12 (login with another secret).  With another secret than the
    registered one, [authenticate] returns, and it reports success exactly
    when every challenge drawn was a multiple of [Q] (when the challenges
    are all below [Q], exactly when every challenge was 0). *)
Theorem impostor_needs_null_challenges (store : Store.UserStore)
    (identifier : string) (use_alias : bool) (record : Store.UserRecord)
    (x x' : Z) (r : Rng) :
  group_ok -> Z.prime Q -> 0 <= CHALLENGE_BITS -> 0 <= ROUNDS ->
  0 < x < Q -> 0 < x' < Q -> x' <> x ->
  Auth._resolve_record store identifier use_alias = Ok (Some record) ->
  Store.public_key record = G ^ x mod P ->
  exists outcomes r',
    Auth.round_outcomes (Z.to_nat ROUNDS) x' (G ^ x mod P) r = Ok (outcomes, r')
    /\ Auth.authenticate store identifier x' use_alias r
       = Ok ({| Auth.credential_id := Store.credential_id record;
                Auth.alias := Store.alias record;
                Auth.rounds := map Auth.transcript_of outcomes;
                Auth.success :=
                  forallb (fun o => Auth.round_challenge o mod Q =? 0) outcomes |},
             r')
    /\ (2 ^ CHALLENGE_BITS <= Q ->
        forallb (fun o => Auth.round_challenge o mod Q =? 0) outcomes
        = forallb (fun o => Auth.round_challenge o =? 0) outcomes).
Proof.
  intros Hg Hq Hcb HR Hx Hx' Hne Eres Epk.
  destruct (round_outcomes_impostor x x' Hg Hq Hcb Hx Hx' Hne
              (Z.to_nat ROUNDS) r) as (outcomes & r' & Eo & Hall & Hrange).
  pose proof (round_outcomes_length _ _ _ _ _ _ Eo) as Hlen.
  exists outcomes, r'. split; [exact Eo|]. split.
  - unfold Auth.authenticate. rewrite bindM_eq. unfold lift. rewrite Eres.
    rewrite bindM_eq, rounds_loop_outcomes, Epk, Eo. unfold ret.
    cbn [app]. do 3 f_equal.
    replace ROUNDS with (Z.of_nat (List.length outcomes)) by lia.
    rewrite Z.add_0_l. clear Hlen Eo Hrange.
    induction Hall as [|o os Ho _ IH]; [reflexivity|].
    cbn [forallb filter].
    pose proof (filter_length_le Auth.verified os) as Hle.
    destruct (Auth.verified o) eqn:Ev.
    + destruct Ho as [Ho _]. rewrite (Ho eq_refl), Z.eqb_refl. cbn [andb].
      rewrite <- IH. cbn [List.length].
      destruct (Z.eqb_spec (Z.of_nat (List.length (filter Auth.verified os)))
                  (Z.of_nat (List.length os)));
        destruct (Z.eqb_spec (Z.of_nat (S (List.length (filter Auth.verified os))))
                    (Z.of_nat (S (List.length os)))); try reflexivity; lia.
    + destruct (Z.eqb_spec (Auth.round_challenge o mod Q) 0) as [E|_].
      * destruct Ho as [_ Ho]. specialize (Ho E). discriminate.
      * cbn [andb List.length].
        destruct (Z.eqb_spec (Z.of_nat (List.length (filter Auth.verified os)))
                    (Z.of_nat (S (List.length os)))); [lia|reflexivity].
  - intros Hsmall. clear Eo Hall Hlen.
    induction Hrange as [|o os Ho _ IH]; [reflexivity|].
    cbn [forallb]. rewrite IH. f_equal.
    destruct (Z.eqb_spec (Auth.round_challenge o) 0) as [->|Hnz].
    + now rewrite Z.mod_0_l by lia.
    + rewrite Z.mod_small by lia. now apply Z.eqb_neq.
Qed.

(** X13 (where login stops).  An identifier that resolves to nothing is an
    unknown credential; with no round to run, any secret gives an empty
    transcript, and success exactly when [ROUNDS] is 0; with a round to run,
    a secret outside (0, Q) and then a stored public key outside (0, P) are
    refused by the first round. *)
Theorem authenticate_stops (store : Store.UserStore) (identifier : string)
    (secret : Z) (use_alias : bool) (r : Rng) :
  (Auth._resolve_record store identifier use_alias = Ok None ->
   Auth.authenticate store identifier secret use_alias r
   = Raise (ValueError "Unknown credential"))
  /\ forall record,
       Auth._resolve_record store identifier use_alias = Ok (Some record) ->
       (ROUNDS <= 0 ->
        Auth.authenticate store identifier secret use_alias r
        = Ok ({| Auth.credential_id := Store.credential_id record;
                 Auth.alias := Store.alias record;
                 Auth.rounds := [];
                 Auth.success := ROUNDS =? 0 |}, r))
       /\ (1 <= ROUNDS -> ~ 0 < secret < Q ->
           Auth.authenticate store identifier secret use_alias r
           = Raise (ValueError "Secret must lie in the multiplicative subgroup"))
       /\ (1 <= ROUNDS -> 0 < secret < Q ->
           ~ 0 < Store.public_key record < P ->
           Auth.authenticate store identifier secret use_alias r
           = Raise (ValueError "Invalid public key")).
Proof.
  split.
  - intros E. unfold Auth.authenticate. rewrite bindM_eq. unfold lift.
    now rewrite E.
  - intros record E.
    assert (Eauth : forall n, Z.to_nat ROUNDS = n ->
      Auth.authenticate store identifier secret use_alias r
      = (acc <~ Auth.rounds_loop n secret (Store.public_key record) [] 0 ;;
         let '(transcripts, success_rounds) := acc in
         ret {| Auth.credential_id := Store.credential_id record;
                Auth.alias := Store.alias record;
                Auth.rounds := transcripts;
                Auth.success := success_rounds =? ROUNDS |}) r).
    { intros n <-. unfold Auth.authenticate. rewrite bindM_eq. unfold lift.
      now rewrite E. }
    split; [|split].
    + intros HR. rewrite (Eauth 0%nat) by lia.
      cbn [Auth.rounds_loop]. rewrite bindM_eq. unfold ret.
      now rewrite Z.eqb_sym.
    + intros HR Hs. rewrite (Eauth (S (Z.to_nat (ROUNDS - 1)))) by lia.
      cbn [Auth.rounds_loop]. rewrite !bindM_eq.
      unfold run_single_round. rewrite bindM_eq.
      unfold lift, SchnorrProver_init.
      destruct (Z.ltb_spec 0 secret), (Z.ltb_spec secret Q); cbn [andb negb];
        try reflexivity. lia.
    + intros HR Hs Hpk. rewrite (Eauth (S (Z.to_nat (ROUNDS - 1)))) by lia.
      cbn [Auth.rounds_loop]. rewrite !bindM_eq.
      unfold run_single_round. rewrite !bindM_eq.
      unfold lift, SchnorrProver_init, SchnorrVerifier_init.
      destruct (Z.ltb_spec 0 secret), (Z.ltb_spec secret Q); try lia.
      cbn [andb negb].
      destruct (Z.ltb_spec 0 (Store.public_key record)),
               (Z.ltb_spec (Store.public_key record) P); cbn [andb negb];
        try reflexivity. lia.
Qed.

End AuthMore.

(* ================================================================== *)
(** * More of [zkpauth/richens.py] *)
(* ================================================================== *)

Section RichensMore.
Context `{Constants} `{Hashlib}.
Import Richens.

Lemma length_be_bytes (len : nat) : forall v, List.length (be_bytes len v) = len.
Proof.
  induction len as [|len IH]; intros v; [reflexivity|].
  cbn [be_bytes]. rewrite length_app, IH. cbn [List.length]. lia.
Qed.

(** X14 (the byte encoding).  [_int_to_bytes] refuses a negative value; any
    other value comes back from its bytes, and no shorter encoding could
    hold it: there is one byte, or the value needs them all. *)
Theorem int_to_bytes_shortest (value : Z) :
  (value < 0 -> _int_to_bytes value = Raise OverflowError)
  /\ (0 <= value ->
      exists bs,
        _int_to_bytes value = Ok bs
        /\ from_bytes bs = value
        /\ (List.length bs = 1%nat
            \/ 256 ^ (Z.of_nat (List.length bs) - 1) <= value)).
Proof.
  split.
  - intros Hv. unfold _int_to_bytes, to_bytes.
    destruct (Z.ltb_spec (Z.max 1 ((bit_length value + 7) / 8)) 0); [lia|].
    destruct (Z.ltb_spec value 0); [reflexivity | lia].
  - intros Hv. destruct (int_to_bytes_Ok value Hv) as (bs & E & Efrom).
    exists bs. split; [exact E|]. split; [exact Efrom|].
    unfold _int_to_bytes, to_bytes in E.
    set (n := Z.max 1 ((bit_length value + 7) / 8)) in *.
    destruct (n <? 0); [discriminate|].
    destruct (value <? 0); [discriminate|].
    destruct (256 ^ n <=? value); [discriminate|].
    injection E as <-. rewrite length_be_bytes.
    destruct (Z.eq_dec n 1) as [->|Hn]; [left; reflexivity | right].
    rewrite Z2Nat.id by lia.
    assert (En : n = (bit_length value + 7) / 8) by lia.
    assert (Hpos : 0 < value).
    { destruct (Z.eq_dec value 0) as [->|]; [|lia].
      cbn in En. lia. }
    unfold bit_length in En.
    destruct (Z.eqb_spec value 0); [lia|].
    rewrite Z.abs_eq in En by lia.
    pose proof (Z.log2_spec value Hpos) as [Hlog _].
    pose proof (Z.log2_nonneg value) as Hl0.
    assert (Hle : 8 * (n - 1) <= Z.log2 value).
    { pose proof (Z.div_mod (Z.log2 value + 1 + 7) 8 ltac:(lia)).
      pose proof (Z.mod_pos_bound (Z.log2 value + 1 + 7) 8 ltac:(lia)). lia. }
    replace 256 with (2 ^ 8) by reflexivity.
    rewrite <- Z.pow_mul_r by lia.
    eapply Z.le_trans; [|exact Hlog].
    apply Z.pow_le_mono_r; lia.
Qed.

(** X15 (serialized proofs).  What [RichensProof.to_dict] writes,
    [RichensProof.from_dict] reads back, whatever the proof (negative
    numbers among them). *)
Theorem proof_dict_round_trip (proof : RichensProof) :
  proof_from_dict (proof_to_dict proof) = Ok proof.
Proof.
  unfold proof_from_dict, proof_to_dict.
  cbv beta iota delta [d_response d_orbital d_parity].
  rewrite !int16_hex. cbn [bind]. now destruct proof.
Qed.

(** X16 (short vectors).  A capsule whose vector has fewer than three
    components is not rejected but makes both [verify_attestation] and
    [from_dict] raise [IndexError]. *)
Theorem short_vector_raises_IndexError (capsule : RichensCapsule)
    (challenge : Z) (proof : RichensProof) :
  P <> 0 -> (List.length (vector capsule) < 3)%nat ->
  verify_attestation capsule challenge proof = Raise IndexError
  /\ from_dict (to_dict capsule) = Raise IndexError.
Proof.
  intros HP Hlen.
  assert (Ea : _derive_anchor (vector capsule) = Raise IndexError).
  { unfold _derive_anchor, index.
    destruct (vector capsule) as [|v0 [|v1 [|v2 rest]]];
      cbn [nth_error bind List.length] in *; try lia;
      rewrite ?pow_Ok by lia; reflexivity. }
  split.
  - unfold verify_attestation. now rewrite Ea.
  - unfold from_dict, to_dict.
    cbv beta iota zeta delta [d_vector d_context d_anchor d_fingerprint].
    rewrite int16_each_hex, int16_hex. cbn [bind].
    unfold checked. cbn [vector]. now rewrite Ea.
Qed.

Lemma mod_inv (a m v : Z) : mod_ a m = Ok v -> m <> 0 /\ v = a mod m.
Proof.
  unfold mod_. destruct (Z.eqb_spec m 0); [discriminate|].
  intros [= <-]. now split.
Qed.

Lemma compare_digest_true (a b : string) :
  compare_digest a b = Ok true -> a = b.
Proof.
  unfold compare_digest. destruct (is_ascii a && is_ascii b); [|discriminate].
  intros [= E]. now apply String.eqb_eq.
Qed.

(** X17 (what acceptance has checked).  When [verify_attestation] returns
    [True], the capsule is one [from_dict] reads back unchanged, the orbital
    is [G] to the response, and the parity is the digest recomputed from the
    reduced challenge, the orbital and the capsule's context. *)
Theorem accepted_attestation_inv (capsule : RichensCapsule) (challenge : Z)
    (proof : RichensProof) :
  verify_attestation capsule challenge proof = Ok true ->
  integrity capsule
  /\ from_dict (to_dict capsule) = Ok capsule
  /\ pow G (response proof) P = Ok (orbital proof)
  /\ parity_of (challenge mod Q) (orbital proof) (context capsule)
     = Ok (parity proof).
Proof.
  intros E. unfold verify_attestation in E.
  apply bind_Ok in E as (a & Ea & E).
  destruct (Z.eqb_spec (anchor capsule) a) as [Eanch|]; cbn [negb] in E;
    [|discriminate].
  apply bind_Ok in E as (f & Ef & E).
  destruct (String.eqb_spec (fingerprint capsule) f) as [Efp|]; cbn [negb] in E;
    [|discriminate].
  apply bind_Ok in E as (cm & Ecm & E). apply mod_inv in Ecm as [_ ->].
  apply bind_Ok in E as (v0 & _ & E). apply bind_Ok in E as (e0 & _ & E).
  apply bind_Ok in E as (v1 & _ & E). apply bind_Ok in E as (e1 & _ & E).
  apply bind_Ok in E as (x1 & _ & E).
  apply bind_Ok in E as (v2 & _ & E). apply bind_Ok in E as (sq & _ & E).
  apply bind_Ok in E as (e2 & _ & E). apply bind_Ok in E as (x2 & _ & E).
  apply bind_Ok in E as (left & El & E).
  destruct (Z.eqb_spec left (orbital proof)) as [Eorb|]; cbn [negb] in E;
    [|discriminate].
  destruct (Z.eqb_spec (orbital proof) x2); cbn [negb] in E; [|discriminate].
  apply bind_Ok in E as (expected_parity & Epar & E).
  apply compare_digest_true in E.
  assert (Hint : integrity capsule) by (split; congruence).
  split; [exact Hint|]. split; [now apply from_dict_to_dict|].
  split; congruence.
Qed.

(** X18 (the accepted proof).  The proof a minted capsule accepts at a
    challenge is the one [respond_to_challenge] makes: same orbital, same
    parity, and, [Q] being prime, the same response up to a multiple of [Q]. *)
Theorem accepted_proof_is_the_response (essence : bytes) (context : string)
    (t : Z) (capsule : RichensCapsule) (proof proof' : RichensProof) :
  group_ok -> Z.prime Q ->
  mint_capsule essence context = Ok capsule ->
  respond_to_challenge essence t context = Ok proof ->
  0 <= response proof' ->
  verify_attestation capsule t proof' = Ok true ->
  response proof' mod Q = response proof
  /\ orbital proof' = orbital proof
  /\ parity proof' = parity proof.
Proof.
  intros Hg Hq Em Er Hresp Hacc.
  pose proof (group_ok_P Hg) as HP. pose proof (group_ok_Q Hg) as HQ.
  assert (HP0 : 0 < P) by lia.
  destruct (mint_capsule_Ok essence context HP0 HQ) as
    (a & b & c & capsule0 & Ec & Ha & Hb & Hc & Em0 & Hv & Hctx & Hint).
  rewrite Em in Em0. injection Em0 as <-.
  destruct (respond_to_challenge_Ok essence t context a b c HP0 HQ Ec)
    as (par & Epar & Er0).
  rewrite Er in Er0.
  remember ((a + b * (t mod Q) + c * ((t mod Q) ^ 2 mod Q)) mod Q) as poly
    eqn:Epoly in *.
  injection Er0 as ->.
  cbn [response orbital parity].
  assert (Ht : 0 <= t mod Q < Q) by (apply Z.mod_pos_bound; lia).
  assert (Hs : 0 <= (t mod Q) ^ 2 mod Q < Q) by (apply Z.mod_pos_bound; lia).
  rewrite (verify_attestation_intact capsule _ _ _ t proof' HP0 HQ Hint Hv)
    in Hacc.
  rewrite pow_Ok in Hacc by lia. cbn [bind] in Hacc.
  rewrite richens_homomorphism in Hacc by (auto; lia).
  rewrite <- Epoly in Hacc.
  assert (Hpoly : 0 <= poly < Q) by (subst poly; apply Z.mod_pos_bound; lia).
  destruct (Z.eqb_spec (G ^ response proof' mod P) (orbital proof')) as [Eo|];
    cbn [negb] in Hacc; [|discriminate].
  destruct (Z.eqb_spec (orbital proof') (G ^ poly mod P)) as [Eo'|];
    cbn [negb] in Hacc; [|discriminate].
  rewrite Eo', Hctx, Epar in Hacc. cbn [bind] in Hacc.
  apply compare_digest_true in Hacc.
  split; [|split; assumption].
  apply G_pow_inj; auto.
  - apply Z.mod_pos_bound; lia.
  - rewrite G_pow_mod_Q by auto. congruence.
Qed.

(** X19 (the parity check).  The parity of a proof is compared as ASCII
    text: with the response and the orbital of the honest proof,
    [verify_attestation] returns whether the parity is the honest one, and
    raises [TypeError] on a parity with a character outside ASCII. *)
Theorem parity_is_compared_as_ascii (essence : bytes) (context : string)
    (t : Z) (s : string) :
  group_ok ->
  exists capsule proof,
    mint_capsule essence context = Ok capsule
    /\ respond_to_challenge essence t context = Ok proof
    /\ verify_attestation capsule t
         {| response := response proof; orbital := orbital proof; parity := s |}
       = if is_ascii s then Ok (String.eqb s (parity proof)) else Raise TypeError.
Proof.
  intros Hg.
  pose proof (group_ok_P Hg) as HP. pose proof (group_ok_Q Hg) as HQ.
  assert (HP0 : 0 < P) by lia.
  destruct (mint_capsule_Ok essence context HP0 HQ) as
    (a & b & c & capsule & Ec & Ha & Hb & Hc & Em & Hv & Hctx & Hint).
  destruct (respond_to_challenge_Ok essence t context a b c HP0 HQ Ec)
    as (par & Epar & Er).
  eexists capsule, _. split; [exact Em|]. split; [exact Er|].
  assert (Ht : 0 <= t mod Q < Q) by (apply Z.mod_pos_bound; lia).
  assert (Hs : 0 <= (t mod Q) ^ 2 mod Q < Q) by (apply Z.mod_pos_bound; lia).
  rewrite (verify_attestation_intact capsule _ _ _ t _ HP0 HQ Hint Hv).
  cbn [response orbital parity].
  rewrite pow_Ok by (try apply Z.mod_pos_bound; lia). cbn [bind].
  rewrite Z.eqb_refl. cbn [negb].
  rewrite richens_homomorphism by (auto; lia).
  rewrite Z.eqb_refl. cbn [negb].
  rewrite Hctx, Epar. cbn [bind].
  unfold parity_of in Epar. apply bind_Ok in Epar as (h & _ & [= <-]).
  unfold compare_digest, hexdigest. rewrite hexlify_is_ascii.
  now rewrite Bool.andb_true_r.
Qed.

(** X20 (the challenge 0 modulo Q).  A challenge that is a multiple of [Q]
    (0 among them; neither function refuses it) makes the response the first
    secret coefficient itself, and the orbital the first component of the
    capsule. *)
Theorem null_challenge_reveals_coefficient (essence : bytes) (context : string)
    (t a b c : Z) :
  0 < P -> 0 < Q -> t mod Q = 0 ->
  _derive_coefficients essence context = Ok (a, b, c) ->
  exists proof capsule,
    respond_to_challenge essence t context = Ok proof
    /\ mint_capsule essence context = Ok capsule
    /\ response proof = a
    /\ nth_error (vector capsule) 0 = Some (orbital proof).
Proof.
  intros HP HQ Ht Ec.
  destruct (mint_capsule_Ok essence context HP HQ) as
    (a0 & b0 & c0 & capsule & Ec0 & Ha & Hb & Hc & Em & Hv & Hctx & Hint).
  rewrite Ec in Ec0. injection Ec0 as <- <- <-.
  destruct (respond_to_challenge_Ok essence t context a b c HP HQ Ec)
    as (par & Epar & Er).
  eexists _, capsule. split; [exact Er|]. split; [exact Em|].
  cbn [response orbital]. rewrite Ht.
  assert (Epoly : (a + b * 0 + c * (0 ^ 2 mod Q)) mod Q = a).
  { rewrite Z.pow_0_l, Z.mod_0_l by lia.
    rewrite !Z.mul_0_r, !Z.add_0_r. apply Z.mod_small. lia. }
  rewrite Epoly, Hv. split; reflexivity.
Qed.

(** X21 (the anchor).  The anchor of a minted capsule is itself a power of
    [G]: its exponent is [2a + 3b + 5c] over the secret coefficients; and
    the three components of the vector lie strictly between 0 and [P]. *)
Theorem minted_anchor_is_a_power (essence : bytes) (context : string) :
  group_ok ->
  exists a b c capsule,
    _derive_coefficients essence context = Ok (a, b, c)
    /\ mint_capsule essence context = Ok capsule
    /\ anchor capsule = G ^ (2 * a + 3 * b + 5 * c) mod P
    /\ Forall (fun v => 0 < v < P) (vector capsule).
Proof.
  intros Hg.
  pose proof (group_ok_P Hg) as HP. pose proof (group_ok_Q Hg) as HQ.
  assert (HP0 : 0 < P) by lia.
  destruct (mint_capsule_Ok essence context HP0 HQ) as
    (a & b & c & capsule & Ec & Ha & Hb & Hc & Em & Hv & Hctx & Hint).
  exists a, b, c, capsule. split; [exact Ec|]. split; [exact Em|].
  assert (Hin : forall e, 0 <= e -> 0 < G ^ e mod P < P).
  { intros e He. split; [now apply G_pow_nonzero | apply Z.mod_pos_bound; lia]. }
  split.
  - destruct Hint as [Ea _]. rewrite Hv, derive_anchor_triple in Ea by lia.
    assert (Ean : anchor capsule
                  = ((G ^ a mod P) ^ 2 mod P * ((G ^ b mod P) ^ 3 mod P)
                     * ((G ^ c mod P) ^ 5 mod P)) mod P) by congruence.
    rewrite Ean, !pow_pow_mod by lia.
    replace (2 * a + 3 * b + 5 * c) with (a * 2 + b * 3 + c * 5) by lia.
    rewrite !Z.pow_add_r by lia.
    rewrite (Z.mul_mod (G ^ (a * 2) * G ^ (b * 3)) (G ^ (c * 5))) by lia.
    rewrite (Z.mul_mod (G ^ (a * 2)) (G ^ (b * 3))) by lia.
    rewrite Z.mul_mod_idemp_l by lia. reflexivity.
  - rewrite Hv. repeat constructor; apply Hin; lia.
Qed.

End RichensMore.

(* ================================================================== *)
(** * [zkpauth/server.py]: sessions and the login endpoints *)
(* ================================================================== *)

Section ServerMore.
Context `{Constants} `{Hashlib}.
Import Server.

Lemma get_del_same (d : Sessions) (k : string) : get (del d k) k = None.
Proof.
  unfold get, del. induction d as [|[k0 v0] d IH]; [reflexivity|].
  cbn [filter fst]. destruct (String.eqb k0 k) eqn:E; cbn [negb]; [exact IH|].
  cbn [find fst]. now rewrite E.
Qed.

Lemma get_del_other (d : Sessions) (k k' : string) :
  k' <> k -> get (del d k) k' = get d k'.
Proof.
  intros Hne. unfold get, del. induction d as [|[k0 v0] d IH]; [reflexivity|].
  cbn [filter find fst].
  destruct (String.eqb_spec k0 k) as [->|]; cbn [negb find fst].
  - destruct (String.eqb_spec k k'); [congruence | exact IH].
  - destruct (String.eqb k0 k'); [reflexivity | exact IH].
Qed.

Lemma del_absent (d : Sessions) (k : string) : get d k = None -> del d k = d.
Proof.
  unfold get, del. induction d as [|[k0 v0] d IH]; [reflexivity|].
  cbn [filter find fst]. destruct (String.eqb k0 k); [discriminate|].
  cbn [negb]. intros E. now rewrite IH.
Qed.

Lemma get_set_same (d : Sessions) (k : string) (v : _SessionState) :
  get (set d k v) k = Some v.
Proof. unfold get, set. cbn [find fst]. now rewrite String.eqb_refl. Qed.

Lemma get_set_other (d : Sessions) (k k' : string) (v : _SessionState) :
  k' <> k -> get (set d k v) k' = get d k'.
Proof.
  intros Hne. unfold set.
  change (get ((k, v) :: del d k) k')
    with (match (if String.eqb k k' then Some (k, v)
                 else find (fun kv => String.eqb (fst kv) k') (del d k)) with
          | Some kv => Some (snd kv)
          | None => None
          end).
  destruct (String.eqb_spec k k'); [congruence|].
  now apply get_del_other.
Qed.

Lemma del_set (d : Sessions) (k : string) (v : _SessionState) :
  del (set d k v) k = del d k.
Proof.
  unfold set. unfold del at 1. cbn [filter fst]. rewrite String.eqb_refl.
  cbn [negb]. apply del_absent, get_del_same.
Qed.

Lemma pop_set (d : Sessions) (k : string) (v : _SessionState) :
  pop (set d k v) k = (Ok v, del d k).
Proof. unfold pop. now rewrite get_set_same, del_set. Qed.

Lemma create_Ok (sessions : Sessions) (cid : string) (com ch : Z) (r : Rng) :
  let sid := b64_urlsafe (be_bytes 16 (peek r 0)) in
  create sessions cid com ch r
  = Ok ((sid, set sessions sid
                {| credential_id := cid; commitment := com; challenge := ch |}),
        advance r 1).
Proof. reflexivity. Qed.

Example b64_urlsafe_16_bytes :
  b64_urlsafe [x00; x01; x02; x03; x04; x05; x06; x07;
               x08; x09; x0a; x0b; x0c; x0d; x0e; x0f]
  = "AAECAwQFBgcICQoLDA0ODw".
Proof. reflexivity. Qed.

Example b64_urlsafe_one_byte : b64_urlsafe [x61] = "YQ".
Proof. reflexivity. Qed.

Example b64_urlsafe_two_bytes : b64_urlsafe [x61; x62] = "YWI".
Proof. reflexivity. Qed.

Example b64_urlsafe_last_letters : b64_urlsafe [xfb; xff; xbe] = "-_--".
Proof. reflexivity. Qed.

Example token_urlsafe_16 :
  token_urlsafe 16 Small.rng = Ok ("AAAAAAAAAAAAAAAAAAAABQ", advance Small.rng 1).
Proof. reflexivity. Qed.

(** X22 (sessions).  A session can be popped once: what [create] stored,
    under an id that took one tape cell, comes back at the first [pop],
    together with a dictionary that no longer has the session; a second
    [pop] raises [KeyError]; and no other session is touched by either. *)
Theorem session_is_popped_once (sessions : Sessions) (cid : string)
    (com ch : Z) (r : Rng) :
  exists sid sessions' r',
    create sessions cid com ch r = Ok ((sid, sessions'), r')
    /\ r' = advance r 1
    /\ pop sessions' sid
       = (Ok {| credential_id := cid; commitment := com; challenge := ch |},
          del sessions sid)
    /\ pop (del sessions sid) sid = (Raise KeyError, del sessions sid)
    /\ forall k, k <> sid ->
         get sessions' k = get sessions k
         /\ get (del sessions sid) k = get sessions k.
Proof.
  do 3 eexists. split; [apply create_Ok|]. split; [reflexivity|].
  split; [apply pop_set|]. split.
  - unfold pop. now rewrite get_del_same.
  - intros k Hk. split; [now apply get_set_other | now apply get_del_other].
Qed.

(** X23 (one attempt per session).  [login_finish] leaves no second attempt:
    whatever it answers, the session is gone afterwards (and only that one),
    so the same request again is an unknown session; and it answers "Unknown
    session" only for a session that is not there. *)
Theorem login_finish_consumes_session (store : Store.UserStore)
    (sessions : Sessions) (request : LoginFinishRequest) :
  snd (login_finish store sessions request)
  = del sessions (lfq_session request)
  /\ (forall k, k <> lfq_session request ->
       get (snd (login_finish store sessions request)) k = get sessions k)
  /\ login_finish store (snd (login_finish store sessions request)) request
     = (HTTPException 404 "Unknown session",
        snd (login_finish store sessions request))
  /\ (fst (login_finish store sessions request)
      = HTTPException 404 "Unknown session"
      <-> get sessions (lfq_session request) = None).
Proof.
  assert (Hsnd : snd (login_finish store sessions request)
                 = del sessions (lfq_session request)).
  { unfold login_finish, pop.
    destruct (get sessions (lfq_session request)) as [state|] eqn:Eg.
    - repeat match goal with
             | |- context [match ?x with _ => _ end] => destruct x
             end; reflexivity.
    - cbn [snd]. symmetry. now apply del_absent. }
  rewrite Hsnd. split; [reflexivity|]. split; [|split].
  - intros k Hk. now apply get_del_other.
  - unfold login_finish at 1, pop. now rewrite get_del_same.
  - unfold login_finish, pop, int16_or_400.
    destruct (get sessions (lfq_session request)) as [state|] eqn:Eg.
    + split; [|discriminate].
      destruct (Store.get_by_credential store (credential_id state))
        as [[record|]|e]; cbn [fst]; try (intros E; discriminate E).
      destruct (int16 (lfq_response request)) as [v|[]];
        cbn [fst]; try (intros E; discriminate E).
      destruct (Crypto.SchnorrVerifier_init (Store.public_key record))
        as [verifier|e]; cbn [fst]; try (intros E; discriminate E).
      destruct (Crypto.verify verifier (commitment state) _) as [success|e];
        cbn [fst]; intros E; discriminate E.
    + split; reflexivity.
Qed.

(** X24 (what a session holds).  Once [login_start] has answered, the
    credential is a stored one with a public key in (0, P), the commitment
    is the positive number the request spelled in hexadecimal, the challenge
    is the one sent back and lies in [0, 2^CHALLENGE_BITS); no other session
    has changed, and two tape cells were read. *)
Theorem login_start_reply (store : Store.UserStore) (sessions : Sessions)
    (request : LoginStartRequest) (r : Rng) (resp : LoginStartResponse)
    (sessions' : Sessions) (r' : Rng) :
  login_start store sessions request r = Reply (resp, sessions', r') ->
  exists record c ch,
    Store.get_by_credential store (lsq_credential_id request) = Ok (Some record)
    /\ 0 < Store.public_key record < P
    /\ int16 (lsq_commitment request) = Ok c /\ 0 < c
    /\ 0 <= ch < 2 ^ CHALLENGE_BITS
    /\ lss_challenge resp = hex ch
    /\ get sessions' (lss_session resp)
       = Some {| credential_id := lsq_credential_id request;
                 commitment := c; challenge := ch |}
    /\ (forall k, k <> lss_session resp -> get sessions' k = get sessions k)
    /\ r' = advance r 2.
Proof.
  unfold login_start, int16_or_400. intros E.
  destruct (Store.get_by_credential store (lsq_credential_id request))
    as [[record|]|e] eqn:Erec; try discriminate.
  destruct (int16 (lsq_commitment request)) as [c|[]] eqn:Ec; try discriminate.
  destruct (Z.leb_spec c 0) as [|Hc]; [discriminate|].
  unfold Crypto.SchnorrVerifier_init in E.
  destruct (Z.ltb_spec 0 (Store.public_key record));
    destruct (Z.ltb_spec (Store.public_key record) P);
    cbn [andb negb] in E; try discriminate.
  unfold Crypto.random_challenge, randbits in E.
  destruct (Z.ltb_spec CHALLENGE_BITS 0) as [|Hcb]; [discriminate|].
  rewrite create_Ok in E.
  remember (b64_urlsafe (be_bytes 16 (peek (advance r 1) 0))) as sid eqn:Esid.
  injection E as <- <- <-.
  rewrite advance_advance. cbn [lss_session lss_challenge].
  rewrite (get_by_credential_id _ _ _ Erec).
  exists record, c, (peek r 0 mod 2 ^ CHALLENGE_BITS).
  split; [reflexivity|]. split; [lia|]. split; [reflexivity|].
  split; [exact Hc|].
  split; [apply Z.mod_pos_bound, Z.pow_pos_nonneg; lia|].
  split; [reflexivity|]. split; [apply get_set_same|].
  split; [intros k Hk; now apply get_set_other | reflexivity].
Qed.

(** The two login calls of a client that holds the secret behind a stored
    public key. *)
Lemma honest_login (store : Store.UserStore) (sessions : Sessions)
    (cid : string) (record : Store.UserRecord) (x n : Z) (r : Rng) :
  group_ok -> 0 <= CHALLENGE_BITS -> 0 < x < Q -> 1 <= n <= Q - 1 ->
  Store.get_by_credential store cid = Ok (Some record) ->
  Store.public_key record = G ^ x mod P ->
  exists session ch sessions',
    login_start store sessions
      {| lsq_credential_id := cid; lsq_commitment := hex (G ^ n mod P) |} r
    = Reply ({| lss_session := session; lss_challenge := hex ch |},
             sessions', advance r 2)
    /\ 0 <= ch < 2 ^ CHALLENGE_BITS
    /\ login_finish store sessions'
         {| lfq_session := session;
            lfq_response := hex ((n + ch * x) mod Q) |}
       = (Reply {| lfs_success := true |}, del sessions session).
Proof.
  intros Hg Hcb Hx Hn Erec Epk.
  pose proof (group_ok_P Hg) as HP.
  set (ch := peek r 0 mod 2 ^ CHALLENGE_BITS).
  assert (Hch : 0 <= ch < 2 ^ CHALLENGE_BITS).
  { subst ch. apply Z.mod_pos_bound, Z.pow_pos_nonneg; lia. }
  destruct (honest_round x n ch Hg Hx Hn Hch) as (_ & Ev & _ & Ever).
  cbn [Crypto.commitment] in Ever.
  pose proof (G_pow_nonzero n Hg ltac:(lia)) as Hcom.
  pose proof (get_by_credential_id _ _ _ Erec) as Ecid.
  exists (b64_urlsafe (be_bytes 16 (peek (advance r 1) 0))), ch.
  eexists. split; [|split; [exact Hch|]].
  - unfold login_start, int16_or_400.
    cbn [lsq_credential_id lsq_commitment].
    rewrite Erec, int16_hex.
    destruct (Z.leb_spec (G ^ n mod P) 0); [lia|].
    rewrite Epk, Ev.
    unfold Crypto.random_challenge, randbits.
    destruct (Z.ltb_spec CHALLENGE_BITS 0); [lia|].
    fold ch. rewrite create_Ok, advance_advance. reflexivity.
  - unfold login_finish. cbn [lfq_session lfq_response].
    rewrite pop_set. cbn [credential_id commitment challenge].
    rewrite Ecid, Erec. unfold int16_or_400. rewrite int16_hex.
    rewrite Epk, Ev, Ever. reflexivity.
Qed.

(** X25 (login against the server).  For a stored credential, a client that
    holds the secret behind its public key, commits to a nonce and answers
    the challenge it is sent gets [success = True], and its session is gone
    afterwards. *)
Theorem honest_login_succeeds (store : Store.UserStore) (sessions : Sessions)
    (cid : string) (record : Store.UserRecord) (x n : Z) (r : Rng) :
  group_ok -> 0 <= CHALLENGE_BITS -> 0 < x < Q -> 1 <= n <= Q - 1 ->
  Store.get_by_credential store cid = Ok (Some record) ->
  Store.public_key record = G ^ x mod P ->
  exists session ch sessions',
    login_start store sessions
      {| lsq_credential_id := cid; lsq_commitment := hex (G ^ n mod P) |} r
    = Reply ({| lss_session := session; lss_challenge := hex ch |},
             sessions', advance r 2)
    /\ int16 (hex ch) = Ok ch
    /\ login_finish store sessions'
         {| lfq_session := session;
            lfq_response := hex ((n + ch * x) mod Q) |}
       = (Reply {| lfs_success := true |}, del sessions session)
    /\ get (del sessions session) session = None.
Proof.
  intros Hg Hcb Hx Hn Erec Epk.
  destruct (honest_login store sessions cid record x n r Hg Hcb Hx Hn Erec Epk)
    as (session & ch & sessions' & Es & _ & Ef).
  exists session, ch, sessions'. split; [exact Es|].
  split; [apply int16_hex|]. split; [exact Ef | apply get_del_same].
Qed.

(** What [register] answers with, in terms of [add_user]. *)
Lemma register_Reply (store : Store.UserStore) (request : RegisterRequest)
    (r : Rng) (resp : RegisterResponse) (store' : Store.UserStore) (r' : Rng) :
  register store request r = Reply (resp, store', r') ->
  exists secret record s,
    Store.add_user store (rq_alias request) secret r
    = Ok ((record, s, store'), r')
    /\ resp = {| rs_credential_id := Store.credential_id record;
                 rs_alias := Store.alias record;
                 rs_public_key := hex (Store.public_key record);
                 rs_secret := hex s |}.
Proof.
  unfold register. intros E.
  assert (Hc : forall secret,
            match Store.add_user store (rq_alias request) secret r with
            | Raise e => Uncaught e
            | Ok ((record, secret_int, store'), r') =>
                Reply ({| rs_credential_id := Store.credential_id record;
                          rs_alias := Store.alias record;
                          rs_public_key := hex (Store.public_key record);
                          rs_secret := hex secret_int |}, store', r')
            end = Reply (resp, store', r') ->
            exists secret record s,
              Store.add_user store (rq_alias request) secret r
              = Ok ((record, s, store'), r')
              /\ resp = {| rs_credential_id := Store.credential_id record;
                           rs_alias := Store.alias record;
                           rs_public_key := hex (Store.public_key record);
                           rs_secret := hex s |}).
  { intros secret Es.
    destruct (Store.add_user store (rq_alias request) secret r)
      as [[[[record s] st] r0]|e] eqn:Eadd; [|discriminate].
    injection Es as <- <- <-. exists secret, record, s. now split. }
  destruct (rq_secret request) as [[|c0 s0]|]; try (eapply Hc; exact E).
  destruct (int16_or_400 (String c0 s0) "Secret must be hex encoded");
    try discriminate.
  eapply Hc; exact E.
Qed.

(** X26 (registration, then login, against the server).  In a store whose
    entries all carry a credential id, the credential id and the secret that
    [register] answers with log in, whatever the nonce and the entropy. *)
Theorem registered_client_logs_in (store : Store.UserStore)
    (request : RegisterRequest) (r r1 : Rng) (resp : RegisterResponse)
    (store' : Store.UserStore) :
  group_ok -> 0 <= CHALLENGE_BITS ->
  Forall (fun raw => Store.raw_credential_id raw <> None) store ->
  register store request r = Reply (resp, store', r1) ->
  exists x,
    int16 (rs_secret resp) = Ok x
    /\ 0 < x < Q
    /\ int16 (rs_public_key resp) = Ok (G ^ x mod P)
    /\ forall sessions n r2,
         1 <= n <= Q - 1 ->
         exists session ch sessions',
           login_start store' sessions
             {| lsq_credential_id := rs_credential_id resp;
                lsq_commitment := hex (G ^ n mod P) |} r2
           = Reply ({| lss_session := session; lss_challenge := hex ch |},
                    sessions', advance r2 2)
           /\ login_finish store' sessions'
                {| lfq_session := session;
                   lfq_response := hex ((n + ch * x) mod Q) |}
              = (Reply {| lfs_success := true |}, del sessions session).
Proof.
  intros Hg Hcb Hids E.
  pose proof (group_ok_P Hg) as HP.
  apply register_Reply in E as (secret & record & x & Eadd & ->).
  apply add_user_Ok in Eadd as (-> & _ & _ & Epk & _ & Hfree & _).
  apply derive_public_key_inv in Epk as [Hx Epk]; [|lia].
  exists x. cbn [rs_secret rs_public_key rs_credential_id].
  split; [apply int16_hex|]. split; [exact Hx|].
  split; [rewrite int16_hex; congruence|].
  intros sessions n r2 Hn.
  pose proof (get_by_credential_added store record Hids Hfree) as Erec.
  destruct (honest_login _ sessions _ _ x n r2 Hg Hcb Hx Hn Erec Epk)
    as (session & ch & sessions' & Es & _ & Ef).
  exists session, ch, sessions'. now split.
Qed.

End ServerMore.

(* ================================================================== *)
(** * [zkp_auth.py]: from one command to the next *)
(* ================================================================== *)

Section CliMore.
Context `{Constants} `{Hashlib}.
Import Richens.

Example fromhex_spaced : fromhex " 0a f1 " = Ok [x0a; xf1].
Proof. reflexivity. Qed.

Example fromhex_mixed_case : fromhex "0aF1" = Ok [x0a; xf1].
Proof. reflexivity. Qed.

Example fromhex_odd : fromhex "abc" = Raise (fromhex_error 3).
Proof. reflexivity. Qed.

Example fromhex_split_pair : fromhex "a b" = Raise (fromhex_error 1).
Proof. reflexivity. Qed.

Example fromhex_prefix : fromhex "0x10" = Raise (fromhex_error 1).
Proof. reflexivity. Qed.

Example fromhex_message :
  fromhex_error 13
  = ValueError "non-hexadecimal number found in fromhex() arg at position 13".
Proof. reflexivity. Qed.

Lemma is_space_hex_digit (n : N) : is_space (hex_digit n) = false.
Proof.
  destruct n as [|p]; [reflexivity|].
  do 4 (try destruct p as [p|p|]); reflexivity.
Qed.

Lemma byte_of_to_N (b : byte) : byte_of_Z (Z.of_N (Byte.to_N b)) = b.
Proof.
  unfold byte_of_Z. pose proof (Byte.to_N_bounded b) as Hb.
  rewrite Z.mod_small by lia. rewrite N2Z.id, Byte.of_to_N. reflexivity.
Qed.

Lemma fromhex_scan_hexlify (bs : bytes) :
  forall position,
  fromhex_scan (list_ascii_of_string (hexlify bs)) position = Ok bs.
Proof.
  induction bs as [|b bs IH]; intros position; [reflexivity|].
  pose proof (Byte.to_N_bounded b) as Hb.
  assert (Hhi : (Byte.to_N b / 16 < 16)%N)
    by (apply N.Div0.div_lt_upper_bound; lia).
  assert (Hlo : (Byte.to_N b mod 16 < 16)%N) by (apply N.mod_lt; lia).
  cbn [hexlify list_ascii_of_string fromhex_scan].
  rewrite is_space_hex_digit, !digit16_hex_digit by assumption.
  rewrite IH. cbn [bind].
  replace (Byte.to_N b / 16 * 16 + Byte.to_N b mod 16)%N with (Byte.to_N b)
    by (pose proof (N.div_mod (Byte.to_N b) 16); lia).
  now rewrite byte_of_to_N.
Qed.

(** What [bytes.hex()] writes, [bytes.fromhex] reads back. *)
Lemma fromhex_hexlify (bs : bytes) : fromhex (hexlify bs) = Ok bs.
Proof.
  unfold fromhex. rewrite hexlify_is_ascii. apply fromhex_scan_hexlify.
Qed.

Lemma issue_challenge_loop_no_raise (fuel : nat) (size : Z) :
  0 <= size ->
  forall r e, issue_challenge_loop fuel size r <> Some (Raise e).
Proof.
  intros Hs. induction fuel as [|fuel IH]; intros r e; [discriminate|].
  cbn [issue_challenge_loop]. unfold randbits.
  destruct (Z.ltb_spec size 0); [lia|].
  destruct ((0 <? peek r 0 mod 2 ^ size) && (peek r 0 mod 2 ^ size <? Q));
    [discriminate | apply IH].
Qed.

(** [richens-login] on a minted capsule, the essence given in
    hexadecimal, at a positive challenge. *)
Lemma attest_minted (bs : bytes) (context : string) (capsule : RichensCapsule)
    (c : Z) :
  group_ok -> mint_capsule bs context = Ok capsule ->
  from_dict (to_dict capsule) = Ok capsule
  /\ exists proof,
       Cli.attest capsule c (hexlify bs)
       = Ok {| Cli.challenge := hex c;
               Cli.capsule_persona := persona capsule;
               Cli.proof := proof;
               Cli.verified := true |}.
Proof.
  intros Hg Em.
  pose proof (group_ok_P Hg) as HP. pose proof (group_ok_Q Hg) as HQ.
  assert (HP0 : 0 < P) by lia.
  destruct (mint_capsule_Ok bs context HP0 HQ) as
    (a & b & c0 & capsule0 & _ & _ & _ & _ & Em0 & _ & Hctx & Hint).
  rewrite Em in Em0. injection Em0 as <-.
  split; [now apply from_dict_to_dict|].
  destruct (verify_own_response bs context c Hg)
    as (capsule1 & proof & Em1 & Er & Ev).
  rewrite Em in Em1. injection Em1 as <-.
  exists (proof_to_dict proof).
  unfold Cli.attest. rewrite fromhex_hexlify. cbn [bind].
  rewrite Hctx, Er. cbn [bind]. rewrite Ev. reflexivity.
Qed.

Lemma int16_not_empty (text : string) (c : Z) :
  int16 text = Ok c -> exists a rest, text = String a rest.
Proof.
  destruct text as [|a rest]; [discriminate | eauto].
Qed.

(** X27 (from richens-mint to richens-login).  The capsule that was printed
    (or written), in either shape of file, and the essence that was printed
    are accepted. With a challenge on the command line that reads as a
    positive number, the payload says [verified: true] and repeats the
    challenge; with no challenge, whenever the command ends it has printed
    such a payload for a challenge strictly between 0 and [Q]. *)
Theorem minted_capsule_logs_in (essence : option string) (context : string)
    (r r1 : Rng) (payload : Cli.MintPayload) (file : Cli.CapsuleFile) :
  group_ok ->
  Cli.richens_mint essence context r = Cli.Printed (payload, r1) ->
  file = Cli.HasVector (Cli.capsule payload)
  \/ file = Cli.HasCapsule (Cli.capsule payload) ->
  (forall text c fuel r2,
     int16 text = Ok c -> 0 < c ->
     exists proof,
       Cli.richens_login file (Cli.essence payload) (Some text) fuel r2
       = Some (Cli.Printed {| Cli.challenge := hex c;
                              Cli.capsule_persona := Cli.persona payload;
                              Cli.proof := proof;
                              Cli.verified := true |}, r2))
  /\ (forall fuel r2 out r3,
        Cli.richens_login file (Cli.essence payload) None fuel r2
        = Some (out, r3) ->
        exists c proof,
          0 < c < Q
          /\ out = Cli.Printed {| Cli.challenge := hex c;
                                  Cli.capsule_persona := Cli.persona payload;
                                  Cli.proof := proof;
                                  Cli.verified := true |}).
Proof.
  intros Hg Emint Hfile.
  assert (Hm : exists bs capsule,
            mint_capsule bs context = Ok capsule
            /\ payload = {| Cli.capsule := to_dict capsule;
                            Cli.persona := persona capsule;
                            Cli.essence := hexlify bs |}).
  { unfold Cli.richens_mint in Emint.
    match type of Emint with
    | match ?d with _ => _ end = _ => destruct d as [[bs r0]|e]
    end; [|discriminate].
    destruct (mint_capsule bs context) as [capsule|e] eqn:Em; [|discriminate].
    injection Emint as <- _. eauto. }
  destruct Hm as (bs & capsule & Em & ->).
  cbn [Cli.capsule Cli.persona Cli.essence] in *.
  assert (Hlogin : forall challenge fuel r2,
            Cli.richens_login file (hexlify bs) challenge fuel r2
            = Cli.richens_login (Cli.HasVector (to_dict capsule)) (hexlify bs)
                challenge fuel r2)
    by (intros; destruct Hfile as [->| ->]; reflexivity).
  split.
  - intros text c fuel r2 Etext Hc. rewrite Hlogin.
    destruct (attest_minted bs context capsule c Hg Em) as (Efrom & proof & Ea).
    destruct (int16_not_empty _ _ Etext) as (a & rest & ->).
    exists proof. unfold Cli.richens_login. rewrite Efrom, Etext. cbn [bind].
    destruct (Z.leb_spec c 0); [lia|]. now rewrite Ea.
  - intros fuel r2 out r3 E. rewrite Hlogin in E.
    destruct (attest_minted bs context capsule 0 Hg Em) as (Efrom & _).
    unfold Cli.richens_login in E. rewrite Efrom in E.
    destruct (issue_challenge fuel 192 r2) as [[[c r']|e]|] eqn:Ei;
      [| |discriminate].
    + apply issue_challenge_loop_sound in Ei as (_ & n & _ & _ & _ & Hc & _).
      destruct (attest_minted bs context capsule c Hg Em) as (_ & proof & Ea).
      destruct (Z.leb_spec c 0); [lia|]. rewrite Ea in E.
      injection E as <- _. eauto.
    + exfalso. revert Ei. apply issue_challenge_loop_no_raise.
      pose proof (bit_length_nonneg Q). lia.
Qed.

(** X28 (from register to login).  The secret that was printed logs in under
    the credential id that was printed, in a store whose entries all carry a
    credential id, and under the alias, when there is one that is not empty. *)
Theorem registered_credential_logs_in (store : Store.UserStore)
    (alias secret : option string) (r r1 : Rng) (payload : Auth.Registration)
    (store' : Store.UserStore) :
  group_ok -> 0 <= CHALLENGE_BITS -> 0 <= ROUNDS ->
  Cli.register store alias secret r = Cli.Printed (payload, store', r1) ->
  (Forall (fun raw => Store.raw_credential_id raw <> None) store ->
   forall r2, exists result r3,
     Cli.login store' (Auth.reg_credential_id payload)
       (Auth.reg_secret payload) false r2 = Cli.Printed (result, r3)
     /\ Auth.success result = true)
  /\ (forall a, alias = Some a -> a <> EmptyString ->
      forall r2, exists result r3,
        Cli.login store' a (Auth.reg_secret payload) true r2
        = Cli.Printed (result, r3)
        /\ Auth.success result = true
        /\ Auth.credential_id result = Auth.reg_credential_id payload).
Proof.
  intros Hg Hcb HR E.
  pose proof (group_ok_P Hg) as HP.
  unfold Cli.register in E.
  destruct (Cli.secret_value secret) as [sv|e]; [|discriminate].
  destruct (Auth.register_user store alias sv r)
    as [[[payload0 st] r0]|e] eqn:Ereg; [|discriminate].
  injection E as <- <- <-.
  unfold Auth.register_user in Ereg. rewrite bindM_eq in Ereg.
  destruct (Store.add_user store alias sv r)
    as [[[[record s] st'] r']|e] eqn:Eadd; [|discriminate].
  unfold ret in Ereg. injection Ereg as <- <- <-.
  apply add_user_Ok in Eadd as (-> & Eal & _ & Epk & _ & Hcred & Hfree).
  apply derive_public_key_inv in Epk as [Hs Epk]; [|lia].
  cbn [Auth.reg_secret Auth.reg_credential_id].
  split.
  - intros Hids r2.
    pose proof (get_by_credential_added store record Hids Hcred) as Eres.
    destruct (authenticate_honest _ (Store.credential_id record) false _ s r2
                Hg Hcb HR Hs Eres Epk) as (res & r3 & Ea & Hok & _).
    exists res, r3. unfold Cli.login. rewrite int16_hex, Ea. now split.
  - intros a -> Ha r2.
    pose proof (get_by_alias_added store record a (Hfree a eq_refl) Eal Ha)
      as Eres.
    destruct (authenticate_honest _ a true _ s r2 Hg Hcb HR Hs Eres Epk)
      as (res & r3 & Ea & Hok & Hcid & _).
    exists res, r3. unfold Cli.login. rewrite int16_hex, Ea. now split.
Qed.

End CliMore.

(* ================================================================== *)
(** * The further theorems at the small instance *)
(* ================================================================== *)

Section MoreAtSmall.
Import Small.
Import Richens.

Lemma small_prime_Q : Z.prime Q.
Proof.
  split; [reflexivity|]. intros n Hn [k Hk].
  change Q with 11 in *.
  assert (Hcases : n = 2 \/ n = 3 \/ n = 4 \/ n = 5 \/ n = 6 \/ n = 7
                   \/ n = 8 \/ n = 9 \/ n = 10) by lia.
  decompose [or] Hcases; subst n; lia.
Qed.

Lemma small_ids : Forall (fun raw => Store.raw_credential_id raw <> None) Small.store.
Proof. repeat constructor. discriminate. Qed.

Lemma small_add_bob :
  Store.add_user Small.store (Some "bob"%string) (Some 4) Small.rng
  = Ok ((Small.bob, 4, Small.store_with_bob), Small.rng).
Proof. reflexivity. Qed.

Lemma small_alice (use_alias : bool) :
  Auth._resolve_record Small.store (if use_alias then "alice" else "id-1")
    use_alias = Ok (Some Small.alice).
Proof. destruct use_alias; reflexivity. Qed.

(** The key of the secret 3 is 8, inside (0, P). *)
Lemma derive_public_key_valid_and_injective_witness :
  exists y,
    Crypto.derive_public_key 3 = Ok y
    /\ 0 < y < P
    /\ Crypto.SchnorrVerifier_init y = Ok {| Crypto.public_key := y |}.
Proof.
  apply (proj1 (derive_public_key_valid_and_injective small_group_ok) 3).
  split; reflexivity.
Defined.

(** The secret 4 against the key of the secret 3, at nonce 2 and the
    challenge 11 = Q. *)
Lemma wrong_secret_passes_only_null_challenge_witness :
  exists proof b,
    Crypto.prove {| Crypto.secret := 4 |} 11
      {| Crypto.commitment := G ^ 2 mod P; Crypto.nonce := 2 |} = Ok proof
    /\ Crypto.verify {| Crypto.public_key := G ^ 3 mod P |} (G ^ 2 mod P) proof
       = Ok b
    /\ (b = true <-> 11 mod Q = 0).
Proof.
  apply (wrong_secret_passes_only_null_challenge 3 4 2 11
           small_group_ok small_prime_Q);
    repeat split; first [reflexivity | discriminate].
Defined.

(** A round between the secret 3 and the key 8. *)
Lemma run_single_round_transcript_witness :
  exists ok proof c,
    Crypto.run_single_round 3 8 Small.rng = Ok ((ok, proof, c), advance Small.rng 2)
    /\ 0 < c < P
    /\ 0 <= Crypto.challenge proof < 2 ^ CHALLENGE_BITS
    /\ 0 <= Crypto.response proof < Q
    /\ Crypto.verify {| Crypto.public_key := 8 |} c proof = Ok ok
    /\ c = G ^ (peek Small.rng 0 mod (Q - 1) + 1) mod P
    /\ Crypto.challenge proof = peek Small.rng 1 mod 2 ^ CHALLENGE_BITS.
Proof.
  apply (run_single_round_transcript 3 8 Small.rng small_group_ok);
    repeat split; first [reflexivity | discriminate].
Defined.

(** Adding bob, with the secret 4, to the store that holds alice. *)
Lemma add_user_then_get_by_alias_witness :
  Small.store_with_bob = Small.store ++ [Store.to_dict Small.bob]
  /\ Store.get_by_alias Small.store_with_bob "bob" = Ok (Some Small.bob).
Proof.
  exact (add_user_then_get_by_alias Small.store "bob" (Some 4)
           Small.rng Small.rng Small.bob 4 Small.store_with_bob small_add_bob).
Defined.

Lemma add_user_preserves_lookups_witness :
  Store.get_by_alias Small.store_with_bob "alice"
  = Store.get_by_alias Small.store "alice".
Proof.
  apply (proj1 (add_user_preserves_lookups Small.store (Some "bob"%string)
                  (Some 4) Small.rng Small.rng Small.bob 4 Small.store_with_bob
                  small_add_bob) "alice"%string).
  discriminate.
Defined.

Lemma add_user_then_get_by_credential_witness :
  Store.get_by_credential Small.store_with_bob "10" = Ok (Some Small.bob).
Proof.
  exact (add_user_then_get_by_credential Small.store (Some "bob"%string)
           (Some 4) Small.rng Small.rng Small.bob 4 Small.store_with_bob
           small_ids small_add_bob).
Defined.

(** Registering bob with the secret 4, then logging in as bob. *)
Lemma registered_user_authenticates_witness :
  exists s,
    int16 "0x4" = Ok s
    /\ forall r2, exists res r3,
         Auth.authenticate Small.store_with_bob "bob" s true r2 = Ok (res, r3)
         /\ Auth.success res = true
         /\ Auth.credential_id res = "10"%string
         /\ Auth.alias res = Some "bob"%string
         /\ List.length (Auth.rounds res) = Z.to_nat ROUNDS.
Proof.
  assert (Hcb : 0 <= CHALLENGE_BITS) by discriminate.
  assert (HR : 0 <= ROUNDS) by discriminate.
  assert (Hne : "bob"%string <> EmptyString) by discriminate.
  assert (Ereg : Auth.register_user Small.store (Some "bob"%string) (Some 4)
                   Small.rng
                 = Ok (({| Auth.reg_credential_id := "10";
                           Auth.reg_alias := Some "bob"%string;
                           Auth.reg_public_key := "0x10";
                           Auth.reg_secret := "0x4" |},
                        Small.store_with_bob), Small.rng)) by reflexivity.
  exact (registered_user_authenticates Small.store "bob" (Some 4)
           Small.rng Small.rng _ Small.store_with_bob
           small_group_ok Hcb HR Hne Ereg).
Defined.

(** Logging in as alice, whose secret is 3, with the secret 4. *)
Lemma impostor_needs_null_challenges_witness :
  exists outcomes r',
    Auth.round_outcomes (Z.to_nat ROUNDS) 4 (G ^ 3 mod P) Small.rng
    = Ok (outcomes, r')
    /\ Auth.authenticate Small.store "alice" 4 true Small.rng
       = Ok ({| Auth.credential_id := "id-1";
                Auth.alias := Some "alice"%string;
                Auth.rounds := map Auth.transcript_of outcomes;
                Auth.success :=
                  forallb (fun o => Auth.round_challenge o mod Q =? 0) outcomes |},
             r')
    /\ (2 ^ CHALLENGE_BITS <= Q ->
        forallb (fun o => Auth.round_challenge o mod Q =? 0) outcomes
        = forallb (fun o => Auth.round_challenge o =? 0) outcomes).
Proof.
  assert (Hcb : 0 <= CHALLENGE_BITS) by discriminate.
  assert (HR : 0 <= ROUNDS) by discriminate.
  assert (Hx : 0 < 3 < Q) by (split; reflexivity).
  assert (Hx' : 0 < 4 < Q) by (split; reflexivity).
  assert (Hne : 4 <> 3) by discriminate.
  exact (impostor_needs_null_challenges Small.store "alice" true Small.alice
           3 4 Small.rng small_group_ok small_prime_Q Hcb HR Hx Hx' Hne
           (small_alice true) eq_refl).
Defined.

(** [Small.capsule] with its third component dropped. *)
Lemma short_vector_raises_IndexError_witness :
  verify_attestation
    {| vector := [3; 2]; context := "test-context"; anchor := 12;
       fingerprint := "03020d746573742d636f6e74657874" |} 5 Small.proof
  = Raise IndexError
  /\ from_dict
       (to_dict {| vector := [3; 2]; context := "test-context"; anchor := 12;
                   fingerprint := "03020d746573742d636f6e74657874" |})
     = Raise IndexError.
Proof.
  apply (short_vector_raises_IndexError
           {| vector := [3; 2]; context := "test-context"; anchor := 12;
              fingerprint := "03020d746573742d636f6e74657874" |} 5 Small.proof).
  - discriminate.
  - cbn [vector List.length]. lia.
Defined.

Lemma accepted_attestation_inv_witness :
  integrity Small.capsule
  /\ from_dict (to_dict Small.capsule) = Ok Small.capsule
  /\ pow G 1 P = Ok 2
  /\ parity_of (5 mod Q) 2 "test-context" = Ok "0502746573742d636f6e74657874"%string.
Proof.
  apply (accepted_attestation_inv Small.capsule 5 Small.proof).
  reflexivity.
Defined.

(** The response 12 = 1 + Q is accepted with the orbital and the parity of
    the honest proof, whose response is 1. *)
Lemma accepted_proof_is_the_response_witness :
  verify_attestation Small.capsule 5
    {| response := 12; orbital := 2;
       parity := "0502746573742d636f6e74657874" |} = Ok true
  /\ 12 mod Q = response Small.proof
  /\ 2 = orbital Small.proof
  /\ "0502746573742d636f6e74657874"%string = parity Small.proof.
Proof.
  split; [reflexivity|].
  apply (accepted_proof_is_the_response Small.essence "test-context" 5
           Small.capsule Small.proof
           {| response := 12; orbital := 2;
              parity := "0502746573742d636f6e74657874" |}
           small_group_ok small_prime_Q);
    try reflexivity.
  discriminate.
Defined.

Lemma parity_is_compared_as_ascii_witness :
  exists capsule proof,
    mint_capsule Small.essence "test-context" = Ok capsule
    /\ respond_to_challenge Small.essence 5 "test-context" = Ok proof
    /\ verify_attestation capsule 5
         {| response := response proof; orbital := orbital proof;
            parity := "00" |}
       = if is_ascii "00" then Ok (String.eqb "00" (parity proof))
         else Raise TypeError.
Proof.
  exact (parity_is_compared_as_ascii Small.essence "test-context" 5 "00"
           small_group_ok).
Defined.

(** At the challenge 11 = Q the response is the first coefficient, 8. *)
Lemma null_challenge_reveals_coefficient_witness :
  exists proof capsule,
    respond_to_challenge Small.essence 11 "test-context" = Ok proof
    /\ mint_capsule Small.essence "test-context" = Ok capsule
    /\ response proof = 8
    /\ nth_error (vector capsule) 0 = Some (orbital proof).
Proof.
  apply (null_challenge_reveals_coefficient Small.essence "test-context"
           11 8 1 7); reflexivity.
Defined.

Lemma minted_anchor_is_a_power_witness :
  exists a b c capsule,
    _derive_coefficients Small.essence "test-context" = Ok (a, b, c)
    /\ mint_capsule Small.essence "test-context" = Ok capsule
    /\ anchor capsule = G ^ (2 * a + 3 * b + 5 * c) mod P
    /\ Forall (fun v => 0 < v < P) (vector capsule).
Proof.
  exact (minted_anchor_is_a_power Small.essence "test-context" small_group_ok).
Defined.

(** Starting a login for alice with the commitment 16. *)
Lemma login_start_reply_witness :
  exists record c ch,
    Store.get_by_credential Small.store "id-1" = Ok (Some record)
    /\ 0 < Store.public_key record < P
    /\ int16 "0x10" = Ok c /\ 0 < c
    /\ 0 <= ch < 2 ^ CHALLENGE_BITS
    /\ "0x5"%string = hex ch
    /\ Server.get
         [("AAAAAAAAAAAAAAAAAAAADA"%string,
           {| Server.credential_id := "id-1"; Server.commitment := 16;
              Server.challenge := 5 |})]
         "AAAAAAAAAAAAAAAAAAAADA"
       = Some {| Server.credential_id := "id-1";
                 Server.commitment := c; Server.challenge := ch |}
    /\ (forall k, k <> "AAAAAAAAAAAAAAAAAAAADA"%string ->
          Server.get
            [("AAAAAAAAAAAAAAAAAAAADA"%string,
              {| Server.credential_id := "id-1"; Server.commitment := 16;
                 Server.challenge := 5 |})] k
          = Server.get [] k)
    /\ advance Small.rng 2 = advance Small.rng 2.
Proof.
  apply (login_start_reply Small.store []
           {| Server.lsq_credential_id := "id-1";
              Server.lsq_commitment := "0x10" |}
           Small.rng
           {| Server.lss_session := "AAAAAAAAAAAAAAAAAAAADA";
              Server.lss_challenge := "0x5" |}
           [("AAAAAAAAAAAAAAAAAAAADA"%string,
             {| Server.credential_id := "id-1"; Server.commitment := 16;
                Server.challenge := 5 |})]
           (advance Small.rng 2)).
  reflexivity.
Defined.

(** Alice, whose secret is 3, logs in with the nonce 2. *)
Lemma honest_login_succeeds_witness :
  exists session ch sessions',
    Server.login_start Small.store []
      {| Server.lsq_credential_id := "id-1";
         Server.lsq_commitment := hex (G ^ 2 mod P) |} Small.rng
    = Server.Reply ({| Server.lss_session := session;
                       Server.lss_challenge := hex ch |},
                    sessions', advance Small.rng 2)
    /\ int16 (hex ch) = Ok ch
    /\ Server.login_finish Small.store sessions'
         {| Server.lfq_session := session;
            Server.lfq_response := hex ((2 + ch * 3) mod Q) |}
       = (Server.Reply {| Server.lfs_success := true |}, Server.del [] session)
    /\ Server.get (Server.del [] session) session = None.
Proof.
  assert (Hcb : 0 <= CHALLENGE_BITS) by discriminate.
  assert (Hx : 0 < 3 < Q) by (split; reflexivity).
  assert (Hn : 1 <= 2 <= Q - 1) by (split; discriminate).
  exact (honest_login_succeeds Small.store [] "id-1" Small.alice 3 2 Small.rng
           small_group_ok Hcb Hx Hn (small_alice false) eq_refl).
Defined.

(** Bob registers with the secret 4, then logs in. *)
Lemma registered_client_logs_in_witness :
  exists x,
    int16 "0x4" = Ok x
    /\ 0 < x < Q
    /\ int16 "0x10" = Ok (G ^ x mod P)
    /\ forall sessions n r2,
         1 <= n <= Q - 1 ->
         exists session ch sessions',
           Server.login_start Small.store_with_bob sessions
             {| Server.lsq_credential_id := "10";
                Server.lsq_commitment := hex (G ^ n mod P) |} r2
           = Server.Reply ({| Server.lss_session := session;
                              Server.lss_challenge := hex ch |},
                           sessions', advance r2 2)
           /\ Server.login_finish Small.store_with_bob sessions'
                {| Server.lfq_session := session;
                   Server.lfq_response := hex ((n + ch * x) mod Q) |}
              = (Server.Reply {| Server.lfs_success := true |},
                 Server.del sessions session).
Proof.
  assert (Hcb : 0 <= CHALLENGE_BITS) by discriminate.
  assert (Ereg : Server.register Small.store
                   {| Server.rq_alias := Some "bob"%string;
                      Server.rq_secret := Some "0x4"%string |} Small.rng
                 = Server.Reply
                     ({| Server.rs_credential_id := "10";
                         Server.rs_alias := Some "bob"%string;
                         Server.rs_public_key := "0x10";
                         Server.rs_secret := "0x4" |},
                      Small.store_with_bob, Small.rng)) by reflexivity.
  exact (registered_client_logs_in Small.store _ Small.rng Small.rng _
           Small.store_with_bob small_group_ok Hcb small_ids Ereg).
Defined.

(** Minting from the essence [7b8c08ed08f2df], then logging in with the
    capsule file and the challenge [0x5]. *)
Lemma minted_capsule_logs_in_witness :
  exists proof,
    Cli.richens_login (Cli.HasVector (to_dict Small.capsule)) "7b8c08ed08f2df"
      (Some "0x5"%string) 10 Small.rng
    = Some (Cli.Printed {| Cli.challenge := hex 5;
                           Cli.capsule_persona := "03020d746573742d636f6e74";
                           Cli.proof := proof;
                           Cli.verified := true |}, Small.rng).
Proof.
  assert (Emint : Cli.richens_mint (Some "7b8c08ed08f2df"%string) "test-context"
                    Small.rng
                  = Cli.Printed
                      ({| Cli.capsule := to_dict Small.capsule;
                          Cli.persona := "03020d746573742d636f6e74";
                          Cli.essence := "7b8c08ed08f2df" |}, Small.rng))
    by reflexivity.
  assert (Hc : 0 < 5) by reflexivity.
  exact (proj1 (minted_capsule_logs_in (Some "7b8c08ed08f2df"%string)
                  "test-context" Small.rng Small.rng _
                  (Cli.HasVector (to_dict Small.capsule))
                  small_group_ok Emint (or_introl eq_refl))
           "0x5"%string 5 10%nat Small.rng eq_refl Hc).
Defined.

(** Bob registers on the command line with the secret [0x4], then logs in
    under the credential id that was printed. *)
Lemma registered_credential_logs_in_witness :
  exists result r3,
    Cli.login Small.store_with_bob "10" "0x4" false Small.rng
    = Cli.Printed (result, r3)
    /\ Auth.success result = true.
Proof.
  assert (Hcb : 0 <= CHALLENGE_BITS) by discriminate.
  assert (HR : 0 <= ROUNDS) by discriminate.
  assert (Ereg : Cli.register Small.store (Some "bob"%string)
                   (Some "0x4"%string) Small.rng
                 = Cli.Printed
                     ({| Auth.reg_credential_id := "10";
                         Auth.reg_alias := Some "bob"%string;
                         Auth.reg_public_key := "0x10";
                         Auth.reg_secret := "0x4" |},
                      Small.store_with_bob, Small.rng)) by reflexivity.
  exact (proj1 (registered_credential_logs_in Small.store (Some "bob"%string)
                  (Some "0x4"%string) Small.rng Small.rng _
                  Small.store_with_bob small_group_ok Hcb HR Ereg)
           small_ids Small.rng).
Defined.

End MoreAtSmall.
